(** * convert_jsx.py: JSX to React.createElement, a shallow embedding

    The program is a chain of regular-expression substitutions over one text
    buffer.  The embedding has three layers:

    - [Text]: Python [str] values as [list ascii] (code points below 256),
      with [str.strip], [str.replace], [in] and decimal formatting;
    - [Re]: the fragment of Python's [re] module the program uses, as a
      backtracking matcher (leftmost match, greedy and lazy repetition,
      capture groups, a backreference, [^] and [$]), with [re.match],
      [re.finditer] and [re.sub] on top of it;
    - [ConvertJsx]: the four functions of [convert_jsx.py], in an error
      monad: a Python operation that raises on [None] raises in the model.

    Then come the lemmas on the matcher (its results are results of the
    rest of the pattern, the groups it surely sets, repetition never runs
    out of iterations), on the scan and on [str.replace], the placeholders
    of the protection pass, the absence of exceptions, and at the end the
    properties of the specification, C1 to C10.
*)

From Stdlib Require Import List Arith Lia Bool Ascii NArith.
From Stdlib Require String DecimalString DecimalNat.
Import ListNotations String.StringSyntax.
Delimit Scope string_scope with string.

(* ------------------------------------------------------------------ *)
(** ** Text *)

Module Text.

(** A Python [str]: a sequence of code points.  The model covers the code
    points U+0000..U+00FF. *)
Definition str := list ascii.

(** Literals are written as Rocq strings and read as [str]. *)
Definition lit (s : String.string) : str := String.list_ascii_of_string s.
Arguments lit s%_string.

Definition code (c : ascii) : N := N_of_ascii c.

Definition in_range (lo hi : N) (c : ascii) : bool :=
  (N.leb lo (code c) && N.leb (code c) hi)%bool.

(** [Py_UNICODE_ISSPACE] below U+0100: used by [str.strip] and by [\s]. *)
Definition is_space (c : ascii) : bool :=
  in_range 9 13 c || in_range 28 32 c
  || N.eqb (code c) 133 || N.eqb (code c) 160.

(** [\w] on [str] patterns: [Py_UNICODE_ISALNUM] or underscore, below
    U+0100. *)
Definition is_word (c : ascii) : bool :=
  in_range 48 57 c || in_range 65 90 c || in_range 97 122 c
  || N.eqb (code c) 95
  || N.eqb (code c) 170 || in_range 178 179 c || N.eqb (code c) 181
  || in_range 185 186 c || in_range 188 190 c
  || in_range 192 214 c || in_range 216 246 c || in_range 248 255 c.

Definition is_char (a c : ascii) : bool := Ascii.eqb a c.
Definition not_char (a c : ascii) : bool := negb (Ascii.eqb a c).

Fixpoint lstrip (s : str) : str :=
  match s with
  | c :: s' => if is_space c then lstrip s' else s
  | [] => []
  end.

Definition rstrip (s : str) : str := rev (lstrip (rev s)).

(** [s.strip()] *)
Definition strip (s : str) : str := rstrip (lstrip s).

(** Truth value of a [str]: non-empty. *)
Definition nonempty (s : str) : bool :=
  match s with [] => false | _ :: _ => true end.

(** [c in s] for a one-character [c]. *)
Definition has_char (a : ascii) (s : str) : bool := existsb (Ascii.eqb a) s.

Fixpoint starts_with (p s : str) : bool :=
  match p, s with
  | [], _ => true
  | a :: p', c :: s' => Ascii.eqb a c && starts_with p' s'
  | _ :: _, [] => false
  end.

(** [w in s] *)
Fixpoint contains (w s : str) : bool :=
  starts_with w s || match s with [] => false | _ :: s' => contains w s' end.

(** [s.replace(old, new)] for a non-empty [old]: leftmost occurrences,
    not overlapping.  [skip] counts the characters of an occurrence that
    are still to be passed over. *)
Fixpoint replace_from (old new : str) (skip : nat) (s : str) : str :=
  match s with
  | [] => []
  | c :: s' =>
      match skip with
      | S n => replace_from old new n s'
      | 0 => if starts_with old s
             then new ++ replace_from old new (length old - 1) s'
             else c :: replace_from old new 0 s'
      end
  end.

Definition replace (old new s : str) : str := replace_from old new 0 s.

(** [", ".join(xs)] *)
Fixpoint join (sep : str) (xs : list str) : str :=
  match xs with
  | [] => []
  | [x] => x
  | x :: xs' => x ++ sep ++ join sep xs'
  end.

(** [f"{n}"] for a non-negative [int]. *)
Definition dec (n : nat) : str :=
  lit (DecimalString.NilEmpty.string_of_uint (Nat.to_uint n)).

End Text.

Import Text.

(* ------------------------------------------------------------------ *)
(** ** The regular expressions of Python's [re] that the program uses *)

Module Re.

Inductive regex : Type :=
| Eps                                   (* the empty pattern *)
| Chr (p : ascii -> bool)               (* one character of a class *)
| Seq (a b : regex)
| Alt (a b : regex)                     (* a|b, left first *)
| Star (greedy : bool) (a : regex)      (* a* and a*? *)
| Group (n : nat) (a : regex)           (* the n-th capture group *)
| Backref (n : nat)                     (* \n *)
| Bol                                   (* ^ under re.MULTILINE *)
| Sos                                   (* ^ without flags *)
| Eos.                                  (* $ without flags *)

Definition Plus (a : regex) : regex := Seq a (Star true a).
Definition Opt (a : regex) : regex := Alt a Eps.

Fixpoint Cat (rs : list regex) : regex :=
  match rs with
  | [] => Eps
  | [r] => r
  | r :: rs' => Seq r (Cat rs')
  end.

Definition Lit (s : String.string) : regex :=
  Cat (map (fun c => Chr (is_char c)) (lit s)).
Arguments Lit s%_string.

Definition space := Chr is_space.
Definition word := Chr is_word.
Definition any := Chr (fun _ => true).                    (* [\s\S] *)
Definition ch (a : ascii) := Chr (is_char a).
Definition nch (a : ascii) := Chr (not_char a).           (* [^a] *)
Arguments ch a%_char.
Arguments nch a%_char.

(** The state of one match attempt: the character before the cursor (for
    [^]), the text from the cursor on, and the groups captured so far
    (indexed by group number; [None] is a group that did not take part). *)
Record mstate := MState {
  ms_prev : option ascii;
  ms_rest : str;
  ms_caps : list (option str)
}.

Fixpoint set_cap (n : nat) (v : str) (l : list (option str)) : list (option str) :=
  match n, l with
  | 0, [] => [Some v]
  | 0, _ :: t => Some v :: t
  | S n', [] => None :: set_cap n' v []
  | S n', x :: t => x :: set_cap n' v t
  end.

Definition get_cap (n : nat) (l : list (option str)) : option str := nth n l None.

(** The text consumed between two states of one attempt. *)
Definition consumed (st st' : mstate) : str :=
  firstn (length (ms_rest st) - length (ms_rest st')) (ms_rest st).

Definition last_char (prev : option ascii) (w : str) : option ascii :=
  match rev w with c :: _ => Some c | [] => prev end.

Definition cont := mstate -> option mstate.

(** Repetition.  [n] bounds the number of iterations: it starts above the
    length of the remaining text and every iteration must consume a
    character, so it never runs out (see [rmatch_star]).  An iteration that
    consumes nothing is not repeated; every repeated pattern of the program
    consumes a character. *)
Fixpoint star_loop (body : mstate -> cont -> option mstate) (greedy : bool)
    (k : cont) (n : nat) (st : mstate) {struct n} : option mstate :=
  match n with
  | 0 => k st
  | S n' =>
      let again st' :=
        if length (ms_rest st') <? length (ms_rest st)
        then star_loop body greedy k n' st' else None in
      if greedy
      then match body st again with Some r => Some r | None => k st end
      else match k st with Some r => Some r | None => body st again end
  end.

(** The backtracking matcher, in continuation-passing style: [k] is the
    rest of the pattern; [None] makes the matcher try its next choice. *)
Fixpoint rmatch (r : regex) (st : mstate) (k : cont) {struct r} : option mstate :=
  match r with
  | Eps => k st
  | Chr p =>
      match ms_rest st with
      | c :: s' => if p c then k (MState (Some c) s' (ms_caps st)) else None
      | [] => None
      end
  | Seq a b => rmatch a st (fun st' => rmatch b st' k)
  | Alt a b =>
      match rmatch a st k with Some x => Some x | None => rmatch b st k end
  | Star g a => star_loop (rmatch a) g k (S (length (ms_rest st))) st
  | Group n a =>
      rmatch a st (fun st' =>
        k (MState (ms_prev st') (ms_rest st') (set_cap n (consumed st st') (ms_caps st'))))
  | Backref n =>
      match get_cap n (ms_caps st) with
      | Some w =>
          if starts_with w (ms_rest st)
          then k (MState (last_char (ms_prev st) w) (skipn (length w) (ms_rest st)) (ms_caps st))
          else None
      | None => None
      end
  | Bol =>
      match ms_prev st with
      | None => k st
      | Some c => if is_char "010"%char c then k st else None
      end
  | Sos => match ms_prev st with None => k st | Some _ => None end
  | Eos =>
      match ms_rest st with
      | [] => k st
      | [c] => if is_char "010"%char c then k st else None
      | _ => None
      end
  end.

(** A Python match object: group 0 and the numbered groups. *)
Record rmatch_obj := Match {
  m_text : str;
  m_caps : list (option str)
}.

(** [m.group(n)]: a [str], or [None] for a group that did not take part. *)
Definition group (m : rmatch_obj) (n : nat) : option str :=
  match n with
  | 0 => Some (m_text m)
  | _ => get_cap n (m_caps m)
  end.

(** One attempt at the cursor. *)
Definition match_at (r : regex) (prev : option ascii) (s : str) : option rmatch_obj :=
  match rmatch r (MState prev s []) Some with
  | Some st' => Some (Match (firstn (length s - length (ms_rest st')) s) (ms_caps st'))
  | None => None
  end.

(** [re.match(r, s)] *)
Definition re_match (r : regex) (s : str) : option rmatch_obj := match_at r None s.

(** The scan shared by [re.sub], [re.finditer] and [re.search]: the text cut
    into the matches found left to right and the characters between them. *)
Inductive piece : Type :=
| Keep (c : ascii)
| Hit (m : rmatch_obj).

Fixpoint pieces (r : regex) (prev : option ascii) (s : str) (skip : nat) : list piece :=
  match skip with
  | S n =>
      match s with
      | [] => []
      | c :: s' => pieces r (Some c) s' n
      end
  | 0 =>
      match match_at r prev s with
      | Some m =>
          Hit m ::
          match s with
          | [] => []
          | c :: s' =>
              match length (m_text m) with
              | 0 => Keep c :: pieces r (Some c) s' 0
              | S n => pieces r (Some c) s' n
              end
          end
      | None =>
          match s with
          | [] => []
          | c :: s' => Keep c :: pieces r (Some c) s' 0
          end
      end
  end.

Fixpoint hits (ps : list piece) : list rmatch_obj :=
  match ps with
  | [] => []
  | Keep _ :: ps' => hits ps'
  | Hit m :: ps' => m :: hits ps'
  end.

(** [re.finditer(r, s)] *)
Definition re_finditer (r : regex) (s : str) : list rmatch_obj := hits (pieces r None s 0).

(** [re.search(r, s)] *)
Definition re_search (r : regex) (s : str) : option rmatch_obj := hd_error (re_finditer r s).

End Re.

Import Re.

(* ------------------------------------------------------------------ *)
(** ** Python values that may be [None], and the exceptions they raise *)

Module Py.

Inductive exn : Type := TypeError | AttributeError.

Inductive res (A : Type) : Type :=
| Ok (a : A)
| Raise (e : exn).
Arguments Ok {A} a.
Arguments Raise {A} e.

Definition bind {A B : Type} (c : res A) (k : A -> res B) : res B :=
  match c with
  | Ok a => k a
  | Raise e => Raise e
  end.

(** [f"{x}"] *)
Definition fmt (o : option str) : str :=
  match o with Some s => s | None => lit "None" end.

(** [x.strip()] *)
Definition strip_of (o : option str) : res str :=
  match o with Some s => Ok (strip s) | None => Raise AttributeError end.

(** [x + s] *)
Definition add_of (o : option str) (s : str) : res str :=
  match o with Some a => Ok (a ++ s) | None => Raise TypeError end.

(** [c in x] *)
Definition has_char_of (a : ascii) (o : option str) : res bool :=
  match o with Some s => Ok (has_char a s) | None => Raise TypeError end.

(** [x == s] *)
Definition eq_of (o : option str) (s : str) : bool :=
  match o with
  | Some a => if list_eq_dec ascii_dec a s then true else false
  | None => false
  end.

(** The truth value of [x]: neither [None] nor empty. *)
Definition truthy (o : option str) : bool :=
  match o with Some s => nonempty s | None => false end.

End Py.

Import Py.

Notation "x <- c ;; k" := (bind c (fun x => k))
  (at level 61, c at next level, right associativity).
Notation "' p <- c ;; k" := (bind c (fun x => let 'p := x in k))
  (at level 61, p pattern, c at next level, right associativity).

(** [re.sub(r, repl, s)] with a function [repl]: [repl] is called on the
    matches from left to right; [st] is the state it mutates (the list the
    closure appends to), and an exception it raises ends the substitution. *)
Fixpoint sub_pieces {St : Type} (repl : St -> rmatch_obj -> res (St * str))
    (st : St) (ps : list piece) : res (St * str) :=
  match ps with
  | [] => Ok (st, [])
  | Keep c :: ps' =>
      '(st', out) <- sub_pieces repl st ps' ;;
      Ok (st', c :: out)
  | Hit m :: ps' =>
      '(st1, new) <- repl st m ;;
      '(st2, out) <- sub_pieces repl st1 ps' ;;
      Ok (st2, new ++ out)
  end.

Definition re_sub {St : Type} (r : regex) (repl : St -> rmatch_obj -> res (St * str))
    (st : St) (s : str) : res (St * str) :=
  sub_pieces repl st (pieces r None s 0).

Fixpoint map_res {A B : Type} (f : A -> res B) (l : list A) : res (list B) :=
  match l with
  | [] => Ok []
  | a :: l' => b <- f a ;; bs <- map_res f l' ;; Ok (b :: bs)
  end.

(* ------------------------------------------------------------------ *)
(** ** convert_jsx.py *)

Module ConvertJsx.

Definition nl : ascii := "010"%char.
Definition dq : ascii := "034"%char.
Definition sq : ascii := "'"%char.

Definition not_brace (c : ascii) : bool :=
  negb (is_char "{" c || is_char "}" c).

(** [\{[^{}]*\}] *)
Definition protect_re : regex :=
  Cat [ch "{"; Star true (Chr not_brace); ch "}"].

(** The block pattern, with [re.MULTILINE] (tokens spaced out here):
    [^ ( \s* ) return \s+ \( \s* \n? \s* ( < [\s\S]*? > [\s\S]*? <\/ [^>]+ > ) \s* \);] *)
Definition return_block_re : regex :=
  Cat [Bol; Group 1 (Star true space); Lit "return"; Plus space; ch "(";
       Star true space; Opt (Chr (is_char nl)); Star true space;
       Group 2 (Cat [ch "<"; Star false any; ch ">"; Star false any;
                     Lit "</"; Plus (nch ">"); ch ">"]);
       Star true space; Lit ");"].

(** The inline pattern, with [re.MULTILINE]:
    [^ ( \s* ) return \s+ ( < [^;]+ > ) ;] *)
Definition return_inline_re : regex :=
  Cat [Bol; Group 1 (Star true space); Lit "return"; Plus space;
       Group 2 (Cat [ch "<"; Plus (nch ";"); ch ">"]); ch ";"].

(** [^ < ( \w+ ) ( [^>]*? ) \/> \s* $] *)
Definition self_closing_re : regex :=
  Cat [Sos; ch "<"; Group 1 (Plus word); Group 2 (Star false (nch ">"));
       Lit "/>"; Star true space; Eos].

(** [^ < ( \w+ ) ( [^>]*? ) > ( [\s\S]* ) <\/ \1 > \s* $] *)
Definition element_re : regex :=
  Cat [Sos; ch "<"; Group 1 (Plus word); Group 2 (Star false (nch ">"));
       ch ">"; Group 3 (Star true any); Lit "</"; Backref 1; ch ">";
       Star true space; Eos].

(** The attribute pattern (DQ is the double quote, SQ the single quote):
    [( \w+ (?: - \w+ )* ) (?: = (?: \{ ( [^}]* ) \} | DQ ( [^DQ]* ) DQ | SQ ( [^SQ]* ) SQ ) )?],
    its name part [\w+ (?: - \w+ )*] and its value part, from [=] on. *)
Definition attr_name_re : regex :=
  Seq (Plus word) (Star true (Seq (ch "-") (Plus word))).

Definition attr_value_re : regex :=
  Seq (ch "=")
    (Alt (Cat [ch "{"; Group 2 (Star true (nch "}")); ch "}"])
    (Alt (Cat [Chr (is_char dq); Group 3 (Star true (Chr (not_char dq)));
               Chr (is_char dq)])
         (Cat [Chr (is_char sq); Group 4 (Star true (Chr (not_char sq)));
               Chr (is_char sq)]))).

Definition attr_pattern : regex :=
  Cat [Group 1 attr_name_re; Opt attr_value_re].

(** [convert_children(children_str, indent)] *)
Definition convert_children (children_str indent : str) : str :=
  if negb (has_char "<" children_str)
  then [sq] ++ strip children_str ++ [sq]
  else [sq] ++ children_str ++ [sq].

(** The body of the loop of [parse_attributes], for one match. *)
Definition attr_value (m : rmatch_obj) : str :=
  if truthy (group m 2) then fmt (group m 2)
  else if truthy (group m 3) then [sq] ++ fmt (group m 3) ++ [sq]
  else if truthy (group m 4) then [sq] ++ fmt (group m 4) ++ [sq]
  else lit "true".

Definition attr_name (m : rmatch_obj) : res str :=
  let name := group m 1 in
  if eq_of name (lit "class") then Ok (lit "className")
  else if eq_of name (lit "for") then Ok (lit "htmlFor")
  else
    hyphen <- has_char_of "-" name ;;
    if (hyphen : bool) then Ok ([sq] ++ fmt name ++ [sq]) else Ok (fmt name).

Definition attr_entry (m : rmatch_obj) : res str :=
  let value := attr_value m in
  name <- attr_name m ;;
  Ok (name ++ lit ": " ++ value).

(** [parse_attributes(attrs_str)] *)
Definition parse_attributes (attrs_str : str) : res str :=
  if negb (nonempty (strip attrs_str)) then Ok (lit "null")
  else
    attrs <- map_res attr_entry (re_finditer attr_pattern attrs_str) ;;
    match attrs with
    | _ :: _ => Ok (lit "{ " ++ join (lit ", ") attrs ++ lit " }")
    | [] => Ok (lit "null")
    end.

(** [parse_attributes(x)] where [x] is a group of a match. *)
Definition parse_attributes_of (o : option str) : res str :=
  match o with
  | Some s => parse_attributes s
  | None => Raise AttributeError
  end.

Definition call2 (tag : option str) (props : str) : str :=
  lit "React.createElement('" ++ fmt tag ++ lit "', " ++ props ++ lit ")".

Definition call3 (indent : str) (tag : option str) (props children_elements : str) : str :=
  lit "React.createElement(" ++ [nl] ++ indent ++ lit "  '" ++ fmt tag ++ lit "'," ++ [nl]
  ++ indent ++ lit "  " ++ props ++ lit "," ++ [nl]
  ++ indent ++ lit "  " ++ children_elements ++ [nl]
  ++ indent ++ lit ")".

(** [convert_jsx_element(jsx, indent)] *)
Definition convert_jsx_element (jsx indent : str) : res str :=
  match re_match self_closing_re (strip jsx) with
  | Some m =>
      let tag := group m 1 in
      let attrs := group m 2 in
      props <- parse_attributes_of attrs ;;
      Ok (call2 tag props)
  | None =>
      match re_match element_re (strip jsx) with
      | Some m =>
          let tag := group m 1 in
          let attrs := group m 2 in
          let children := group m 3 in
          props <- parse_attributes_of attrs ;;
          stripped <- strip_of children ;;
          if nonempty stripped then
            let children_elements := convert_children stripped (indent ++ lit "  ") in
            if nonempty children_elements
            then Ok (call3 indent tag props children_elements)
            else Ok (call2 tag props)
          else Ok (call2 tag props)
      | None => Ok jsx
      end
  end.

(** [f"__PROTECTED_{idx}__"] *)
Definition placeholder (idx : nat) : str :=
  lit "__PROTECTED_" ++ dec idx ++ lit "__".

(** The closure [protect_expression]; its state is the list
    [protected_expressions]. *)
Definition protect_expression (protected_expressions : list str) (m : rmatch_obj)
    : res (list str * str) :=
  let idx := length protected_expressions in
  Ok (protected_expressions ++ [m_text m], placeholder idx).

(** The closure [convert_return_jsx]. *)
Definition convert_return_jsx (_ : unit) (m : rmatch_obj) : res (unit * str) :=
  let indent := group m 1 in
  let jsx_content := group m 2 in
  jsx <- strip_of jsx_content ;;
  deeper <- add_of indent (lit "  ") ;;
  converted <- convert_jsx_element jsx deeper ;;
  Ok (tt, fmt indent ++ lit "return " ++ converted ++ lit ";").

(** The [lambda] of the inline pass. *)
Definition convert_inline_return (_ : unit) (m : rmatch_obj) : res (unit * str) :=
  jsx <- strip_of (group m 2) ;;
  deeper <- add_of (group m 1) (lit "  ") ;;
  converted <- convert_jsx_element jsx deeper ;;
  Ok (tt, fmt (group m 1) ++ lit "return " ++ converted ++ lit ";").

(** [for idx, expr in enumerate(protected_expressions):
       content = content.replace(f"__PROTECTED_{idx}__", expr)],
    from index [idx] on. *)
Fixpoint restore (idx : nat) (protected_expressions : list str) (content : str) : str :=
  match protected_expressions with
  | [] => content
  | expr :: rest => restore (S idx) rest (replace (placeholder idx) expr content)
  end.

(** The first pass of [convert_jsx_to_createElement]. *)
Definition protect (content : str) : res (list str * str) :=
  re_sub protect_re protect_expression [] content.

(** [convert_jsx_to_createElement(content)] *)
Definition convert_jsx_to_createElement (content : str) : res str :=
  '(protected_expressions, content1) <- protect content ;;
  '(_, content2) <- re_sub return_block_re convert_return_jsx tt content1 ;;
  '(_, content3) <- re_sub return_inline_re convert_inline_return tt content2 ;;
  Ok (restore 0 protected_expressions content3).

(** Protection followed at once by restoration. *)
Definition protect_then_restore (content : str) : res str :=
  '(protected_expressions, content1) <- protect content ;;
  Ok (restore 0 protected_expressions content1).

End ConvertJsx.

Import ConvertJsx.

(* ------------------------------------------------------------------ *)
(** ** Definitions used to state the properties *)

(** The groups a pattern sets on every successful path. *)
Fixpoint definite (r : regex) : list nat :=
  match r with
  | Seq a b => definite a ++ definite b
  | Group n a => n :: definite a
  | _ => []
  end.

(** Whether every match of a pattern consumes at least one character. *)
Fixpoint consumes (r : regex) : bool :=
  match r with
  | Chr _ => true
  | Seq a b => consumes a || consumes b
  | Alt a b => consumes a && consumes b
  | Group _ a => consumes a
  | _ => false
  end.

(** Whether every repeated pattern inside a pattern consumes a character
    at each iteration. *)
Fixpoint stars_consume (r : regex) : bool :=
  match r with
  | Star _ a => consumes a && stars_consume a
  | Seq a b | Alt a b => stars_consume a && stars_consume b
  | Group _ a => stars_consume a
  | _ => true
  end.

Definition caps_le (l l' : list (option str)) : Prop :=
  forall n, get_cap n l <> None -> get_cap n l' <> None.

(** How the state [st'] handed to the rest of the pattern relates to the
    state [st] a pattern started from: groups stay set, the groups of [def]
    are set, the cursor has not moved back, and it has moved when
    [strict]. *)
Definition step_ok (def : list nat) (strict : bool) (st st' : mstate) : Prop :=
  caps_le (ms_caps st) (ms_caps st')
  /\ (forall n, In n def -> get_cap n (ms_caps st') <> None)
  /\ length (ms_rest st') <= length (ms_rest st)
  /\ (strict = true -> length (ms_rest st') < length (ms_rest st)).

(** The text a scan was cut from, the same text with the matches replaced
    by placeholders numbered from [idx], and the matched texts. *)
Fixpoint orig (ps : list piece) : str :=
  match ps with
  | [] => []
  | Keep c :: ps' => c :: orig ps'
  | Hit m :: ps' => m_text m ++ orig ps'
  end.

Fixpoint prot (idx : nat) (ps : list piece) : str :=
  match ps with
  | [] => []
  | Keep c :: ps' => c :: prot idx ps'
  | Hit m :: ps' => placeholder idx ++ prot (S idx) ps'
  end.

Definition texts (ps : list piece) : list str := map m_text (hits ps).

Definition is_digit (c : ascii) : bool := in_range 48 57 c.

(** An attribute name as the attribute pattern reads it: a run of word
    characters, then runs of word characters each after a hyphen. *)
Definition is_words (w : str) : bool := nonempty w && forallb is_word w.

Definition hyphenated (segs : list str) : str :=
  concat (map (fun seg => "-"%char :: seg) segs).

Definition attr_name_text (w : str) (segs : list str) : str := w ++ hyphenated segs.

(** The key the specification gives an attribute name: [class] and [for]
    are renamed, a name with a hyphen is quoted, any other name is kept. *)
Definition emitted_key (name : str) : str :=
  if list_eq_dec ascii_dec name (lit "class") then lit "className"
  else if list_eq_dec ascii_dec name (lit "for") then lit "htmlFor"
  else if has_char "-" name then [sq] ++ name ++ [sq]
  else name.

(** A match attempt that succeeds with a result satisfying [Q]. *)
Definition succeeds (Q : mstate -> Prop) (o : option mstate) : Prop :=
  exists res, o = Some res /\ Q res.

(** Text at which a run of the class [p] must stop. *)
Definition stops (p : ascii -> bool) (tail : str) : bool :=
  match tail with
  | [] => true
  | c :: _ => negb (p c)
  end.

(** The text of a span: [w] between braces. *)
Definition span_text (w : str) : str := "{"%char :: w ++ ["}"%char].

(** A buffer made of spans with text before each, and text after the last:
    the buffer itself, and the buffer with the spans replaced by the
    placeholders numbered from [idx]. *)
Fixpoint spans_buffer (l : list (str * str)) (post : str) : str :=
  match l with
  | [] => post
  | (pre, w) :: l' => pre ++ span_text w ++ spans_buffer l' post
  end.

Fixpoint spans_protected (idx : nat) (l : list (str * str)) (post : str) : str :=
  match l with
  | [] => post
  | (pre, w) :: l' => pre ++ placeholder idx ++ spans_protected (S idx) l' post
  end.

Definition brace_free (s : str) : bool := forallb not_brace s.

(** The loop of [parse_attributes]: the entries of the attributes found. *)
Definition attr_entries (attrs_str : str) : res (list str) :=
  map_res attr_entry (re_finditer attr_pattern attrs_str).

(** The two return patterns after their common start [^ ( \s* )]. *)
Definition return_block_tail : regex :=
  Cat [Lit "return"; Plus space; ch "(";
       Star true space; Opt (Chr (is_char nl)); Star true space;
       Group 2 (Cat [ch "<"; Star false any; ch ">"; Star false any;
                     Lit "</"; Plus (nch ">"); ch ">"]);
       Star true space; Lit ");"].

Definition return_inline_tail : regex :=
  Cat [Lit "return"; Plus space;
       Group 2 (Cat [ch "<"; Plus (nch ";"); ch ">"]); ch ";"].

(** An inline return of a self-closing element without attributes. *)
Definition inline_statement (tag : str) : str :=
  lit "return <" ++ tag ++ lit "/>;".







(** The written form of the value of an attribute. *)
Inductive attr_source :=
| NoValue
| Braced (text : str)
| DoubleQuoted (text : str)
| SingleQuoted (text : str).

(** A written attribute: its name, a run of word characters followed by
    hyphenated runs, and its value. *)
Record attribute := Attribute {
  at_word : str;
  at_segs : list str;
  at_value : attr_source
}.

Definition at_name (a : attribute) : str := attr_name_text (at_word a) (at_segs a).

Definition value_text (v : attr_source) : str :=
  match v with
  | NoValue => []
  | Braced t => "="%char :: "{"%char :: t ++ ["}"%char]
  | DoubleQuoted t => "="%char :: dq :: t ++ [dq]
  | SingleQuoted t => "="%char :: sq :: t ++ [sq]
  end.

Definition attr_text (a : attribute) : str := at_name a ++ value_text (at_value a).

(** The text of a value does not hold the character that closes it. *)
Definition value_closed (v : attr_source) : bool :=
  match v with
  | NoValue => true
  | Braced t => forallb (not_char "}") t
  | DoubleQuoted t => forallb (not_char "034") t
  | SingleQuoted t => forallb (not_char "'") t
  end.

Definition well_formed (a : attribute) : bool :=
  is_words (at_word a) && forallb is_words (at_segs a) && value_closed (at_value a).

(** No value, or a value whose text is empty. *)
Definition empty_value (v : attr_source) : bool :=
  match v with
  | NoValue => true
  | Braced t | DoubleQuoted t | SingleQuoted t => negb (nonempty t)
  end.

(** The groups of the match of a written attribute. *)
Definition value_caps (name : str) (v : attr_source) : list (option str) :=
  match v with
  | NoValue => [None; Some name]
  | Braced t => set_cap 2 t (set_cap 1 name [])
  | DoubleQuoted t => set_cap 3 t (set_cap 1 name [])
  | SingleQuoted t => set_cap 4 t (set_cap 1 name [])
  end.

(** The value and the entry emitted for a written attribute. *)
Definition emitted_value (v : attr_source) : str :=
  match v with
  | NoValue => lit "true"
  | Braced t => if nonempty t then t else lit "true"
  | DoubleQuoted t | SingleQuoted t =>
      if nonempty t then sq :: t ++ [sq] else lit "true"
  end.

Definition emitted_entry (a : attribute) : str :=
  emitted_key (at_name a) ++ lit ": " ++ emitted_value (at_value a).

(** An attribute list: attributes, each followed by a run of whitespace
    that is empty only after the last one. *)
Fixpoint attr_list_text (l : list (attribute * str)) : str :=
  match l with
  | [] => []
  | (a, gap) :: l' => attr_text a ++ gap ++ attr_list_text l'
  end.

Fixpoint well_spaced (l : list (attribute * str)) : bool :=
  match l with
  | [] => true
  | (a, gap) :: l' =>
      well_formed a && forallb is_space gap
      && (nonempty gap || match l' with [] => true | _ :: _ => false end)
      && well_spaced l'
  end.

(* ------------------------------------------------------------------ *)
(** ** The matcher *)

Section Matcher.

Lemma get_set_cap_same n v l : get_cap n (set_cap n v l) = Some v.
Proof.
  unfold get_cap. revert l. induction n as [|n IH]; intros [|x l]; simpl; auto.
Qed.

Lemma get_set_cap_other n m v l : n <> m -> get_cap m (set_cap n v l) = get_cap m l.
Proof.
  unfold get_cap. revert m l.
  induction n as [|n IH]; intros [|m] [|x l] Hnm; simpl; try congruence.
  - destruct m; reflexivity.
  - rewrite IH by congruence. destruct m; reflexivity.
  - apply IH. congruence.
Qed.

Lemma caps_le_refl l : caps_le l l.
Proof. intros n H; exact H. Qed.

Lemma caps_le_trans l1 l2 l3 : caps_le l1 l2 -> caps_le l2 l3 -> caps_le l1 l3.
Proof. intros H1 H2 n H. auto. Qed.

Lemma caps_le_set n v l : caps_le l (set_cap n v l).
Proof.
  intros m H. destruct (Nat.eq_dec n m) as [->|Hnm].
  - rewrite get_set_cap_same. discriminate.
  - rewrite get_set_cap_other by assumption. exact H.
Qed.

Lemma step_ok_refl st : step_ok [] false st st.
Proof.
  repeat split; [apply caps_le_refl | intros ? [] | apply Nat.le_refl | discriminate].
Qed.

Lemma step_ok_trans d1 s1 d2 s2 st st1 st2 :
  step_ok d1 s1 st st1 -> step_ok d2 s2 st1 st2 ->
  step_ok (d1 ++ d2) (s1 || s2) st st2.
Proof.
  intros (Hc1 & Hd1 & Hl1 & Hs1) (Hc2 & Hd2 & Hl2 & Hs2). repeat split.
  - eapply caps_le_trans; eauto.
  - intros n Hn. apply in_app_or in Hn. destruct Hn; auto.
  - lia.
  - intros H. apply orb_prop in H. destruct H as [H|H]; [apply Hs1 in H | apply Hs2 in H]; lia.
Qed.

Lemma step_ok_weaken d s st st' :
  step_ok d s st st' -> step_ok [] false st st'.
Proof.
  intros (Hc & _ & Hl & _). repeat split; [exact Hc | intros ? [] | exact Hl | discriminate].
Qed.

(** The result of a match is always a result of its continuation. *)
Definition sound_body (body : mstate -> cont -> option mstate) : Prop :=
  forall st k res, body st k = Some res ->
    exists st', k st' = Some res /\ step_ok [] false st st'.

Lemma star_loop_sound body g k :
  sound_body body ->
  forall n st res, star_loop body g k n st = Some res ->
    exists st', k st' = Some res /\ step_ok [] false st st'.
Proof.
  intros Hb. induction n as [|n IH]; intros st res H; simpl in H.
  - exists st. split; [exact H | apply step_ok_refl].
  - assert (Hagain : forall r,
      body st (fun st' => if length (ms_rest st') <? length (ms_rest st)
                          then star_loop body g k n st' else None) = Some r ->
      exists st', k st' = Some r /\ step_ok [] false st st').
    { intros r Hr. apply Hb in Hr. destruct Hr as (st1 & H1 & Hok1).
      destruct (length (ms_rest st1) <? length (ms_rest st)); [|discriminate].
      apply IH in H1. destruct H1 as (st2 & H2 & Hok2).
      exists st2. split; [exact H2 | apply (step_ok_trans _ _ _ _ _ _ _ Hok1 Hok2)]. }
    destruct g.
    + destruct (body st _) as [r|] eqn:E.
      * inversion H; subst. apply Hagain. reflexivity.
      * exists st. split; [exact H | apply step_ok_refl].
    + destruct (k st) as [r|] eqn:E.
      * inversion H; subst. exists st. split; [exact E | apply step_ok_refl].
      * apply Hagain. exact H.
Qed.

Lemma rmatch_sound r :
  forall st k res, rmatch r st k = Some res ->
    exists st', k st' = Some res /\ step_ok (definite r) (consumes r) st st'.
Proof.
  induction r as [|p|a IHa b IHb|a IHa b IHb|g a IHa|n a IHa|n| | |];
    intros st k res H; cbn [rmatch] in H; cbn [definite consumes].
  - exists st. split; [exact H | apply step_ok_refl].
  - destruct (ms_rest st) as [|c s'] eqn:Es; [discriminate|].
    destruct (p c); [|discriminate].
    eexists. split; [exact H|].
    repeat split; cbn [ms_caps ms_rest];
      [apply caps_le_refl | intros ? [] | rewrite Es; simpl; lia | rewrite Es; simpl; lia].
  - apply IHa in H. destruct H as (st1 & H1 & Hok1).
    apply IHb in H1. destruct H1 as (st2 & H2 & Hok2).
    exists st2. split; [exact H2 | eapply step_ok_trans; eauto].
  - destruct (rmatch a st k) as [x|] eqn:E.
    + inversion H; subst. apply IHa in E. destruct E as (st1 & H1 & Hc & _ & Hl & Hs).
      exists st1. split; [exact H1|].
      repeat split; [exact Hc | intros ? [] | exact Hl |].
      intros Hb. apply andb_prop in Hb. tauto.
    + apply IHb in H. destruct H as (st1 & H1 & Hc & _ & Hl & Hs).
      exists st1. split; [exact H1|].
      repeat split; [exact Hc | intros ? [] | exact Hl |].
      intros Hb. apply andb_prop in Hb. tauto.
  - apply star_loop_sound in H; [exact H|].
    intros st0 k0 res0 H0. apply IHa in H0. destruct H0 as (st1 & H1 & Hok1).
    exists st1. split; [exact H1 | eapply step_ok_weaken; exact Hok1].
  - apply IHa in H. destruct H as (st1 & H1 & Hc & Hd & Hl & Hs).
    eexists. split; [exact H1|]. repeat split; cbn [ms_caps ms_rest].
    + eapply caps_le_trans; [exact Hc | apply caps_le_set].
    + intros m [<-|Hm].
      * rewrite get_set_cap_same. discriminate.
      * apply caps_le_set. auto.
    + exact Hl.
    + exact Hs.
  - destruct (get_cap n (ms_caps st)) as [w|]; [|discriminate].
    destruct (starts_with w (ms_rest st)); [|discriminate].
    eexists. split; [exact H|].
    repeat split; cbn [ms_caps ms_rest];
      [apply caps_le_refl | intros ? [] | rewrite length_skipn; lia | discriminate].
  - destruct (ms_prev st) as [c|].
    + destruct (is_char "010" c); [|discriminate].
      exists st. split; [exact H | apply step_ok_refl].
    + exists st. split; [exact H | apply step_ok_refl].
  - destruct (ms_prev st); [discriminate|].
    exists st. split; [exact H | apply step_ok_refl].
  - destruct (ms_rest st) as [|c [|c' s']] eqn:Es; try discriminate.
    + exists st. split; [exact H | apply step_ok_refl].
    + destruct (is_char "010" c); [|discriminate].
      exists st. split; [exact H | apply step_ok_refl].
Qed.

(** Every group that a pattern sets on all its paths took part in a match. *)
Lemma match_at_definite r prev s m n :
  match_at r prev s = Some m -> In n (definite r) -> n <> 0 ->
  exists v, group m n = Some v.
Proof.
  unfold match_at. intros H Hn Hn0.
  destruct (rmatch r _ Some) as [st'|] eqn:E; [|discriminate].
  inversion H; subst; clear H.
  apply rmatch_sound in E. destruct E as (st1 & H1 & _ & Hd & _).
  inversion H1; subst.
  destruct n as [|n]; [congruence|]. simpl.
  specialize (Hd _ Hn). destruct (get_cap (S n) (ms_caps st')) as [v|]; [eauto|congruence].
Qed.

(** A pattern that consumes a character on all its paths does not match
    the empty text. *)
Lemma match_at_nonempty r prev s m :
  consumes r = true -> match_at r prev s = Some m -> m_text m <> [].
Proof.
  unfold match_at. intros Hr H.
  destruct (rmatch r _ Some) as [st'|] eqn:E; [|discriminate].
  inversion H; subst; clear H.
  apply rmatch_sound in E. destruct E as (st1 & H1 & _ & _ & _ & Hs).
  inversion H1; subst. specialize (Hs Hr). cbn [ms_rest m_text] in *.
  intros Hnil. apply (f_equal (@length ascii)) in Hnil.
  rewrite length_firstn in Hnil. simpl in Hnil. lia.
Qed.

(** Matching does not depend on how the continuation is written. *)
Definition ext_body (body : mstate -> cont -> option mstate) : Prop :=
  forall st k1 k2, (forall x, k1 x = k2 x) -> body st k1 = body st k2.

Lemma star_loop_ext body g k1 k2 :
  ext_body body -> (forall x, k1 x = k2 x) ->
  forall n st, star_loop body g k1 n st = star_loop body g k2 n st.
Proof.
  intros Hb Hk. induction n as [|n IH]; intros st; simpl; [apply Hk|].
  rewrite (Hk st).
  rewrite (Hb st _ (fun st' => if length (ms_rest st') <? length (ms_rest st)
                               then star_loop body g k2 n st' else None)).
  - reflexivity.
  - intros x. destruct (_ <? _); [apply IH | reflexivity].
Qed.

Lemma rmatch_ext r : ext_body (rmatch r).
Proof.
  induction r as [|p|a IHa b IHb|a IHa b IHb|g a IHa|n a IHa|n| | |];
    intros st k1 k2 Hk; cbn [rmatch].
  - apply Hk.
  - destruct (ms_rest st); [reflexivity|]. destruct (p a); [apply Hk|reflexivity].
  - apply IHa. intros x. apply IHb. exact Hk.
  - rewrite (IHa st k1 k2 Hk), (IHb st k1 k2 Hk). reflexivity.
  - apply star_loop_ext; assumption.
  - apply IHa. intros x. apply Hk.
  - destruct (get_cap n (ms_caps st)); [|reflexivity].
    destruct (starts_with _ _); [apply Hk|reflexivity].
  - destruct (ms_prev st); [|apply Hk]. destruct (is_char _ _); [apply Hk|reflexivity].
  - destruct (ms_prev st); [reflexivity|apply Hk].
  - destruct (ms_rest st) as [|c [|c' s']]; [apply Hk| |reflexivity].
    destruct (is_char _ _); [apply Hk|reflexivity].
Qed.

(** The bound on iterations is never reached. *)
Lemma star_loop_fuel body g k :
  ext_body body ->
  forall n m st, length (ms_rest st) < n -> length (ms_rest st) < m ->
    star_loop body g k n st = star_loop body g k m st.
Proof.
  intros Hb. induction n as [|n IH]; intros m st Hn Hm; [lia|].
  destruct m as [|m]; [lia|]. simpl.
  rewrite (Hb st _ (fun st' => if length (ms_rest st') <? length (ms_rest st)
                               then star_loop body g k m st' else None)).
  - reflexivity.
  - intros x. destruct (length (ms_rest x) <? length (ms_rest st)) eqn:E; [|reflexivity].
    apply Nat.ltb_lt in E. apply IH; lia.
Qed.

(** The equation of repetition: one more iteration that consumes text and
    then the repetition again, or the rest of the pattern; greedy tries the
    iteration first, lazy the rest of the pattern. *)
Lemma rmatch_star g a st k :
  rmatch (Star g a) st k =
  let again st' :=
    if length (ms_rest st') <? length (ms_rest st)
    then rmatch (Star g a) st' k else None in
  if g
  then match rmatch a st again with Some r => Some r | None => k st end
  else match k st with Some r => Some r | None => rmatch a st again end.
Proof.
  cbv zeta. cbn [rmatch star_loop].
  rewrite (rmatch_ext a st _
    (fun st' => if length (ms_rest st') <? length (ms_rest st)
                then rmatch (Star g a) st' k else None)).
  - reflexivity.
  - intros x. destruct (length (ms_rest x) <? length (ms_rest st)) eqn:E; [|reflexivity].
    apply Nat.ltb_lt in E. cbn [rmatch].
    apply star_loop_fuel; [apply rmatch_ext | lia | lia].
Qed.

End Matcher.

(* ------------------------------------------------------------------ *)
(** ** The scan *)

Section Scan.

Variable r : regex.

Lemma match_at_text prev s m :
  match_at r prev s = Some m -> m_text m = firstn (length (m_text m)) s.
Proof.
  unfold match_at. destruct (rmatch r _ Some) as [st'|]; [|discriminate].
  intros H. inversion H; subst; clear H. cbn [m_text].
  rewrite length_firstn. f_equal. lia.
Qed.

(** The pieces of a scan are the scanned text. *)
Lemma orig_pieces s : forall prev skip, orig (pieces r prev s skip) = skipn skip s.
Proof.
  induction s as [|c s IH]; intros prev skip.
  - destruct skip as [|n]; simpl; [|reflexivity].
    destruct (match_at r prev []) as [m|] eqn:E; simpl; [|reflexivity].
    apply match_at_text in E. rewrite firstn_nil in E. rewrite E. reflexivity.
  - destruct skip as [|n]; cbn [pieces].
    + destruct (match_at r prev (c :: s)) as [m|] eqn:E.
      * apply match_at_text in E. cbn [orig].
        destruct (length (m_text m)) as [|n] eqn:L.
        -- cbn [orig]. rewrite IH. rewrite E. reflexivity.
        -- rewrite IH. rewrite E. cbn [firstn skipn app].
           f_equal. apply firstn_skipn.
      * cbn [orig]. rewrite IH. reflexivity.
    + rewrite IH. reflexivity.
Qed.

(** Every match a scan reports is the result of one attempt, at a suffix of
    the scanned text. *)
Lemma hits_pieces_at s : forall prev skip m,
  In m (hits (pieces r prev s skip)) ->
  exists a prev' s', s = a ++ s' /\ match_at r prev' s' = Some m.
Proof.
  induction s as [|c s IH]; intros prev skip m H.
  - destruct skip as [|n]; simpl in H; [|contradiction].
    destruct (match_at r prev []) as [m'|] eqn:E; simpl in H; [|contradiction].
    destruct H as [<-|[]]. exists [], prev, []. auto.
  - assert (Hrec : forall prev0 skip0,
              In m (hits (pieces r prev0 s skip0)) ->
              exists a prev' s', c :: s = a ++ s' /\ match_at r prev' s' = Some m).
    { intros prev0 skip0 H0. destruct (IH _ _ _ H0) as (a & prev' & s' & -> & Hm).
      exists (c :: a), prev', s'. auto. }
    destruct skip as [|n]; cbn [pieces] in H.
    + destruct (match_at r prev (c :: s)) as [m'|] eqn:E.
      * cbn [hits] in H. destruct H as [<-|H]; [exists [], prev, (c :: s); auto|].
        destruct (length (m_text m')); cbn [hits] in H; eapply Hrec; exact H.
      * cbn [hits] in H. eapply Hrec; exact H.
    + eapply Hrec; exact H.
Qed.

Lemma hits_pieces s prev skip m :
  In m (hits (pieces r prev s skip)) ->
  exists prev' s', match_at r prev' s' = Some m.
Proof.
  intros H. destruct (hits_pieces_at s prev skip m H) as (a & prev' & s' & _ & Hm). eauto.
Qed.

End Scan.

Section Substitution.

Context {St : Type}.
Variable repl : St -> rmatch_obj -> res (St * str).

(** A scan without a match leaves the text and the state as they are. *)
Lemma sub_pieces_no_hit st ps :
  hits ps = [] -> sub_pieces repl st ps = Ok (st, orig ps).
Proof.
  induction ps as [|[c|m] ps IH]; intros H; simpl in *.
  - reflexivity.
  - rewrite IH by assumption. reflexivity.
  - discriminate.
Qed.

(** A substitution raises only if its function does. *)
Lemma sub_pieces_total ps :
  (forall st m, In m (hits ps) -> exists y, repl st m = Ok y) ->
  forall st, exists y, sub_pieces repl st ps = Ok y.
Proof.
  induction ps as [|[c|m] ps IH]; intros H st; simpl.
  - eauto.
  - destruct (IH H st) as ([st' out] & ->). simpl. eauto.
  - destruct (H st m (or_introl eq_refl)) as ([st1 new] & ->). simpl.
    destruct (IH (fun st0 m0 Hm => H st0 m0 (or_intror Hm)) st1) as ([st2 out] & ->).
    simpl. eauto.
Qed.

End Substitution.

Lemma re_sub_no_match {St : Type} (repl : St -> rmatch_obj -> res (St * str)) r st s :
  re_search r s = None -> re_sub r repl st s = Ok (st, s).
Proof.
  unfold re_search, re_finditer, re_sub. intros H.
  rewrite sub_pieces_no_hit.
  - rewrite orig_pieces. reflexivity.
  - destruct (hits _); [reflexivity|discriminate].
Qed.

(* ------------------------------------------------------------------ *)
(** ** Text *)

Section TextLemmas.

Lemma starts_with_app p s : starts_with p (p ++ s) = true.
Proof.
  induction p as [|a p IH]; simpl; [reflexivity|].
  rewrite Ascii.eqb_refl. exact IH.
Qed.

Lemma starts_with_inv p s :
  starts_with p s = true -> exists t, s = p ++ t.
Proof.
  revert s. induction p as [|a p IH]; intros s H; simpl in H.
  - exists s. reflexivity.
  - destruct s as [|c s]; [discriminate|].
    apply andb_prop in H. destruct H as [Hc Hs].
    apply Ascii.eqb_eq in Hc. subst c.
    destruct (IH _ Hs) as [t ->]. exists t. reflexivity.
Qed.

Lemma starts_with_prefix p q s :
  starts_with (p ++ q) s = true -> starts_with p s = true.
Proof.
  revert s. induction p as [|a p IH]; intros s H; simpl in *; [reflexivity|].
  destruct s as [|c s]; [discriminate|].
  apply andb_prop in H. destruct H as [-> Hs]. simpl. eauto.
Qed.

Lemma contains_cons w c s : contains w (c :: s) = false -> contains w s = false.
Proof. simpl. intros H. apply orb_false_elim in H. tauto. Qed.

Lemma contains_head w s : contains w s = false -> starts_with w s = false.
Proof. destruct s; simpl; intros H; apply orb_false_elim in H; tauto. Qed.

Lemma contains_app_r w a s : contains w (a ++ s) = false -> contains w s = false.
Proof.
  induction a as [|c a IH]; simpl app; intros H; [exact H|].
  apply IH. eapply contains_cons. exact H.
Qed.

(** Passing over the rest of an occurrence. *)
Lemma replace_from_skip old new l s :
  replace_from old new (length l) (l ++ s) = replace_from old new 0 s.
Proof.
  induction l as [|c l IH]; simpl.
  - destruct s; reflexivity.
  - exact IH.
Qed.

Lemma replace_from_hit old new s :
  old <> [] -> replace_from old new 0 (old ++ s) = new ++ replace_from old new 0 s.
Proof.
  destruct old as [|a old]; [congruence|]. intros _.
  change ((a :: old) ++ s) with (a :: old ++ s).
  cbn [replace_from].
  change (a :: old ++ s) with ((a :: old) ++ s). rewrite starts_with_app.
  replace (length (a :: old) - 1) with (length old) by (simpl; lia).
  rewrite replace_from_skip. reflexivity.
Qed.

Lemma replace_from_miss old new c s :
  starts_with old (c :: s) = false ->
  replace_from old new 0 (c :: s) = c :: replace_from old new 0 s.
Proof. intros H. cbn [replace_from]. rewrite H. reflexivity. Qed.

Lemma replace_absent old new s :
  contains old s = false -> replace old new s = s.
Proof.
  unfold replace. induction s as [|c s IH]; intros H; [reflexivity|].
  rewrite replace_from_miss by (apply contains_head; exact H).
  rewrite IH by (eapply contains_cons; exact H). reflexivity.
Qed.

(** Replacing the one occurrence of [old] in a text. *)
Lemma replace_once old new x s :
  old <> [] ->
  (forall x1 c x2, x = x1 ++ c :: x2 -> starts_with old (c :: x2 ++ old ++ s) = false) ->
  contains old s = false ->
  replace old new (x ++ old ++ s) = x ++ new ++ s.
Proof.
  intros Hold Hx Hs. unfold replace.
  induction x as [|c x IH].
  - simpl app. rewrite replace_from_hit by assumption.
    f_equal. apply replace_absent. exact Hs.
  - simpl app. rewrite replace_from_miss by (apply (Hx [] c x); reflexivity).
    f_equal. apply IH. intros x1 c' x2 ->. apply (Hx (c :: x1) c' x2). reflexivity.
Qed.

End TextLemmas.

(* ------------------------------------------------------------------ *)
(** ** Placeholders *)

Section Placeholders.

Lemma digit_not_underscore c : is_digit c = true -> Ascii.eqb "_" c = false.
Proof.
  destruct c as [[] [] [] [] [] [] [] []]; vm_compute; intros H;
    first [reflexivity | discriminate H].
Qed.

Lemma uint_digits d :
  forallb is_digit (lit (DecimalString.NilEmpty.string_of_uint d)) = true.
Proof. induction d; simpl; auto. Qed.

Lemma dec_digits n : forallb is_digit (dec n) = true.
Proof. apply uint_digits. Qed.

Lemma dec_inj n m : dec n = dec m -> n = m.
Proof.
  unfold dec, lit. intros H.
  apply (f_equal String.string_of_list_ascii) in H.
  rewrite !String.string_of_list_ascii_of_string in H.
  apply (f_equal DecimalString.NilEmpty.uint_of_string) in H.
  rewrite !DecimalString.NilEmpty.usu in H.
  inversion H as [H'].
  apply (f_equal Nat.of_uint) in H'.
  rewrite !DecimalNat.Unsigned.of_to in H'. exact H'.
Qed.

(** Two runs of digits that end at an underscore and start alike are the
    same run. *)
Lemma digits_prefix d1 : forall d2 y z,
  forallb is_digit d1 = true -> forallb is_digit d2 = true ->
  starts_with (d1 ++ "_"%char :: y) (d2 ++ "_"%char :: z) = true -> d1 = d2.
Proof.
  induction d1 as [|a d1 IH]; intros [|c d2] y z H1 H2 H; cbn [app starts_with forallb] in *.
  - reflexivity.
  - apply andb_prop in H2. destruct H2 as [Hc _].
    apply digit_not_underscore in Hc. rewrite Hc in H. discriminate.
  - apply andb_prop in H1. destruct H1 as [Ha _].
    apply andb_prop in H. destruct H as [Hac _].
    apply Ascii.eqb_eq in Hac. subst a.
    apply digit_not_underscore in Ha. vm_compute in Ha. discriminate.
  - apply andb_prop in H1. destruct H1 as [_ H1].
    apply andb_prop in H2. destruct H2 as [_ H2].
    apply andb_prop in H. destruct H as [Hac H].
    apply Ascii.eqb_eq in Hac. subst c. f_equal. eapply IH; eauto.
Qed.

Lemma placeholder_nonempty k : placeholder k <> [].
Proof. unfold placeholder. discriminate. Qed.

(** A placeholder does not start where a placeholder with another number
    was written. *)
Lemma placeholder_distinct k j s :
  k <> j -> starts_with (placeholder k) (placeholder j ++ s) = false.
Proof.
  intros Hkj. destruct (starts_with _ _) eqn:E; [|reflexivity]. exfalso. apply Hkj.
  unfold placeholder in E. rewrite <- !app_assoc in E.
  cbn [lit String.list_ascii_of_string app starts_with] in E.
  rewrite !Ascii.eqb_refl in E. cbn [andb] in E.
  apply dec_inj. eapply digits_prefix; [apply dec_digits | apply dec_digits | exact E].
Qed.

Ltac keep_step H ps :=
  destruct ps as [|[?c|?m] ps];
  [ discriminate H
  | cbn [prot starts_with] in H;
    let Hk := fresh "Hkeep" in
    apply andb_prop in H; destruct H as [Hk H];
    apply Ascii.eqb_eq in Hk; subst
  | exfalso; cbn [prot] in H; unfold placeholder in H;
    rewrite <- ?app_assoc in H;
    cbn [lit String.list_ascii_of_string app starts_with] in H;
    discriminate H ].

(** In a protected text whose original does not contain PROTECTED_, the
    text of a placeholder starts only where a placeholder was written. *)
Lemma prot_starts_hit ps j k :
  starts_with (placeholder k) (prot j ps) = true ->
  contains (lit "PROTECTED_") (orig ps) = false ->
  exists m ps', ps = Hit m :: ps'.
Proof.
  intros H Hc.
  unfold placeholder in H.
  cbn [lit String.list_ascii_of_string app] in H.
  destruct ps as [|[c|m] ps]; [discriminate H | | eauto].
  exfalso.
  cbn [prot starts_with] in H.
  apply andb_prop in H. destruct H as [Hc1 H].
  apply Ascii.eqb_eq in Hc1. subst.
  do 10 keep_step H ps.
  destruct ps as [|[c|m] ps].
  - discriminate H.
  - cbn [prot starts_with] in H.
    apply andb_prop in H. destruct H as [Hc1 _].
    apply Ascii.eqb_eq in Hc1. subst.
    cbn [orig] in Hc. vm_compute in Hc. discriminate Hc.
  - cbn [prot] in H. unfold placeholder in H. rewrite <- !app_assoc in H.
    cbn [lit String.list_ascii_of_string app starts_with] in H.
    cbn [Ascii.eqb Bool.eqb andb] in H.
    pose proof (dec_digits k) as Hd.
    destruct (dec k) as [|d ds].
    + discriminate H.
    + cbn [app starts_with forallb] in H, Hd.
      apply andb_prop in Hd. destruct Hd as [Hd _].
      apply andb_prop in H. destruct H as [Heq _].
      apply Ascii.eqb_eq in Heq. subst d. discriminate Hd.
Qed.

Lemma placeholder_head k c s :
  Ascii.eqb "_" c = false -> starts_with (placeholder k) (c :: s) = false.
Proof.
  intros H. unfold placeholder.
  cbn [lit String.list_ascii_of_string app starts_with]. rewrite H. reflexivity.
Qed.

Lemma placeholder_head2 k c c' s :
  Ascii.eqb "_" c' = false -> starts_with (placeholder k) (c :: c' :: s) = false.
Proof.
  intros H. unfold placeholder.
  cbn [lit String.list_ascii_of_string app starts_with]. rewrite H.
  rewrite andb_false_r. reflexivity.
Qed.

Lemma placeholder_after_underscore k d s :
  forallb is_digit d = true ->
  starts_with (placeholder k) ("_"%char :: d ++ "_"%char :: "_"%char :: s) = false.
Proof.
  intros H. destruct d as [|c d].
  - reflexivity.
  - cbn [forallb] in H. apply andb_prop in H. destruct H as [Hc _].
    apply placeholder_head2. apply digit_not_underscore. exact Hc.
Qed.

Lemma contains_step w c s :
  contains w (c :: s) = (starts_with w (c :: s) || contains w s)%bool.
Proof. reflexivity. Qed.

Lemma contains_digits k d s :
  forallb is_digit d = true ->
  contains (placeholder k) (d ++ s) = contains (placeholder k) s.
Proof.
  induction d as [|c d IH]; intros H; [reflexivity|].
  cbn [forallb] in H. apply andb_prop in H. destruct H as [Hc Hd].
  cbn [app]. rewrite contains_step.
  rewrite placeholder_head by (apply digit_not_underscore; exact Hc).
  apply IH. exact Hd.
Qed.

Lemma prot_keeps l j ps : prot j (map Keep l ++ ps) = l ++ prot j ps.
Proof. induction l as [|c l IH]; simpl; [reflexivity|]. now rewrite IH. Qed.

Lemma orig_keeps l ps : orig (map Keep l ++ ps) = l ++ orig ps.
Proof. induction l as [|c l IH]; simpl; [reflexivity|]. now rewrite IH. Qed.

(** A placeholder is not found in text that does not start at a written
    placeholder. *)
Lemma placeholder_not_at_keep k j c l ps :
  contains (lit "PROTECTED_") (c :: l ++ orig ps) = false ->
  starts_with (placeholder k) (c :: l ++ prot j ps) = false.
Proof.
  intros Hc. destruct (starts_with _ _) eqn:E; [|reflexivity]. exfalso.
  assert (Hhit : exists m ps', map Keep (c :: l) ++ ps = Hit m :: ps').
  { apply (prot_starts_hit (map Keep (c :: l) ++ ps) j k).
    - rewrite prot_keeps. exact E.
    - rewrite orig_keeps. exact Hc. }
  destruct Hhit as (m & ps' & Heq). discriminate Heq.
Qed.

Ltac rewrite_flat t :=
  let E := fresh "E" in
  pose proof t as E; cbn [app] in E; rewrite E; clear E.

(** The placeholders written after number [k] do not contain placeholder
    [k]. *)
Lemma prot_no_placeholder k ps : forall j,
  k < j -> contains (lit "PROTECTED_") (orig ps) = false ->
  contains (placeholder k) (prot j ps) = false.
Proof.
  induction ps as [|[c|m] ps IH]; intros j Hkj Hc.
  - reflexivity.
  - cbn [prot orig] in *. rewrite contains_step.
    rewrite_flat (placeholder_not_at_keep k j c [] ps Hc).
    apply IH; [exact Hkj | eapply contains_cons; exact Hc].
  - cbn [prot orig] in *. apply contains_app_r in Hc.
    assert (Hrest : contains (placeholder k) (prot (S j) ps) = false)
      by (apply IH; [lia | exact Hc]).
    assert (Hd : starts_with (placeholder k) (placeholder j ++ prot (S j) ps) = false)
      by (apply placeholder_distinct; lia).
    unfold placeholder at 2 in Hd. unfold placeholder at 2.
    rewrite <- !app_assoc in Hd. rewrite <- !app_assoc.
    cbn [lit String.list_ascii_of_string app] in Hd.
    cbn [lit String.list_ascii_of_string app].
    rewrite contains_step, Hd. cbn [orb].
    rewrite contains_step, placeholder_head2 by reflexivity. cbn [orb].
    do 9 (rewrite contains_step, placeholder_head by reflexivity; cbn [orb]).
    rewrite contains_step, placeholder_after_underscore by apply dec_digits.
    cbn [orb].
    rewrite contains_digits by apply dec_digits.
    rewrite contains_step.
    rewrite_flat (placeholder_not_at_keep k (S j) "_"%char ["_"%char] ps Hc).
    rewrite contains_step.
    rewrite_flat (placeholder_not_at_keep k (S j) "_"%char [] ps Hc).
    exact Hrest.
Qed.

(** Restoring a protected text gives back the original, when the original
    does not contain PROTECTED_. *)
Lemma restore_prot ps : forall k x,
  contains (lit "PROTECTED_") (x ++ orig ps) = false ->
  restore k (texts ps) (x ++ prot k ps) = x ++ orig ps.
Proof.
  induction ps as [|[c|m] ps IH]; intros k x Hc.
  - reflexivity.
  - cbn [prot orig] in *. change (texts (Keep c :: ps)) with (texts ps).
    change (x ++ c :: prot k ps) with (x ++ [c] ++ prot k ps).
    change (x ++ c :: orig ps) with (x ++ [c] ++ orig ps) in *.
    rewrite !app_assoc in *. apply IH. exact Hc.
  - cbn [prot orig] in *.
    change (texts (Hit m :: ps)) with (m_text m :: texts ps).
    cbn [restore].
    rewrite replace_once.
    + rewrite !app_assoc in *. apply IH. exact Hc.
    + apply placeholder_nonempty.
    + intros x1 c x2 ->.
      rewrite <- app_assoc in Hc. apply contains_app_r in Hc.
      change ((c :: x2) ++ m_text m ++ orig ps) with (c :: x2 ++ orig (Hit m :: ps)) in Hc.
      apply (placeholder_not_at_keep k k c x2 (Hit m :: ps)). exact Hc.
    + apply prot_no_placeholder; [lia|].
      apply contains_app_r in Hc. apply contains_app_r in Hc. exact Hc.
Qed.

(** What the protection pass computes: the placeholders are numbered from
    the length of the table, and the table grows by the matched texts. *)
Lemma sub_pieces_protect ps : forall tbl,
  sub_pieces protect_expression tbl ps
  = Ok (tbl ++ texts ps, prot (length tbl) ps).
Proof.
  induction ps as [|[c|m] ps IH]; intros tbl.
  - simpl. unfold texts. simpl. rewrite app_nil_r. reflexivity.
  - cbn [sub_pieces]. rewrite IH. reflexivity.
  - cbn [sub_pieces]. unfold protect_expression at 1. cbn [bind].
    rewrite IH. cbn [bind]. rewrite <- app_assoc.
    rewrite length_app. cbn [length]. rewrite Nat.add_1_r. reflexivity.
Qed.

Lemma protect_spec content :
  protect content =
  Ok (texts (pieces protect_re None content 0),
      prot 0 (pieces protect_re None content 0)).
Proof. unfold protect, re_sub. apply (sub_pieces_protect _ []). Qed.

End Placeholders.

(* ------------------------------------------------------------------ *)
(** ** No function of the program raises *)

Section Totality.

(** The four patterns the program scans a text with consume a character on
    every path: no match of the program is empty, and the rules of
    [re.sub] and [re.finditer] for empty matches never apply. *)
Lemma scanned_patterns_consume :
  consumes protect_re = true /\ consumes return_block_re = true
  /\ consumes return_inline_re = true /\ consumes attr_pattern = true.
Proof. repeat split; reflexivity. Qed.

(** In the six patterns of the program every repeated pattern consumes a
    character at each iteration: the rule of [re] for iterations that
    consume nothing never applies. *)
Lemma repeated_patterns_consume :
  forallb stars_consume
    [protect_re; return_block_re; return_inline_re; self_closing_re; element_re;
     attr_pattern] = true.
Proof. reflexivity. Qed.

Lemma hits_nonempty r prev s skip m :
  consumes r = true -> In m (hits (pieces r prev s skip)) -> m_text m <> [].
Proof.
  intros Hr Hm. apply hits_pieces in Hm. destruct Hm as (prev' & s' & Hm).
  eapply match_at_nonempty; eauto.
Qed.

Lemma map_res_total {A B : Type} (f : A -> res B) l :
  (forall a, In a l -> exists b, f a = Ok b) -> exists bs, map_res f l = Ok bs.
Proof.
  induction l as [|a l IH]; intros H; simpl; [eauto|].
  destruct (H a (or_introl eq_refl)) as [b ->]. simpl.
  destruct (IH (fun a0 Ha => H a0 (or_intror Ha))) as [bs ->]. simpl. eauto.
Qed.

Lemma attr_name_total m v : group m 1 = Some v -> exists name, attr_name m = Ok name.
Proof.
  intros H. unfold attr_name. rewrite H.
  destruct (eq_of _ _); [eauto|]. destruct (eq_of _ _); [eauto|].
  simpl. destruct (has_char _ _); eauto.
Qed.

Lemma attr_entry_total prev s m :
  match_at attr_pattern prev s = Some m -> exists e, attr_entry m = Ok e.
Proof.
  intros H. destruct (match_at_definite attr_pattern prev s m 1 H) as [v Hv].
  - simpl. auto.
  - discriminate.
  - unfold attr_entry. destruct (attr_name_total m v Hv) as [name ->]. simpl. eauto.
Qed.

Lemma parse_attributes_total attrs_str : exists props, parse_attributes attrs_str = Ok props.
Proof.
  unfold parse_attributes. destruct (negb _); [eauto|].
  destruct (map_res_total attr_entry (re_finditer attr_pattern attrs_str)) as [bs ->].
  - intros m Hm. apply hits_pieces in Hm. destruct Hm as (prev & s & Hm).
    eapply attr_entry_total; eauto.
  - simpl. destruct bs; eauto.
Qed.

Lemma self_closing_groups s m :
  re_match self_closing_re s = Some m ->
  exists tag attrs, group m 1 = Some tag /\ group m 2 = Some attrs.
Proof.
  intros H.
  destruct (match_at_definite self_closing_re None s m 1 H) as [tag Ht];
    [simpl; auto | discriminate |].
  destruct (match_at_definite self_closing_re None s m 2 H) as [attrs Ha];
    [simpl; auto | discriminate |].
  eauto.
Qed.

Lemma element_groups s m :
  re_match element_re s = Some m ->
  exists tag attrs children,
    group m 1 = Some tag /\ group m 2 = Some attrs /\ group m 3 = Some children.
Proof.
  intros H.
  destruct (match_at_definite element_re None s m 1 H) as [tag Ht];
    [simpl; auto | discriminate |].
  destruct (match_at_definite element_re None s m 2 H) as [attrs Ha];
    [simpl; auto | discriminate |].
  destruct (match_at_definite element_re None s m 3 H) as [children Hc];
    [simpl; auto | discriminate |].
  eauto 6.
Qed.

Lemma return_groups r prev s m :
  r = return_block_re \/ r = return_inline_re ->
  match_at r prev s = Some m ->
  exists indent jsx, group m 1 = Some indent /\ group m 2 = Some jsx.
Proof.
  intros Hr H.
  destruct (match_at_definite r prev s m 1 H) as [indent Hi];
    [destruct Hr as [->| ->]; simpl; auto | discriminate |].
  destruct (match_at_definite r prev s m 2 H) as [jsx Hj];
    [destruct Hr as [->| ->]; simpl; auto | discriminate |].
  eauto.
Qed.

Lemma convert_jsx_element_total jsx indent :
  exists out, convert_jsx_element jsx indent = Ok out.
Proof.
  unfold convert_jsx_element.
  destruct (re_match self_closing_re (strip jsx)) as [m|] eqn:E1.
  - destruct (self_closing_groups _ _ E1) as (tag & attrs & Ht & Ha).
    rewrite Ht, Ha. simpl.
    destruct (parse_attributes_total attrs) as [props ->]. simpl. eauto.
  - destruct (re_match element_re (strip jsx)) as [m|] eqn:E2; [|eauto].
    destruct (element_groups _ _ E2) as (tag & attrs & children & Ht & Ha & Hc).
    rewrite Ht, Ha, Hc. simpl.
    destruct (parse_attributes_total attrs) as [props ->]. simpl.
    destruct (nonempty (strip children)); [|eauto].
    destruct (nonempty (convert_children _ _)); eauto.
Qed.

Lemma convert_return_jsx_total r prev s m u :
  r = return_block_re \/ r = return_inline_re ->
  match_at r prev s = Some m ->
  (exists y, convert_return_jsx u m = Ok y)
  /\ (exists y, convert_inline_return u m = Ok y).
Proof.
  intros Hr H. destruct (return_groups r prev s m Hr H) as (indent & jsx & Hi & Hj).
  unfold convert_return_jsx, convert_inline_return. rewrite Hi, Hj.
  cbn [strip_of add_of bind].
  destruct (convert_jsx_element_total (strip jsx) (indent ++ lit "  ")) as [out ->].
  cbn [bind]. eauto.
Qed.

Lemma convert_jsx_to_createElement_total content :
  exists out, convert_jsx_to_createElement content = Ok out.
Proof.
  unfold convert_jsx_to_createElement. rewrite protect_spec. cbn [bind].
  unfold re_sub.
  destruct (sub_pieces_total convert_return_jsx
              (pieces return_block_re None
                 (prot 0 (pieces protect_re None content 0)) 0)) with (st := tt)
    as ([u c2] & ->).
  { intros st m Hm. apply hits_pieces in Hm. destruct Hm as (prev & s & Hm).
    eapply convert_return_jsx_total; [left; reflexivity | exact Hm]. }
  cbn [bind].
  destruct (sub_pieces_total convert_inline_return
              (pieces return_inline_re None c2 0)) with (st := tt)
    as ([u' c3] & ->).
  { intros st m Hm. apply hits_pieces in Hm. destruct Hm as (prev & s & Hm).
    eapply convert_return_jsx_total; [right; reflexivity | exact Hm]. }
  cbn [bind]. eauto.
Qed.

End Totality.

(* ------------------------------------------------------------------ *)
(** ** Greedy runs *)

Section GreedyRuns.

Lemma succeeds_first o1 o2 Q :
  succeeds Q o1 -> succeeds Q (match o1 with Some r => Some r | None => o2 end).
Proof. intros (res & -> & H). exists res. auto. Qed.

(** A greedy run of a class over [w ++ tail] takes all of [w] when [tail]
    stops it and the rest of the pattern accepts [tail]. *)
Lemma star_class_max p Q tail caps k :
  stops p tail = true ->
  (forall pr, succeeds Q (k (MState pr tail caps))) ->
  forall w prev, forallb p w = true ->
    succeeds Q (rmatch (Star true (Chr p)) (MState prev (w ++ tail) caps) k).
Proof.
  intros Hstop Hk. induction w as [|c w IH]; intros prev Hw; rewrite rmatch_star; cbv zeta.
  - cbn [app rmatch ms_rest].
    destruct tail as [|c tail'].
    + apply Hk.
    + simpl in Hstop. apply negb_true_iff in Hstop. rewrite Hstop. apply Hk.
  - cbn [forallb] in Hw. apply andb_prop in Hw. destruct Hw as [Hc Hw].
    apply succeeds_first.
    cbn [app rmatch ms_rest ms_caps]. rewrite Hc.
    cbn [ms_rest].
    replace (length (w ++ tail) <? length (c :: w ++ tail)) with true
      by (symmetry; apply Nat.ltb_lt; simpl; lia).
    apply IH. exact Hw.
Qed.

Lemma plus_class_max p Q tail caps k :
  stops p tail = true ->
  (forall pr, succeeds Q (k (MState pr tail caps))) ->
  forall w prev, nonempty w = true -> forallb p w = true ->
    succeeds Q (rmatch (Plus (Chr p)) (MState prev (w ++ tail) caps) k).
Proof.
  intros Hstop Hk [|c w] prev Hne Hw; [discriminate|].
  cbn [forallb] in Hw. apply andb_prop in Hw. destruct Hw as [Hc Hw].
  unfold Plus. cbn [rmatch app ms_rest ms_caps]. rewrite Hc.
  apply star_class_max; assumption.
Qed.

Lemma hyphen_not_word : is_word "-" = false.
Proof. reflexivity. Qed.

Lemma stops_word_hyphenated segs tail :
  stops is_word tail = true -> stops is_word (hyphenated segs ++ tail) = true.
Proof. destruct segs; [auto | reflexivity]. Qed.

(** The repetition of hyphen-and-word takes all the hyphenated runs. *)
Lemma hyphen_star_max Q tail caps k :
  stops is_word tail = true -> stops (is_char "-") tail = true ->
  (forall pr, succeeds Q (k (MState pr tail caps))) ->
  forall segs prev, forallb is_words segs = true ->
    succeeds Q (rmatch (Star true (Seq (ch "-") (Plus word)))
                  (MState prev (hyphenated segs ++ tail) caps) k).
Proof.
  intros Hw Hh Hk. induction segs as [|seg segs IH]; intros prev Hs;
    rewrite rmatch_star; cbv zeta.
  - cbn [hyphenated map concat app]. unfold ch. cbn [rmatch ms_rest].
    destruct tail as [|c tail'].
    + apply Hk.
    + cbn [stops] in Hh. apply negb_true_iff in Hh. rewrite Hh. apply Hk.
  - cbn [forallb] in Hs. apply andb_prop in Hs. destruct Hs as [Hseg Hs].
    unfold is_words in Hseg. apply andb_prop in Hseg. destruct Hseg as [Hne Hseg].
    apply succeeds_first.
    change (hyphenated (seg :: segs)) with (("-"%char :: seg) ++ hyphenated segs).
    rewrite <- app_assoc. cbn [app].
    unfold ch at 1. cbn [rmatch ms_rest ms_caps].
    change (is_char "-" "-") with true. cbv iota.
    apply plus_class_max.
    + apply stops_word_hyphenated. exact Hw.
    + intros pr. cbn [ms_rest].
      replace (length (hyphenated segs ++ tail)
               <? length ("-"%char :: seg ++ hyphenated segs ++ tail)) with true
        by (symmetry; apply Nat.ltb_lt; cbn [length]; rewrite !length_app; lia).
      apply IH. exact Hs.
    + exact Hne.
    + exact Hseg.
Qed.

Lemma firstn_app_exact {A : Type} (a b : list A) :
  firstn (length (a ++ b) - length b) (a ++ b) = a.
Proof.
  rewrite length_app. replace (length a + length b - length b) with (length a) by lia.
  rewrite firstn_app, Nat.sub_diag, firstn_all. simpl. apply app_nil_r.
Qed.

(** The name group of the attribute pattern captures a whole name. *)
Lemma attr_name_group Q tail w segs prev k :
  stops is_word tail = true -> stops (is_char "-") tail = true ->
  is_words w = true -> forallb is_words segs = true ->
  (forall pr, succeeds Q (k (MState pr tail (set_cap 1 (attr_name_text w segs) [])))) ->
  succeeds Q
    (rmatch (Group 1 attr_name_re)
       (MState prev (attr_name_text w segs ++ tail) []) k).
Proof.
  intros Hw Hh Hwords Hsegs Hk.
  unfold is_words in Hwords. apply andb_prop in Hwords. destruct Hwords as [Hne Hall].
  unfold attr_name_re. cbn [rmatch]. unfold attr_name_text at 1. rewrite <- app_assoc.
  apply plus_class_max; [apply stops_word_hyphenated; exact Hw | | exact Hne | exact Hall].
  intros pr. apply hyphen_star_max; [exact Hw | exact Hh | | exact Hsegs].
  intros pr'. unfold consumed. cbn [ms_rest ms_prev ms_caps].
  rewrite firstn_app_exact. apply Hk.
Qed.

End GreedyRuns.

(* ------------------------------------------------------------------ *)
(** ** Attributes with an empty value *)

Section EmptyValues.

Lemma word_not_space c : is_word c = true -> is_space c = false.
Proof.
  destruct c as [[] [] [] [] [] [] [] []]; vm_compute; intros H;
    first [reflexivity | discriminate H].
Qed.

Lemma lstrip_keeps s c :
  In c s -> is_space c = false -> In c (lstrip s).
Proof.
  induction s as [|a s IH]; intros Hin Hc; [contradiction|].
  cbn [lstrip]. destruct (is_space a) eqn:Ea; [|exact Hin].
  destruct Hin as [->|Hin]; [congruence|]. apply IH; assumption.
Qed.

Lemma strip_nonempty s c :
  In c s -> is_space c = false -> nonempty (strip s) = true.
Proof.
  intros Hin Hc. unfold strip, rstrip.
  assert (H : In c (rev (lstrip (rev (lstrip s))))).
  { apply in_rev. rewrite rev_involutive. apply lstrip_keeps; [|exact Hc].
    apply -> in_rev. apply lstrip_keeps; assumption. }
  destruct (rev _); [contradiction | reflexivity].
Qed.

Lemma attr_name_text_strip w segs tail :
  is_words w = true -> nonempty (strip (attr_name_text w segs ++ tail)) = true.
Proof.
  unfold is_words. intros H. apply andb_prop in H. destruct H as [Hne Hw].
  destruct w as [|c w]; [discriminate|].
  cbn [forallb] in Hw. apply andb_prop in Hw. destruct Hw as [Hc _].
  apply (strip_nonempty _ c); [left; reflexivity | apply word_not_space; exact Hc].
Qed.

(** After a match that runs to the end of the text the scan finds nothing
    more. *)
Lemma pieces_attr_end s : forall prev, pieces attr_pattern prev s (length s) = [].
Proof.
  induction s as [|c s IH]; intros prev; [|apply IH].
  destruct prev; reflexivity.
Qed.

Lemma rmatch_seq a b st k :
  rmatch (Seq a b) st k = rmatch a st (fun st' => rmatch b st' k).
Proof. reflexivity. Qed.

(** The scan of a text that is one attribute. *)
Lemma finditer_one_attr w segs tail caps :
  stops is_word tail = true -> stops (is_char "-") tail = true ->
  is_words w = true -> forallb is_words segs = true ->
  (forall pr, succeeds (fun res => ms_rest res = [] /\ ms_caps res = caps)
     (rmatch (Opt attr_value_re)
        (MState pr tail (set_cap 1 (attr_name_text w segs) [])) Some)) ->
  re_finditer attr_pattern (attr_name_text w segs ++ tail)
  = [Match (attr_name_text w segs ++ tail) caps].
Proof.
  intros Hw Hh Hwords Hsegs Hk.
  assert (Hm : match_at attr_pattern None (attr_name_text w segs ++ tail)
               = Some (Match (attr_name_text w segs ++ tail) caps)).
  { unfold match_at, attr_pattern.
    change (Cat [Group 1 attr_name_re; Opt attr_value_re])
      with (Seq (Group 1 attr_name_re) (Opt attr_value_re)).
    rewrite rmatch_seq.
    destruct (attr_name_group (fun res => ms_rest res = [] /\ ms_caps res = caps)
                tail w segs None (fun st' => rmatch (Opt attr_value_re) st' Some)
                Hw Hh Hwords Hsegs Hk) as (res & -> & Hrest & Hcaps).
    rewrite Hrest, Hcaps. cbn [length]. rewrite Nat.sub_0_r, firstn_all. reflexivity. }
  unfold re_finditer.
  remember (attr_name_text w segs ++ tail) as s eqn:Es.
  destruct s as [|c s].
  - unfold is_words in Hwords. apply andb_prop in Hwords. destruct Hwords as [Hne _].
    destruct w; [discriminate Hne | discriminate Es].
  - cbn [pieces]. rewrite Hm. cbn [m_text length].
    rewrite pieces_attr_end. reflexivity.
Qed.

(** The name rewriting of [parse_attributes] is the one of the
    specification. *)
Lemma attr_name_of name text caps :
  get_cap 1 caps = Some name ->
  attr_name (Match text caps) = Ok (emitted_key name).
Proof.
  intros H. unfold attr_name, emitted_key. cbn [group m_caps]. rewrite H.
  cbn [eq_of].
  destruct (list_eq_dec ascii_dec name (lit "class")); [reflexivity|].
  destruct (list_eq_dec ascii_dec name (lit "for")); [reflexivity|].
  cbn [has_char_of bind fmt]. destruct (has_char "-" name); reflexivity.
Qed.

(** The translation of a text that is one attribute. *)
Lemma parse_one_attr w segs tail caps :
  stops is_word tail = true -> stops (is_char "-") tail = true ->
  is_words w = true -> forallb is_words segs = true ->
  (forall pr, succeeds (fun res => ms_rest res = [] /\ ms_caps res = caps)
     (rmatch (Opt attr_value_re)
        (MState pr tail (set_cap 1 (attr_name_text w segs) [])) Some)) ->
  get_cap 1 caps = Some (attr_name_text w segs) ->
  parse_attributes (attr_name_text w segs ++ tail)
  = Ok (lit "{ " ++ emitted_key (attr_name_text w segs) ++ lit ": "
        ++ attr_value (Match (attr_name_text w segs ++ tail) caps) ++ lit " }").
Proof.
  intros Hw Hh Hwords Hsegs Hk H1.
  unfold parse_attributes.
  rewrite attr_name_text_strip by exact Hwords. cbn [negb].
  rewrite (finditer_one_attr w segs tail caps Hw Hh Hwords Hsegs Hk).
  cbn [map_res]. unfold attr_entry.
  rewrite (attr_name_of (attr_name_text w segs) _ caps H1).
  cbn [bind join]. rewrite <- !app_assoc. reflexivity.
Qed.

(** The value part of the attribute pattern on a quoted or braced text
    [open text close]: the group [n] of that form captures [text]. *)
Lemma quoted_value_match (n : nat) (opening closing : ascii) (name text : str) :
  (n = 2 /\ opening = "{"%char /\ closing = "}"%char)
  \/ (n = 3 /\ opening = dq /\ closing = dq)
  \/ (n = 4 /\ opening = sq /\ closing = sq) ->
  forallb (not_char closing) text = true ->
  forall pr,
    succeeds (fun res => ms_rest res = []
                         /\ ms_caps res = set_cap n text (set_cap 1 name []))
      (rmatch (Opt attr_value_re)
         (MState pr ("="%char :: opening :: text ++ [closing]) (set_cap 1 name []))
         Some).
Proof.
  intros Hform Htext pr.
  unfold Opt. cbn [rmatch]. apply succeeds_first.
  unfold attr_value_re, ch. cbn [rmatch ms_rest ms_caps].
  change (is_char "=" "=") with true. cbv iota.
  destruct Hform as [(-> & -> & ->) | [(-> & -> & ->) | (-> & -> & ->)]].
  - apply succeeds_first. cbn [Cat rmatch ms_rest ms_caps].
    change (is_char "{" "{") with true. cbv iota.
    apply star_class_max; [reflexivity | | exact Htext].
    intros pr'. unfold consumed. cbn [ms_rest ms_prev ms_caps].
    rewrite firstn_app_exact.
    change (is_char "}" "}") with true. cbv iota.
    eexists. split; [reflexivity|]. split; reflexivity.
  - cbn [Cat rmatch ms_rest ms_caps].
    change (is_char "{" dq) with false. cbv iota.
    apply succeeds_first.
    change (is_char dq dq) with true. cbv iota.
    apply star_class_max; [reflexivity | | exact Htext].
    intros pr'. unfold consumed. cbn [ms_rest ms_prev ms_caps].
    rewrite firstn_app_exact.
    change (is_char dq dq) with true. cbv iota.
    eexists. split; [reflexivity|]. split; reflexivity.
  - cbn [Cat rmatch ms_rest ms_caps].
    change (is_char "{" sq) with false. change (is_char dq sq) with false. cbv iota.
    change (is_char sq sq) with true. cbv iota.
    apply star_class_max; [reflexivity | | exact Htext].
    intros pr'. unfold consumed. cbn [ms_rest ms_prev ms_caps].
    rewrite firstn_app_exact.
    change (is_char sq sq) with true. cbv iota.
    eexists. split; [reflexivity|]. split; reflexivity.
Qed.

(** One attribute with a value, called on directly: a non-empty text
    between quotes is emitted between single quotes, a non-empty text
    between braces is emitted as it is. *)
Lemma single_attribute_value (w : str) (segs : list str) (text : str) :
  is_words w = true -> forallb is_words segs = true -> nonempty text = true ->
  let name := attr_name_text w segs in
  (forallb (not_char dq) text = true ->
   parse_attributes (name ++ lit "=" ++ [dq] ++ text ++ [dq])
   = Ok (lit "{ " ++ emitted_key name ++ lit ": '" ++ text ++ lit "' }"))
  /\ (forallb (not_char sq) text = true ->
      parse_attributes (name ++ lit "='" ++ text ++ lit "'")
      = Ok (lit "{ " ++ emitted_key name ++ lit ": '" ++ text ++ lit "' }"))
  /\ (forallb (not_char "}") text = true ->
      parse_attributes (name ++ lit "={" ++ text ++ lit "}")
      = Ok (lit "{ " ++ emitted_key name ++ lit ": " ++ text ++ lit " }")).
Proof.
  intros Hw Hs Hne name. subst name.
  destruct text as [|c text]; [discriminate|].
  split; [|split]; intros Htext.
  - etransitivity.
    { apply (parse_one_attr w segs ("="%char :: dq :: (c :: text) ++ [dq])
               (set_cap 3 (c :: text) (set_cap 1 (attr_name_text w segs) [])));
        try reflexivity; try assumption.
      apply (quoted_value_match 3 dq dq); [tauto | exact Htext]. }
    unfold attr_value. cbn -[emitted_key attr_name_text]. rewrite <- ?app_assoc.
    reflexivity.
  - etransitivity.
    { apply (parse_one_attr w segs ("="%char :: sq :: (c :: text) ++ [sq])
               (set_cap 4 (c :: text) (set_cap 1 (attr_name_text w segs) [])));
        try reflexivity; try assumption.
      apply (quoted_value_match 4 sq sq); [tauto | exact Htext]. }
    unfold attr_value. cbn -[emitted_key attr_name_text]. rewrite <- ?app_assoc.
    reflexivity.
  - etransitivity.
    { apply (parse_one_attr w segs ("="%char :: "{"%char :: (c :: text) ++ ["}"%char])
               (set_cap 2 (c :: text) (set_cap 1 (attr_name_text w segs) [])));
        try reflexivity; try assumption.
      apply (quoted_value_match 2 "{" "}"); [tauto | exact Htext]. }
    unfold attr_value. cbn -[emitted_key attr_name_text]. rewrite <- ?app_assoc.
    reflexivity.
Qed.

End EmptyValues.

(* ------------------------------------------------------------------ *)
(** ** The protection pass on one span *)

Section OneSpan.

Lemma last_char_cons prev c a : last_char prev (c :: a) = last_char (Some c) a.
Proof.
  unfold last_char. cbn [rev]. destruct (rev a); reflexivity.
Qed.

(** Passing over a match. *)
Lemma pieces_skip r a b : forall prev,
  pieces r prev (a ++ b) (length a) = pieces r (last_char prev a) b 0.
Proof.
  induction a as [|c a IH]; intros prev; [reflexivity|].
  cbn [app length pieces]. rewrite IH, last_char_cons. reflexivity.
Qed.

Lemma not_brace_open c : not_brace c = true -> is_char "{" c = false.
Proof.
  unfold not_brace. intros H. apply negb_true_iff in H.
  apply orb_false_elim in H. tauto.
Qed.

(** No span starts in text without braces. *)
Lemma pieces_no_brace s : forall prev,
  forallb not_brace s = true -> pieces protect_re prev s 0 = map Keep s.
Proof.
  induction s as [|c s IH]; intros prev H; [reflexivity|].
  cbn [forallb] in H. apply andb_prop in H. destruct H as [Hc Hs].
  cbn [pieces map]. unfold match_at, protect_re, ch. cbn [Cat rmatch ms_rest].
  rewrite (not_brace_open c Hc). rewrite IH by exact Hs. reflexivity.
Qed.

(** A span of text without braces between braces is matched whole. *)
Lemma match_protect_span expr post prev :
  forallb not_brace expr = true ->
  match_at protect_re prev ("{"%char :: expr ++ "}"%char :: post)
  = Some (Match ("{"%char :: expr ++ ["}"%char]) []).
Proof.
  intros H.
  assert (Hs : succeeds (fun res => ms_rest res = post /\ ms_caps res = [])
                 (rmatch protect_re
                    (MState prev ("{"%char :: expr ++ "}"%char :: post) []) Some)).
  { unfold protect_re, ch. cbn [Cat rmatch ms_rest ms_caps].
    change (is_char "{" "{") with true. cbv iota.
    apply star_class_max; [reflexivity | | exact H].
    intros pr. eexists. split; [reflexivity|]. split; reflexivity. }
  destruct Hs as (res & Hres & Hrest & Hcaps).
  unfold match_at. rewrite Hres, Hrest, Hcaps. do 2 f_equal.
  change ("{"%char :: expr ++ "}"%char :: post)
    with (("{"%char :: expr) ++ ["}"%char] ++ post).
  rewrite app_assoc. rewrite firstn_app_exact. reflexivity.
Qed.

(** The scan of the protection pass on a text with one span. *)
Lemma pieces_one_span pre expr post :
  forallb not_brace pre = true -> forallb not_brace expr = true ->
  forallb not_brace post = true ->
  forall prev,
    pieces protect_re prev (pre ++ "{"%char :: expr ++ "}"%char :: post) 0
    = map Keep pre ++ Hit (Match ("{"%char :: expr ++ ["}"%char]) []) :: map Keep post.
Proof.
  intros Hpre Hexpr Hpost. induction pre as [|c pre IH]; intros prev.
  - cbn [app map pieces]. rewrite match_protect_span by exact Hexpr.
    cbn [m_text length]. f_equal.
    change (expr ++ "}"%char :: post) with (expr ++ ["}"%char] ++ post).
    rewrite app_assoc, pieces_skip. apply pieces_no_brace. exact Hpost.
  - cbn [forallb] in Hpre. apply andb_prop in Hpre. destruct Hpre as [Hc Hpre].
    cbn [app map pieces]. unfold match_at at 1, protect_re, ch.
    cbn [Cat rmatch ms_rest]. rewrite (not_brace_open c Hc).
    fold protect_re. rewrite IH by exact Hpre. reflexivity.
Qed.

Lemma hits_keeps l ps : hits (map Keep l ++ ps) = hits ps.
Proof. induction l as [|c l IH]; [reflexivity | exact IH]. Qed.

(** The protection pass replaces the span by the first placeholder and
    records it. *)
Lemma protect_one_span pre expr post :
  forallb not_brace pre = true -> forallb not_brace expr = true ->
  forallb not_brace post = true ->
  protect (pre ++ "{"%char :: expr ++ "}"%char :: post)
  = Ok (["{"%char :: expr ++ ["}"%char]], pre ++ placeholder 0 ++ post).
Proof.
  intros Hpre Hexpr Hpost. rewrite protect_spec.
  rewrite pieces_one_span by assumption.
  assert (Hh : forall l, hits (map Keep l) = []).
  { intros l. rewrite <- (app_nil_r (map Keep l)). apply hits_keeps. }
  assert (Hp : forall l j, prot j (map Keep l) = l).
  { intros l j. rewrite <- (app_nil_r (map Keep l)), prot_keeps. apply app_nil_r. }
  unfold texts. rewrite hits_keeps, prot_keeps. cbn [hits map prot].
  rewrite Hh, Hp. reflexivity.
Qed.

(** What the pipeline does to an attribute between braces, for every
    expression: the value is lost and the expression comes back as a key. *)
Lemma pipeline_masks_any_expression expr :
  forallb not_brace expr = true ->
  convert_jsx_to_createElement (lit "return <Input value={" ++ expr ++ lit "} />;")
  = Ok (lit "return React.createElement('Input', { value: true, {" ++ expr
        ++ lit "}: true });").
Proof.
  intros H. unfold convert_jsx_to_createElement.
  change (lit "return <Input value={" ++ expr ++ lit "} />;")
    with (lit "return <Input value=" ++ "{"%char :: expr ++ "}"%char :: lit " />;").
  rewrite protect_one_span by first [reflexivity | exact H].
  cbn [bind].
  assert (E1 : re_sub return_block_re convert_return_jsx tt
                 (lit "return <Input value=" ++ placeholder 0 ++ lit " />;")
               = Ok (tt, lit "return <Input value=__PROTECTED_0__ />;"))
    by (vm_compute; reflexivity).
  rewrite E1. cbn [bind].
  assert (E2 : re_sub return_inline_re convert_inline_return tt
                 (lit "return <Input value=__PROTECTED_0__ />;")
               = Ok (tt, lit "return React.createElement('Input', { value: true, __PROTECTED_0__: true });"))
    by (vm_compute; reflexivity).
  rewrite E2. cbn [bind]. f_equal.
  cbn [restore]. unfold replace, placeholder.
  cbn [lit String.list_ascii_of_string app dec replace_from starts_with length Nat.sub
       Ascii.eqb Bool.eqb andb].
  rewrite <- ?app_assoc. reflexivity.
Qed.

Lemma rmatch_chr p st k :
  rmatch (Chr p) st k
  = match ms_rest st with
    | c :: s' => if p c then k (MState (Some c) s' (ms_caps st)) else None
    | [] => None
    end.
Proof. reflexivity. Qed.

(** A greedy run of a class, read backwards: what it consumed is a run of
    the class. *)
Lemma star_class_inv p k caps res : forall s prev,
  rmatch (Star true (Chr p)) (MState prev s caps) k = Some res ->
  exists w rest' pr,
    s = w ++ rest' /\ forallb p w = true /\ k (MState pr rest' caps) = Some res.
Proof.
  induction s as [|c s IH]; intros prev H; rewrite rmatch_star in H; cbv zeta in H;
    rewrite rmatch_chr in H; cbn [ms_rest ms_caps] in H.
  - exists [], [], prev. auto.
  - destruct (p c) eqn:Ec; [|exists [], (c :: s), prev; auto].
    cbn [ms_rest] in H.
    replace (length s <? length (c :: s)) with true in H
      by (symmetry; apply Nat.ltb_lt; simpl; lia).
    destruct (rmatch (Star true (Chr p)) (MState (Some c) s caps) k) as [r|] eqn:E.
    + injection H as Hr. rewrite Hr in E.
      destruct (IH _ E) as (w & rest' & pr & -> & Hw & Hk).
      exists (c :: w), rest', pr. cbn [forallb app]. rewrite Ec. auto.
    + exists [], (c :: s), prev. auto.
Qed.

(** A match of the protection pattern is a span: an opening brace, a run
    without braces, a closing brace. *)
Lemma match_protect_inv prev s m :
  match_at protect_re prev s = Some m ->
  exists w post,
    s = "{"%char :: w ++ "}"%char :: post /\ forallb not_brace w = true
    /\ m_text m = "{"%char :: w ++ ["}"%char].
Proof.
  unfold match_at. destruct (rmatch protect_re _ Some) as [st'|] eqn:E; [|discriminate].
  intros H. inversion H; subst m; clear H. cbn [m_text].
  unfold protect_re, ch in E.
  change (Cat [Chr (is_char "{"); Star true (Chr not_brace); Chr (is_char "}")])
    with (Seq (Chr (is_char "{")) (Seq (Star true (Chr not_brace)) (Chr (is_char "}"))))
    in E.
  rewrite rmatch_seq in E. cbn [rmatch ms_rest ms_caps] in E.
  destruct s as [|c s]; [discriminate|].
  destruct (is_char "{" c) eqn:Ec; [|discriminate].
  apply Ascii.eqb_eq in Ec. subst c.
  change (star_loop (rmatch (Chr not_brace)) true
            (fun st'0 => rmatch (Chr (is_char "}")) st'0 Some)
            (S (length (ms_rest (MState (Some "{"%char) s []))))
            (MState (Some "{"%char) s []))
    with (rmatch (Star true (Chr not_brace)) (MState (Some "{"%char) s [])
            (fun st'0 => rmatch (Chr (is_char "}")) st'0 Some)) in E.
  apply star_class_inv in E. destruct E as (w & rest' & pr & -> & Hw & Hk).
  cbn [rmatch ms_rest ms_caps] in Hk.
  destruct rest' as [|c post]; [discriminate|].
  destruct (is_char "}" c) eqn:Ec; [|discriminate].
  apply Ascii.eqb_eq in Ec. subst c. inversion Hk; subst st'; clear Hk.
  exists w, post. repeat split; [exact Hw|]. cbn [ms_rest].
  change ("{"%char :: w ++ "}"%char :: post)
    with (("{"%char :: w) ++ ["}"%char] ++ post).
  rewrite app_assoc. rewrite firstn_app_exact. reflexivity.
Qed.

(** The protection pattern finds nothing exactly in the texts that contain
    no span. *)
Lemma no_span_search content :
  re_search protect_re content = None <->
  (forall a w b, forallb not_brace w = true ->
                 content <> a ++ "{"%char :: w ++ "}"%char :: b).
Proof.
  unfold re_search, re_finditer. split.
  - intros H a w b Hw ->.
    assert (Hhit : forall prev,
              hits (pieces protect_re prev (a ++ "{"%char :: w ++ "}"%char :: b) 0) <> []).
    { clear H. induction a as [|c a IH]; intros prev.
      - cbn [app pieces]. rewrite match_protect_span by exact Hw. discriminate.
      - cbn [app pieces]. destruct (match_at protect_re prev _) as [m|] eqn:E.
        + discriminate.
        + cbn [hits]. apply IH. }
    specialize (Hhit None). destruct (hits _); [congruence | discriminate].
  - intros H. destruct (hits (pieces protect_re None content 0)) as [|m l] eqn:E;
      [reflexivity|]. exfalso.
    assert (Hm : In m (hits (pieces protect_re None content 0)))
      by (rewrite E; left; reflexivity).
    apply hits_pieces_at in Hm. destruct Hm as (a & prev' & s' & -> & Hm).
    apply match_protect_inv in Hm. destruct Hm as (w & post & -> & Hw & _).
    exact (H a w post Hw eq_refl).
Qed.

End OneSpan.

(* ------------------------------------------------------------------ *)
(** ** The properties of the specification *)

(** C1, as the program behaves.  The specification has the pipeline turn
    [return <Tag name={expr} />;] into a call whose attribute value is
    [expr].  The protection pass has replaced [{expr}] by a placeholder
    before the attributes are read, so the attribute translator never sees
    a brace: the attribute loses its value and the placeholder is read as a
    second, valueless attribute.  On [return <Input value={v} />;] the
    pipeline returns the text below, not
    [return React.createElement('Input', { value: v });]. *)
Theorem pipeline_masks_attribute_expression :
  convert_jsx_to_createElement (lit "return <Input value={v} />;")
  = Ok (lit "return React.createElement('Input', { value: true, {v}: true });").
Proof. vm_compute. reflexivity. Qed.

(** C2, refuted as stated: a buffer that already contains the text of a
    placeholder is not reproduced by protection followed by restoration. *)
Lemma protect_restore_counterexample :
  protect_then_restore (lit "__PROTECTED_0__{a}") = Ok (lit "{a}{a}")
  /\ protect_then_restore (lit "__PROTECTED_0__{a}") <> Ok (lit "__PROTECTED_0__{a}").
Proof. split; [vm_compute; reflexivity | vm_compute; discriminate]. Qed.

(** Text that ends like a placeholder is enough to break the round trip:
    here the buffer does not contain _PROTECTED_. *)
Example protect_restore_straddle :
  contains (lit "_PROTECTED_") (lit "{a}{b}PROTECTED_0__") = false
  /\ protect_then_restore (lit "{a}{b}PROTECTED_0__") = Ok (lit "{a}__PROTECTED_1{a}").
Proof. split; vm_compute; reflexivity. Qed.

(** C2, amended: for every buffer that does not contain the text
    PROTECTED_, protection followed at once by restoration (placeholders
    replaced in table order) gives back exactly the buffer. *)
Theorem protect_restore_roundtrip (content : str) :
  contains (lit "PROTECTED_") content = false ->
  protect_then_restore content = Ok content.
Proof.
  intros H. unfold protect_then_restore. rewrite protect_spec. cbn [bind].
  f_equal.
  pose proof (restore_prot (pieces protect_re None content 0) 0 []) as R.
  cbn [app] in R. rewrite R.
  - apply (orig_pieces protect_re content None 0).
  - rewrite (orig_pieces protect_re content None 0). exact H.
Qed.

Lemma protect_restore_roundtrip_witness :
  protect_then_restore (lit "f({a: 1}, {b}) {{c}")
  = Ok (lit "f({a: 1}, {b}) {{c}").
Proof. apply protect_restore_roundtrip. reflexivity. Defined.

(** C3: the attribute list [class=DQ a DQ data-x=DQ y DQ onClick={fn}]
    (DQ the double quote) translates to
    [{ className: 'a', 'data-x': 'y', onClick: fn }]: [class] is renamed, the
    hyphenated name is quoted, the entries keep their order and are joined
    by a comma and a space. *)
Theorem parse_attributes_example :
  parse_attributes
    (lit "class=" ++ [dq] ++ lit "a" ++ [dq] ++ lit " data-x=" ++ [dq] ++ lit "y" ++ [dq]
     ++ lit " onClick={fn}")
  = Ok (lit "{ className: 'a', 'data-x': 'y', onClick: fn }").
Proof. vm_compute. reflexivity. Qed.

(** C4, as the program behaves.  The specification has every quoted value
    emitted between single quotes, the empty one too.  The program tests
    the captured text for truth, and the empty text is false: an attribute
    with an empty quoted value is emitted with the value [true], while a
    value of one character is quoted. *)
Theorem empty_quoted_value_emits_true :
  parse_attributes (lit "title=" ++ [dq; dq]) = Ok (lit "{ title: true }")
  /\ parse_attributes (lit "title=''") = Ok (lit "{ title: true }")
  /\ parse_attributes (lit "title=" ++ [dq] ++ lit "a" ++ [dq]) = Ok (lit "{ title: 'a' }")
  /\ parse_attributes (lit "title='a'") = Ok (lit "{ title: 'a' }").
Proof. repeat split; vm_compute; reflexivity. Qed.

(** C6: [<Input value={v} />] matches the self-closing pattern and converts
    to [React.createElement('Input', { value: v })]; whenever the
    self-closing pattern matches, the result is the call with two
    arguments, the tag between single quotes and the translated
    attributes. *)
Theorem self_closing_two_arguments :
  (exists m, re_match self_closing_re (strip (lit "<Input value={v} />")) = Some m
             /\ group m 1 = Some (lit "Input") /\ group m 2 = Some (lit " value={v} "))
  /\ convert_jsx_element (lit "<Input value={v} />") []
     = Ok (lit "React.createElement('Input', { value: v })")
  /\ forall jsx indent m,
       re_match self_closing_re (strip jsx) = Some m ->
       exists tag attrs props,
         group m 1 = Some tag /\ group m 2 = Some attrs
         /\ parse_attributes attrs = Ok props
         /\ convert_jsx_element jsx indent
            = Ok (lit "React.createElement('" ++ tag ++ lit "', " ++ props ++ lit ")").
Proof.
  split; [|split].
  - eexists. split; [vm_compute; reflexivity|]. split; reflexivity.
  - vm_compute. reflexivity.
  - intros jsx indent m H.
    destruct (self_closing_groups _ _ H) as (tag & attrs & Ht & Ha).
    destruct (parse_attributes_total attrs) as [props Hp].
    exists tag, attrs, props. repeat split; try assumption.
    unfold convert_jsx_element. rewrite H, Ht, Ha.
    cbn [parse_attributes_of]. rewrite Hp. reflexivity.
Qed.

Lemma self_closing_two_arguments_witness :
  exists tag attrs props,
    parse_attributes attrs = Ok props
    /\ convert_jsx_element (lit "<img src='a.png' alt='' />") (lit "  ")
       = Ok (lit "React.createElement('" ++ tag ++ lit "', " ++ props ++ lit ")").
Proof.
  destruct (proj2 (proj2 self_closing_two_arguments)
              (lit "<img src='a.png' alt='' />") (lit "  ")
              (Match (lit "<img src='a.png' alt='' />")
                 [None; Some (lit "img"); Some (lit " src='a.png' alt='' ")]))
    as (tag & attrs & props & _ & _ & Hp & Hc).
  - vm_compute. reflexivity.
  - exists tag, attrs, props. split; [exact Hp | exact Hc].
Defined.

(** C7: [<br></br>] and [<br/>] both convert to
    [React.createElement('br', null)]; an attribute list that is empty
    after trimming translates to [null]; and an element whose trimmed
    children are empty is emitted as the call with two arguments. *)
Theorem empty_element_two_arguments :
  convert_jsx_element (lit "<br></br>") [] = Ok (lit "React.createElement('br', null)")
  /\ convert_jsx_element (lit "<br/>") [] = Ok (lit "React.createElement('br', null)")
  /\ (forall attrs_str, strip attrs_str = [] -> parse_attributes attrs_str = Ok (lit "null"))
  /\ forall jsx indent m children,
       re_match self_closing_re (strip jsx) = None ->
       re_match element_re (strip jsx) = Some m ->
       group m 3 = Some children -> strip children = [] ->
       exists tag attrs props,
         group m 1 = Some tag /\ group m 2 = Some attrs
         /\ parse_attributes attrs = Ok props
         /\ convert_jsx_element jsx indent
            = Ok (lit "React.createElement('" ++ tag ++ lit "', " ++ props ++ lit ")").
Proof.
  split; [vm_compute; reflexivity|]. split; [vm_compute; reflexivity|]. split.
  - intros attrs_str H. unfold parse_attributes. rewrite H. reflexivity.
  - intros jsx indent m children Hs He Hc Hstrip.
    destruct (element_groups _ _ He) as (tag & attrs & children' & Ht & Ha & _).
    destruct (parse_attributes_total attrs) as [props Hp].
    exists tag, attrs, props. repeat split; try assumption.
    unfold convert_jsx_element. rewrite Hs, He, Ht, Ha, Hc.
    cbn [parse_attributes_of]. rewrite Hp. cbn [bind strip_of]. rewrite Hstrip.
    reflexivity.
Qed.

Lemma empty_element_two_arguments_witness :
  parse_attributes (lit "   ") = Ok (lit "null")
  /\ exists tag attrs props,
       parse_attributes attrs = Ok props
       /\ convert_jsx_element (lit "<p id='x'>  </p>") []
          = Ok (lit "React.createElement('" ++ tag ++ lit "', " ++ props ++ lit ")").
Proof.
  split.
  - apply (proj1 (proj2 (proj2 empty_element_two_arguments))). reflexivity.
  - destruct (proj2 (proj2 (proj2 empty_element_two_arguments))
                (lit "<p id='x'>  </p>") []
                (Match (lit "<p id='x'>  </p>")
                   [None; Some (lit "p"); Some (lit " id='x'"); Some (lit "  ")])
                (lit "  "))
      as (tag & attrs & props & _ & _ & Hp & Hc).
    + vm_compute. reflexivity.
    + vm_compute. reflexivity.
    + reflexivity.
    + reflexivity.
    + exists tag, attrs, props. split; [exact Hp | exact Hc].
Defined.

(** C8: the children converter returns trimmed text between single
    quotes, with or without a [<] in it; text that contains [<] is quoted
    raw, whatever it is; and [<div>Hello</div>] converts to the call with
    three arguments whose third argument is ['Hello']. *)
Theorem children_are_quoted :
  (forall children_str indent,
     strip children_str = children_str ->
     convert_children children_str indent = [sq] ++ children_str ++ [sq])
  /\ (forall children_str indent,
        has_char "<" children_str = true ->
        convert_children children_str indent = [sq] ++ children_str ++ [sq])
  /\ convert_jsx_element (lit "<div>Hello</div>") []
     = Ok (lit "React.createElement(" ++ [nl] ++ lit "  'div'," ++ [nl]
           ++ lit "  null," ++ [nl] ++ lit "  'Hello'" ++ [nl] ++ lit ")").
Proof.
  split; [|split].
  - intros s indent H. unfold convert_children. rewrite H.
    destruct (negb _); reflexivity.
  - intros s indent H. unfold convert_children. rewrite H. reflexivity.
  - vm_compute. reflexivity.
Qed.

Lemma children_are_quoted_witness :
  convert_children (lit "Hello") (lit "  ") = lit "'Hello'"
  /\ convert_children (lit "a <b>c</b> ") (lit "  ") = lit "'a <b>c</b> '".
Proof.
  split.
  - apply (proj1 children_are_quoted (lit "Hello") (lit "  ")). reflexivity.
  - apply (proj1 (proj2 children_are_quoted) (lit "a <b>c</b> ") (lit "  ")). reflexivity.
Defined.

(** C9: when neither the self-closing pattern nor the element pattern
    matches, the element converter returns its argument as it is; and no
    call of the element converter, of the attribute translator or of the
    pipeline raises: each returns a text. *)
Theorem fallback_and_no_error :
  (forall jsx indent,
     re_match self_closing_re (strip jsx) = None ->
     re_match element_re (strip jsx) = None ->
     convert_jsx_element jsx indent = Ok jsx)
  /\ (forall jsx indent, exists out, convert_jsx_element jsx indent = Ok out)
  /\ (forall attrs_str, exists props, parse_attributes attrs_str = Ok props)
  /\ (forall content, exists out, convert_jsx_to_createElement content = Ok out).
Proof.
  split; [|split; [|split]].
  - intros jsx indent Hs He. unfold convert_jsx_element. rewrite Hs, He. reflexivity.
  - apply convert_jsx_element_total.
  - apply parse_attributes_total.
  - apply convert_jsx_to_createElement_total.
Qed.

Lemma fallback_and_no_error_witness :
  convert_jsx_element (lit " <div>unclosed ") (lit "  ") = Ok (lit " <div>unclosed ").
Proof.
  apply (proj1 fallback_and_no_error); vm_compute; reflexivity.
Defined.

(* ------------------------------------------------------------------ *)
(** ** Further properties: trimming and children *)

Section Trimming.

Lemma lstrip_fixed c s : is_space c = false -> lstrip (c :: s) = c :: s.
Proof. intros H. cbn [lstrip]. rewrite H. reflexivity. Qed.

Lemma lstrip_head s :
  lstrip s = [] \/ exists c t, lstrip s = c :: t /\ is_space c = false.
Proof.
  induction s as [|a s IH]; [left; reflexivity|].
  cbn [lstrip]. destruct (is_space a) eqn:E; [exact IH|]. right. eauto.
Qed.

Lemma lstrip_idem s : lstrip (lstrip s) = lstrip s.
Proof.
  destruct (lstrip_head s) as [-> | (c & t & -> & Hc)]; [reflexivity|].
  apply lstrip_fixed. exact Hc.
Qed.

Lemma lstrip_snoc l c : is_space c = false -> lstrip (l ++ [c]) = lstrip l ++ [c].
Proof.
  intros Hc. induction l as [|a l IH]; cbn [app lstrip].
  - rewrite Hc. reflexivity.
  - destruct (is_space a); [exact IH | reflexivity].
Qed.

Lemma rstrip_cons c s :
  is_space c = false -> exists t, rstrip (c :: s) = c :: t.
Proof.
  intros Hc. unfold rstrip. cbn [rev]. rewrite lstrip_snoc by exact Hc.
  rewrite rev_app_distr. cbn [rev app]. eauto.
Qed.

Lemma rstrip_idem s : rstrip (rstrip s) = rstrip s.
Proof. unfold rstrip. rewrite rev_involutive, lstrip_idem. reflexivity. Qed.

(** Trimming a trimmed text changes nothing. *)
Lemma strip_idem s : strip (strip s) = strip s.
Proof.
  unfold strip.
  destruct (lstrip_head s) as [E | (c & t & E & Hc)]; rewrite E; [reflexivity|].
  destruct (rstrip_cons c t Hc) as [u Hu]. rewrite Hu.
  rewrite lstrip_fixed by exact Hc. rewrite <- Hu. apply rstrip_idem.
Qed.

End Trimming.

(** X4.  An element with an opening and a closing tag whose children are
    not blank always converts to the call with three arguments, and the
    third argument is the trimmed text between the tags, between single
    quotes, whatever markup it contains: the test of the converted children
    for emptiness never fails. *)
Theorem element_with_children_three_arguments (jsx indent : str) (m : rmatch_obj)
    (children : str) :
  re_match self_closing_re (strip jsx) = None ->
  re_match element_re (strip jsx) = Some m ->
  group m 3 = Some children ->
  nonempty (strip children) = true ->
  exists tag attrs props,
    group m 1 = Some tag /\ group m 2 = Some attrs
    /\ parse_attributes attrs = Ok props
    /\ convert_jsx_element jsx indent
       = Ok (lit "React.createElement(" ++ [nl]
             ++ indent ++ lit "  '" ++ tag ++ lit "'," ++ [nl]
             ++ indent ++ lit "  " ++ props ++ lit "," ++ [nl]
             ++ indent ++ lit "  " ++ ([sq] ++ strip children ++ [sq]) ++ [nl]
             ++ indent ++ lit ")").
Proof.
  intros Hs He Hc Hne.
  destruct (element_groups _ _ He) as (tag & attrs & children' & Ht & Ha & _).
  destruct (parse_attributes_total attrs) as [props Hp].
  exists tag, attrs, props. repeat split; try assumption.
  unfold convert_jsx_element. rewrite Hs, He, Ht, Ha, Hc.
  cbn [parse_attributes_of]. rewrite Hp. cbn [bind strip_of]. rewrite Hne.
  assert (Hcc : convert_children (strip children) (indent ++ lit "  ")
                = [sq] ++ strip children ++ [sq]).
  { unfold convert_children. rewrite strip_idem. destruct (negb _); reflexivity. }
  rewrite Hcc. reflexivity.
Qed.

Lemma element_with_children_three_arguments_witness :
  exists tag attrs props,
    parse_attributes attrs = Ok props
    /\ convert_jsx_element (lit "<ul id='l'> <li>a</li><li>b</li> </ul>") (lit "  ")
       = Ok (lit "React.createElement(" ++ [nl]
             ++ lit "  " ++ lit "  '" ++ tag ++ lit "'," ++ [nl]
             ++ lit "  " ++ lit "  " ++ props ++ lit "," ++ [nl]
             ++ lit "  " ++ lit "  " ++ ([sq] ++ lit "<li>a</li><li>b</li>" ++ [sq]) ++ [nl]
             ++ lit "  " ++ lit ")").
Proof.
  destruct (element_with_children_three_arguments
              (lit "<ul id='l'> <li>a</li><li>b</li> </ul>") (lit "  ")
              (Match (lit "<ul id='l'> <li>a</li><li>b</li> </ul>")
                 [None; Some (lit "ul"); Some (lit " id='l'");
                  Some (lit " <li>a</li><li>b</li> ")])
              (lit " <li>a</li><li>b</li> "))
    as (tag & attrs & props & _ & _ & Hp & Hc).
  - vm_compute. reflexivity.
  - vm_compute. reflexivity.
  - reflexivity.
  - reflexivity.
  - exists tag, attrs, props. split; [exact Hp | exact Hc].
Defined.

(* ------------------------------------------------------------------ *)
(** ** Further properties: the protection pass and restoration *)

Section Protection.

Lemma match_at_protect_prev prev prev' s :
  match_at protect_re prev s = match_at protect_re prev' s.
Proof. destruct s; reflexivity. Qed.

(** The scan of the protection pass does not look behind the cursor. *)
Lemma pieces_protect_prev prev prev' s skip :
  pieces protect_re prev s skip = pieces protect_re prev' s skip.
Proof.
  destruct s as [|c s], skip as [|n]; cbn [pieces];
    rewrite ?(match_at_protect_prev prev prev'); reflexivity.
Qed.

(** Characters other than the opening brace are kept. *)
Lemma pieces_no_open a b : forall prev,
  forallb (not_char "{") a = true ->
  pieces protect_re prev (a ++ b) 0 = map Keep a ++ pieces protect_re None b 0.
Proof.
  induction a as [|c a IH]; intros prev H.
  - apply pieces_protect_prev.
  - cbn [forallb] in H. apply andb_prop in H. destruct H as [Hc Ha].
    cbn [app map pieces]. unfold match_at at 1, protect_re, ch.
    cbn [Cat rmatch ms_rest].
    unfold not_char in Hc. apply negb_true_iff in Hc.
    change (is_char "{" c) with (Ascii.eqb "{" c). rewrite Hc.
    fold protect_re. rewrite IH by exact Ha. reflexivity.
Qed.

Lemma brace_free_no_open a : brace_free a = true -> forallb (not_char "{") a = true.
Proof.
  unfold brace_free. induction a as [|c a IH]; intros H; [reflexivity|].
  cbn [forallb] in *. apply andb_prop in H. destruct H as [Hc Ha].
  rewrite (IH Ha), andb_true_r. unfold not_char.
  apply negb_true_iff. apply (not_brace_open c Hc).
Qed.

(** A span after text without braces: the text is kept, the span is
    matched, and the scan goes on after it. *)
Lemma pieces_span_head pre w rest :
  brace_free pre = true -> brace_free w = true ->
  forall prev,
    pieces protect_re prev (pre ++ "{"%char :: w ++ "}"%char :: rest) 0
    = map Keep pre ++ Hit (Match (span_text w) []) :: pieces protect_re None rest 0.
Proof.
  intros Hpre Hw prev.
  rewrite pieces_no_open by (apply brace_free_no_open; exact Hpre). f_equal.
  cbn [pieces]. rewrite match_protect_span by exact Hw.
  cbn [m_text length]. unfold span_text. f_equal.
  change (w ++ "}"%char :: rest) with (w ++ ["}"%char] ++ rest).
  rewrite app_assoc, pieces_skip. apply pieces_protect_prev.
Qed.

Lemma hits_only_keeps l : hits (map Keep l) = [].
Proof. rewrite <- (app_nil_r (map Keep l)). apply hits_keeps. Qed.

Lemma prot_only_keeps l j : prot j (map Keep l) = l.
Proof. rewrite <- (app_nil_r (map Keep l)), prot_keeps. apply app_nil_r. Qed.

Lemma pieces_spans l post :
  forallb (fun pw => brace_free (fst pw) && brace_free (snd pw)) l = true ->
  brace_free post = true ->
  forall idx prev,
    texts (pieces protect_re prev (spans_buffer l post) 0)
    = map (fun pw => span_text (snd pw)) l
    /\ prot idx (pieces protect_re prev (spans_buffer l post) 0)
       = spans_protected idx l post.
Proof.
  intros Hl Hpost. induction l as [|[pre w] l IH]; intros idx prev.
  - cbn [spans_buffer spans_protected map].
    rewrite (pieces_no_brace post prev Hpost).
    unfold texts. rewrite hits_only_keeps, prot_only_keeps. split; reflexivity.
  - cbn [forallb fst snd] in Hl. apply andb_prop in Hl. destruct Hl as [Hpw Hl].
    apply andb_prop in Hpw. destruct Hpw as [Hpre Hw].
    cbn [spans_buffer spans_protected map snd].
    assert (Hbuf : pre ++ span_text w ++ spans_buffer l post
                   = pre ++ "{"%char :: w ++ "}"%char :: spans_buffer l post)
      by (unfold span_text; cbn [app]; rewrite <- app_assoc; reflexivity).
    rewrite Hbuf. rewrite (pieces_span_head pre w _ Hpre Hw).
    destruct (IH Hl (S idx) None) as [IHt IHp].
    unfold texts in *. rewrite hits_keeps, prot_keeps. cbn [hits map prot m_text].
    rewrite IHt, IHp. split; reflexivity.
Qed.

(** An opening brace followed by text without braces and then by another
    opening brace starts no span. *)
Lemma match_protect_interrupted prev u rest :
  brace_free u = true ->
  match_at protect_re prev ("{"%char :: u ++ "{"%char :: rest) = None.
Proof.
  intros Hu. destruct (match_at _ _ _) as [m|] eqn:E; [|reflexivity]. exfalso.
  apply match_protect_inv in E. destruct E as (w & post & Heq & Hw & _).
  injection Heq as Heq. clear - Hu Hw Heq.
  revert w Hw Heq. unfold brace_free in Hu.
  induction u as [|c u IH]; intros [|d w] Hw Heq; cbn [app forallb] in *.
  - discriminate Heq.
  - injection Heq as <- _. discriminate Hw.
  - injection Heq as -> _. discriminate Hu.
  - injection Heq as _ Heq.
    apply andb_prop in Hu. apply andb_prop in Hw. apply (IH (proj2 Hu) w); tauto.
Qed.

Lemma contains_longer p q s : contains p s = false -> contains (p ++ q) s = false.
Proof.
  induction s as [|c s IH]; intros H.
  - destruct p; [discriminate H | reflexivity].
  - rewrite contains_step in *. apply orb_false_elim in H. destruct H as [Hh Ht].
    rewrite (IH Ht), orb_false_r.
    destruct (starts_with (p ++ q) (c :: s)) eqn:E; [|reflexivity].
    apply starts_with_prefix in E. congruence.
Qed.

End Protection.

(** X5.  The protection pass numbers the spans from left to right.  On a
    buffer made of spans without inner braces, with text without braces
    before, between and after them, it writes the placeholders numbered 0,
    1, 2, ... in place of the spans and records the spans, braces included,
    in the same order. *)
Theorem protect_numbers_spans (l : list (str * str)) (post : str) :
  forallb (fun pw => brace_free (fst pw) && brace_free (snd pw)) l = true ->
  brace_free post = true ->
  protect (spans_buffer l post)
  = Ok (map (fun pw => span_text (snd pw)) l, spans_protected 0 l post).
Proof.
  intros Hl Hpost. rewrite protect_spec.
  destruct (pieces_spans l post Hl Hpost 0 None) as [-> ->]. reflexivity.
Qed.

Lemma protect_numbers_spans_witness :
  protect (lit "f({a: 1}, {b}) + {c}.d")
  = Ok ([lit "{a: 1}"; lit "{b}"; lit "{c}"],
        lit "f(__PROTECTED_0__, __PROTECTED_1__) + __PROTECTED_2__.d").
Proof.
  exact (protect_numbers_spans
           [(lit "f(", lit "a: 1"); (lit ", ", lit "b"); (lit ") + ", lit "c")]
           (lit ".d") eq_refl eq_refl).
Defined.

(** X6.  The protection pass returns the buffer as it is, with an empty
    table, exactly on the buffers that contain no span (no opening brace
    followed by text without braces and a closing brace). *)
Theorem protect_unchanged_iff_no_span (content : str) :
  protect content = Ok ([], content) <->
  (forall a w b, brace_free w = true ->
                 content <> a ++ "{"%char :: w ++ "}"%char :: b).
Proof.
  rewrite <- no_span_search. split.
  - rewrite protect_spec. intros H. injection H as Ht _.
    unfold re_search, re_finditer. unfold texts in Ht.
    destruct (hits _); [reflexivity | discriminate Ht].
  - intros H. unfold protect. apply re_sub_no_match. exact H.
Qed.

Lemma protect_unchanged_iff_no_span_witness :
  protect (lit "if (a > b) } else {") = Ok ([], lit "if (a > b) } else {").
Proof.
  apply (proj2 (protect_unchanged_iff_no_span (lit "if (a > b) } else {"))).
  apply (proj1 (no_span_search (lit "if (a > b) } else {"))).
  vm_compute. reflexivity.
Defined.

(** X7.  Every expression the protection pass records is a span of the
    buffer: an opening brace, text without braces, a closing brace, found
    in the buffer as it stands. *)
Theorem protect_records_spans (content content1 : str) (table : list str) :
  protect content = Ok (table, content1) ->
  Forall (fun expr =>
            (exists w, brace_free w = true /\ expr = span_text w)
            /\ exists a b, content = a ++ expr ++ b) table.
Proof.
  rewrite protect_spec. intros H. injection H as <- _.
  apply Forall_forall. intros expr Hin. unfold texts in Hin.
  apply in_map_iff in Hin. destruct Hin as (m & <- & Hm).
  apply hits_pieces_at in Hm. destruct Hm as (a & prev' & s' & -> & Hm).
  apply match_protect_inv in Hm. destruct Hm as (w & post & -> & Hw & ->).
  split.
  - exists w. split; [exact Hw | reflexivity].
  - exists a, post. cbn [app]. rewrite <- app_assoc. reflexivity.
Qed.

Lemma protect_records_spans_witness :
  Forall (fun expr =>
            (exists w, brace_free w = true /\ expr = span_text w)
            /\ exists a b, lit "a{b}{{c}d}" = a ++ expr ++ b)
         [lit "{b}"; lit "{c}"].
Proof.
  apply (protect_records_spans (lit "a{b}{{c}d}")
           (lit "a__PROTECTED_0__{__PROTECTED_1__d}")).
  vm_compute. reflexivity.
Defined.

(** X8.  Nested braces: of a span inside a pair of braces only the inner
    span is protected; the outer braces stay in the buffer around the
    placeholder. *)
Theorem protect_nested_inner_only (pre u w v post : str) :
  brace_free pre = true -> brace_free u = true -> brace_free w = true ->
  brace_free v = true -> brace_free post = true ->
  protect (pre ++ lit "{" ++ u ++ span_text w ++ v ++ lit "}" ++ post)
  = Ok ([span_text w],
        pre ++ lit "{" ++ u ++ placeholder 0 ++ v ++ lit "}" ++ post).
Proof.
  intros Hpre Hu Hw Hv Hpost. rewrite protect_spec.
  assert (Hp : pieces protect_re None
                 (pre ++ lit "{" ++ u ++ span_text w ++ v ++ lit "}" ++ post) 0
               = map Keep (pre ++ lit "{" ++ u) ++ Hit (Match (span_text w) [])
                 :: map Keep (v ++ lit "}" ++ post)).
  { rewrite pieces_no_open by (apply brace_free_no_open; exact Hpre).
    cbn [lit String.list_ascii_of_string app].
    assert (Hbuf : u ++ span_text w ++ v ++ "}"%char :: post
                   = u ++ "{"%char :: w ++ "}"%char :: v ++ "}"%char :: post)
      by (unfold span_text; cbn [app]; rewrite <- app_assoc; reflexivity).
    rewrite Hbuf.
    cbn [pieces]. rewrite match_protect_interrupted by exact Hu.
    rewrite (pieces_span_head u w _ Hu Hw).
    rewrite <- (app_nil_r (v ++ "}"%char :: post)) at 1.
    rewrite pieces_no_open.
    - rewrite !map_app. cbn [map app]. rewrite <- !app_assoc. cbn [app].
      rewrite app_nil_r. reflexivity.
    - rewrite forallb_app. rewrite (brace_free_no_open v Hv). cbn [forallb andb].
      change (not_char "{" "}") with true. cbn [andb].
      apply brace_free_no_open. exact Hpost. }
  rewrite Hp. unfold texts. rewrite hits_keeps, prot_keeps.
  cbn [hits map prot m_text]. rewrite hits_only_keeps, prot_only_keeps.
  rewrite <- !app_assoc. reflexivity.
Qed.

Lemma protect_nested_inner_only_witness :
  protect (lit "x = {a.map(y => ({z: y}))};")
  = Ok ([lit "{z: y}"], lit "x = {a.map(y => (__PROTECTED_0__))};").
Proof.
  exact (protect_nested_inner_only (lit "x = ") (lit "a.map(y => (") (lit "z: y")
           (lit "))") (lit ";") eq_refl eq_refl eq_refl eq_refl eq_refl).
Defined.

(** X9.  Restoration touches placeholders only: a text that does not
    contain __PROTECTED_ comes out of the restoration loop as it went in,
    whatever the table holds. *)
Theorem restore_without_placeholder (idx : nat) (table : list str) (content : str) :
  contains (lit "__PROTECTED_") content = false ->
  restore idx table content = content.
Proof.
  intros H. revert idx. induction table as [|expr table IH]; intros idx; [reflexivity|].
  cbn [restore]. rewrite replace_absent; [apply IH|].
  unfold placeholder. apply contains_longer. exact H.
Qed.

Lemma restore_without_placeholder_witness :
  restore 0 [lit "{a}"; lit "{b}"] (lit "return x ? _PROTECTED_0__ : y;")
  = lit "return x ? _PROTECTED_0__ : y;".
Proof. apply restore_without_placeholder. reflexivity. Defined.

Lemma identity_when_protected (content content1 : str) (table : list str) :
  protect content = Ok (table, content1) ->
  re_search return_block_re content1 = None ->
  re_search return_inline_re content1 = None ->
  contains (lit "PROTECTED_") content = false ->
  convert_jsx_to_createElement content = Ok content.
Proof.
  intros Hp Hb Hi Hc. unfold convert_jsx_to_createElement. rewrite Hp. cbn [bind].
  rewrite (re_sub_no_match convert_return_jsx return_block_re tt content1 Hb). cbn [bind].
  rewrite (re_sub_no_match convert_inline_return return_inline_re tt content1 Hi).
  cbn [bind]. f_equal.
  rewrite protect_spec in Hp. injection Hp as <- <-.
  pose proof (restore_prot (pieces protect_re None content 0) 0 []) as R.
  cbn [app] in R. rewrite R.
  - apply (orig_pieces protect_re content None 0).
  - rewrite (orig_pieces protect_re content None 0). exact Hc.
Qed.

(** X10.  The pipeline is the identity on every buffer without the text
    PROTECTED_ whose protected form neither return pattern matches.  In
    particular a return statement inside a pair of braces without inner
    braces is protected as a whole and never converted. *)
Theorem pipeline_identity_when_protected (content content1 : str) (table : list str) :
  protect content = Ok (table, content1) ->
  re_search return_block_re content1 = None ->
  re_search return_inline_re content1 = None ->
  contains (lit "PROTECTED_") content = false ->
  convert_jsx_to_createElement content = Ok content.
Proof. exact (identity_when_protected content content1 table). Qed.

Lemma pipeline_identity_when_protected_witness :
  convert_jsx_to_createElement (lit "function App() { return <br/>; }")
  = Ok (lit "function App() { return <br/>; }").
Proof.
  apply (pipeline_identity_when_protected _ (lit "function App() __PROTECTED_0__")
           [lit "{ return <br/>; }"]); vm_compute; reflexivity.
Defined.

(* ------------------------------------------------------------------ *)
(** ** Further properties: the attribute translator *)

Section Attributes.

(** [parse_attributes] is its trimming test followed by its loop. *)
Lemma parse_attributes_loop attrs_str :
  parse_attributes attrs_str
  = if negb (nonempty (strip attrs_str)) then Ok (lit "null")
    else attrs <- attr_entries attrs_str ;;
         match attrs with
         | _ :: _ => Ok (lit "{ " ++ join (lit ", ") attrs ++ lit " }")
         | [] => Ok (lit "null")
         end.
Proof. reflexivity. Qed.

Lemma match_at_attr_prev prev prev' s :
  match_at attr_pattern prev s = match_at attr_pattern prev' s.
Proof. destruct s; [destruct prev, prev'|]; reflexivity. Qed.

(** The scan for attributes does not look behind the cursor. *)
Lemma pieces_attr_prev prev prev' s skip :
  pieces attr_pattern prev s skip = pieces attr_pattern prev' s skip.
Proof.
  destruct s as [|c s], skip as [|n]; cbn [pieces];
    rewrite ?(match_at_attr_prev prev prev'); reflexivity.
Qed.

(** No attribute starts at a character that is not a word character. *)
Lemma match_attr_no_word prev c s :
  is_word c = false -> match_at attr_pattern prev (c :: s) = None.
Proof.
  intros H. unfold match_at, attr_pattern, attr_name_re, word.
  cbn [Cat Plus rmatch ms_rest]. rewrite H. reflexivity.
Qed.

Lemma star_loop_total body g k n st :
  (forall x, k x <> None) -> star_loop body g k n st <> None.
Proof.
  intros Hk. destruct n as [|n]; cbn [star_loop]; [apply Hk|].
  destruct g.
  - destruct (body st _); [discriminate | apply Hk].
  - specialize (Hk st). destruct (k st); [discriminate | congruence].
Qed.

(** An attribute starts at every word character. *)
Lemma match_attr_word prev c s :
  is_word c = true -> match_at attr_pattern prev (c :: s) <> None.
Proof.
  intros H. unfold match_at.
  assert (Hm : rmatch attr_pattern (MState prev (c :: s) []) Some <> None).
  { unfold attr_pattern, attr_name_re, word.
    cbn [Cat Plus rmatch ms_rest ms_caps]. rewrite H.
    apply star_loop_total. intros x. apply star_loop_total. intros y.
    unfold Opt. cbn [rmatch]. destruct (rmatch attr_value_re _ Some); discriminate. }
  destruct (rmatch attr_pattern _ Some); [discriminate | congruence].
Qed.

Lemma pieces_attr_has_hit s : forall prev,
  existsb is_word s = true -> hits (pieces attr_pattern prev s 0) <> [].
Proof.
  induction s as [|c s IH]; intros prev H; [discriminate H|].
  cbn [existsb] in H. cbn [pieces].
  destruct (match_at attr_pattern prev (c :: s)) as [m|] eqn:E; [discriminate|].
  destruct (is_word c) eqn:Ec.
  - exfalso. exact (match_attr_word prev c s Ec E).
  - cbn [orb] in H. cbn [hits]. apply IH. exact H.
Qed.

Lemma pieces_attr_no_hit s : forall prev,
  existsb is_word s = false -> hits (pieces attr_pattern prev s 0) = [].
Proof.
  induction s as [|c s IH]; intros prev H.
  - cbn [pieces]. rewrite (match_at_attr_prev prev None). reflexivity.
  - cbn [existsb] in H. apply orb_false_elim in H. destruct H as [Hc Hs].
    cbn [pieces]. rewrite match_attr_no_word by exact Hc. cbn [hits]. apply IH. exact Hs.
Qed.

Lemma map_res_length {A B : Type} (f : A -> res B) l bs :
  map_res f l = Ok bs -> length bs = length l.
Proof.
  revert bs. induction l as [|a l IH]; intros bs H; cbn [map_res] in H.
  - injection H as <-. reflexivity.
  - destruct (f a) as [b|e]; [|discriminate H]. cbn [bind] in H.
    destruct (map_res f l) as [bs'|e]; [|discriminate H]. cbn [bind] in H.
    injection H as <-. cbn [length]. f_equal. apply IH. reflexivity.
Qed.

Lemma space_is_separator c :
  is_space c = true ->
  is_word c = false /\ is_char "-" c = false /\ is_char "=" c = false.
Proof.
  destruct c as [[] [] [] [] [] [] [] []]; vm_compute; intros H;
    first [discriminate H | repeat split].
Qed.

(** The value part of the attribute pattern on [open text close] followed
    by more text. *)
Lemma quoted_value_match_rest (n : nat) (opening closing : ascii) (name text rest : str) :
  (n = 2 /\ opening = "{"%char /\ closing = "}"%char)
  \/ (n = 3 /\ opening = dq /\ closing = dq)
  \/ (n = 4 /\ opening = sq /\ closing = sq) ->
  forallb (not_char closing) text = true ->
  forall pr,
    succeeds (fun res => ms_rest res = rest
                         /\ ms_caps res = set_cap n text (set_cap 1 name []))
      (rmatch (Opt attr_value_re)
         (MState pr ("="%char :: opening :: text ++ closing :: rest) (set_cap 1 name []))
         Some).
Proof.
  intros Hform Htext pr.
  unfold Opt. cbn [rmatch]. apply succeeds_first.
  unfold attr_value_re, ch. cbn [rmatch ms_rest ms_caps].
  change (is_char "=" "=") with true. cbv iota.
  destruct Hform as [(-> & -> & ->) | [(-> & -> & ->) | (-> & -> & ->)]].
  - apply succeeds_first. cbn [Cat rmatch ms_rest ms_caps].
    change (is_char "{" "{") with true. cbv iota.
    apply star_class_max; [reflexivity | | exact Htext].
    intros pr'. unfold consumed. cbn [ms_rest ms_prev ms_caps].
    rewrite firstn_app_exact.
    change (is_char "}" "}") with true. cbv iota.
    eexists. split; [reflexivity|]. split; reflexivity.
  - cbn [Cat rmatch ms_rest ms_caps].
    change (is_char "{" dq) with false. cbv iota.
    apply succeeds_first.
    change (is_char dq dq) with true. cbv iota.
    apply star_class_max; [reflexivity | | exact Htext].
    intros pr'. unfold consumed. cbn [ms_rest ms_prev ms_caps].
    rewrite firstn_app_exact.
    change (is_char dq dq) with true. cbv iota.
    eexists. split; [reflexivity|]. split; reflexivity.
  - cbn [Cat rmatch ms_rest ms_caps].
    change (is_char "{" sq) with false. change (is_char dq sq) with false. cbv iota.
    change (is_char sq sq) with true. cbv iota.
    apply star_class_max; [reflexivity | | exact Htext].
    intros pr'. unfold consumed. cbn [ms_rest ms_prev ms_caps].
    rewrite firstn_app_exact.
    change (is_char sq sq) with true. cbv iota.
    eexists. split; [reflexivity|]. split; reflexivity.
Qed.

(** The scan of an attribute followed by a separator and more text: the
    attribute, then the attributes of the rest. *)
Lemma finditer_attr_head w segs tail sep rest caps :
  is_space sep = true ->
  stops is_word (tail ++ sep :: rest) = true ->
  stops (is_char "-") (tail ++ sep :: rest) = true ->
  is_words w = true -> forallb is_words segs = true ->
  (forall pr, succeeds (fun res => ms_rest res = sep :: rest /\ ms_caps res = caps)
     (rmatch (Opt attr_value_re)
        (MState pr (tail ++ sep :: rest) (set_cap 1 (attr_name_text w segs) [])) Some)) ->
  re_finditer attr_pattern (attr_name_text w segs ++ tail ++ sep :: rest)
  = Match (attr_name_text w segs ++ tail) caps :: re_finditer attr_pattern rest.
Proof.
  intros Hsep Hw Hh Hwords Hsegs Hk.
  assert (Hm : match_at attr_pattern None (attr_name_text w segs ++ tail ++ sep :: rest)
               = Some (Match (attr_name_text w segs ++ tail) caps)).
  { unfold match_at, attr_pattern.
    change (Cat [Group 1 attr_name_re; Opt attr_value_re])
      with (Seq (Group 1 attr_name_re) (Opt attr_value_re)).
    rewrite rmatch_seq.
    destruct (attr_name_group (fun res => ms_rest res = sep :: rest /\ ms_caps res = caps)
                (tail ++ sep :: rest) w segs None
                (fun st' => rmatch (Opt attr_value_re) st' Some)
                Hw Hh Hwords Hsegs Hk) as (res & -> & Hrest & Hcaps).
    rewrite Hrest, Hcaps. do 2 f_equal.
    rewrite (app_assoc (attr_name_text w segs) tail). apply firstn_app_exact. }
  unfold re_finditer.
  assert (Hne : exists c name', attr_name_text w segs = c :: name').
  { unfold is_words in Hwords. apply andb_prop in Hwords. destruct Hwords as [Hne _].
    destruct w as [|c w']; [discriminate Hne|]. exists c, (w' ++ hyphenated segs).
    reflexivity. }
  destruct Hne as (c & name' & Hname). rewrite Hname in *.
  cbn [app pieces] in *. rewrite Hm. cbn [m_text length hits]. f_equal.
  rewrite (app_assoc name' tail), pieces_skip.
  destruct (space_is_separator sep Hsep) as (Hnw & _ & _).
  cbn [pieces]. rewrite match_attr_no_word by exact Hnw. cbn [hits].
  rewrite (pieces_attr_prev _ None). reflexivity.
Qed.

Lemma attr_entries_head m ms s :
  re_finditer attr_pattern s = m :: ms ->
  attr_entries s = (e <- attr_entry m ;; es <- map_res attr_entry ms ;; Ok (e :: es)).
Proof. intros H. unfold attr_entries. rewrite H. reflexivity. Qed.

End Attributes.

(** X1.  One attribute with a value that is not empty, given to the
    attribute translator directly: a text between double or single quotes
    is emitted between single quotes, a text between braces is emitted as
    it is, under the key of the name ([class] and [for] renamed, a
    hyphenated name quoted). *)
Theorem attribute_with_value (w : str) (segs : list str) (text : str) :
  is_words w = true -> forallb is_words segs = true -> nonempty text = true ->
  let name := attr_name_text w segs in
  (forallb (not_char dq) text = true ->
   parse_attributes (name ++ lit "=" ++ [dq] ++ text ++ [dq])
   = Ok (lit "{ " ++ emitted_key name ++ lit ": '" ++ text ++ lit "' }"))
  /\ (forallb (not_char sq) text = true ->
      parse_attributes (name ++ lit "='" ++ text ++ lit "'")
      = Ok (lit "{ " ++ emitted_key name ++ lit ": '" ++ text ++ lit "' }"))
  /\ (forallb (not_char "}") text = true ->
      parse_attributes (name ++ lit "={" ++ text ++ lit "}")
      = Ok (lit "{ " ++ emitted_key name ++ lit ": " ++ text ++ lit " }")).
Proof. exact (single_attribute_value w segs text). Qed.

Lemma attribute_with_value_witness :
  parse_attributes (lit "aria-label=" ++ [dq] ++ lit "it's" ++ [dq])
  = Ok (lit "{ 'aria-label': 'it's' }")
  /\ parse_attributes (lit "class='btn big'") = Ok (lit "{ className: 'btn big' }")
  /\ parse_attributes (lit "for={id + 1}") = Ok (lit "{ htmlFor: id + 1 }").
Proof.
  split; [|split].
  - apply (proj1 (attribute_with_value (lit "aria") [lit "label"] (lit "it's")
                    eq_refl eq_refl eq_refl)). reflexivity.
  - apply (proj1 (proj2 (attribute_with_value (lit "class") [] (lit "btn big")
                           eq_refl eq_refl eq_refl))). reflexivity.
  - apply (proj2 (proj2 (attribute_with_value (lit "for") [] (lit "id + 1")
                           eq_refl eq_refl eq_refl))). reflexivity.
Defined.

(** X2.  The attribute translator returns [null] exactly on the texts that
    contain no word character; on every other text it returns a mapping
    literal with at least one entry. *)
Theorem parse_attributes_null_iff (attrs_str : str) :
  (parse_attributes attrs_str = Ok (lit "null") <-> existsb is_word attrs_str = false)
  /\ (existsb is_word attrs_str = true ->
      exists entry entries,
        parse_attributes attrs_str
        = Ok (lit "{ " ++ join (lit ", ") (entry :: entries) ++ lit " }")).
Proof.
  assert (Hsome : existsb is_word attrs_str = true ->
            exists entry entries,
              parse_attributes attrs_str
              = Ok (lit "{ " ++ join (lit ", ") (entry :: entries) ++ lit " }")).
  { intros H. rewrite parse_attributes_loop.
    destruct (proj1 (existsb_exists _ _) H) as (c & Hin & Hc).
    rewrite (strip_nonempty attrs_str c Hin (word_not_space c Hc)). cbn [negb].
    unfold attr_entries.
    destruct (map_res_total attr_entry (re_finditer attr_pattern attrs_str)) as [bs Hbs].
    { intros m Hm. apply hits_pieces in Hm. destruct Hm as (prev & s & Hm).
      eapply attr_entry_total; eauto. }
    rewrite Hbs. cbn [bind].
    pose proof (map_res_length _ _ _ Hbs) as Hlen.
    pose proof (pieces_attr_has_hit attrs_str None H) as Hhit.
    unfold re_finditer in Hlen.
    destruct bs as [|b bs]; [|eauto].
    destruct (hits _); [congruence | discriminate Hlen]. }
  split; [split|exact Hsome].
  - intros H. destruct (existsb is_word attrs_str) eqn:E; [|reflexivity].
    destruct (Hsome eq_refl) as (entry & entries & Heq).
    rewrite Heq in H. discriminate H.
  - intros H. rewrite parse_attributes_loop.
    destruct (negb _); [reflexivity|].
    unfold attr_entries, re_finditer. rewrite pieces_attr_no_hit by exact H.
    reflexivity.
Qed.

Lemma parse_attributes_null_iff_witness :
  parse_attributes (lit " = '' {} ") = Ok (lit "null")
  /\ exists entry entries,
       parse_attributes (lit " = x ")
       = Ok (lit "{ " ++ join (lit ", ") (entry :: entries) ++ lit " }").
Proof.
  split.
  - apply (proj2 (proj1 (parse_attributes_null_iff (lit " = '' {} ")))). reflexivity.
  - apply (proj2 (parse_attributes_null_iff (lit " = x "))). reflexivity.
Defined.

(** X3.  The entries follow the attributes from left to right.  For an
    attribute list that starts with one attribute (without a value, or
    with a non-empty value between double quotes, single quotes or braces)
    followed by a whitespace character, the loop of the translator yields
    the entry of that attribute and then the entries of the rest of the
    list. *)
Theorem attr_entries_prepend (w : str) (segs : list str) (text : str) (sep : ascii)
    (rest : str) :
  is_words w = true -> forallb is_words segs = true ->
  nonempty text = true -> is_space sep = true ->
  let name := attr_name_text w segs in
  let followed entry := (entries <- attr_entries rest ;; Ok (entry :: entries)) in
  attr_entries (name ++ sep :: rest)
  = followed (emitted_key name ++ lit ": true")
  /\ (forallb (not_char dq) text = true ->
      attr_entries (name ++ lit "=" ++ [dq] ++ text ++ [dq] ++ sep :: rest)
      = followed (emitted_key name ++ lit ": '" ++ text ++ lit "'"))
  /\ (forallb (not_char sq) text = true ->
      attr_entries (name ++ lit "='" ++ text ++ lit "'" ++ sep :: rest)
      = followed (emitted_key name ++ lit ": '" ++ text ++ lit "'"))
  /\ (forallb (not_char "}") text = true ->
      attr_entries (name ++ lit "={" ++ text ++ lit "}" ++ sep :: rest)
      = followed (emitted_key name ++ lit ": " ++ text)).
Proof.
  intros Hw Hs Hne Hsep name followed. subst name followed.
  destruct (space_is_separator sep Hsep) as (Hnw & Hnh & Hneq).
  destruct text as [|c text]; [discriminate|].
  assert (Hentry : forall tail caps,
            get_cap 1 caps = Some (attr_name_text w segs) ->
            re_finditer attr_pattern (attr_name_text w segs ++ tail ++ sep :: rest)
            = Match (attr_name_text w segs ++ tail) caps :: re_finditer attr_pattern rest ->
            attr_entries (attr_name_text w segs ++ tail ++ sep :: rest)
            = (entries <- attr_entries rest ;;
               Ok ((emitted_key (attr_name_text w segs) ++ lit ": "
                    ++ attr_value (Match (attr_name_text w segs ++ tail) caps))
                   :: entries))).
  { intros tail caps H1 Hf. rewrite (attr_entries_head _ _ _ Hf).
    unfold attr_entry. rewrite (attr_name_of _ _ caps H1). reflexivity. }
  split; [|split; [|split]]; [|intros Htext..].
  - etransitivity.
    { apply (Hentry [] [None; Some (attr_name_text w segs)]); [reflexivity|].
      apply finditer_attr_head; try assumption.
      + cbn [app stops]. rewrite Hnw. reflexivity.
      + cbn [app stops]. rewrite Hnh. reflexivity.
      + intros pr. cbn [app]. unfold Opt, attr_value_re, ch. cbn [rmatch ms_rest].
        rewrite Hneq. eexists. split; [reflexivity|]. split; reflexivity. }
    reflexivity.
  - replace (attr_name_text w segs ++ lit "=" ++ [dq] ++ (c :: text) ++ [dq] ++ sep :: rest)
      with (attr_name_text w segs ++ ("="%char :: dq :: (c :: text) ++ [dq]) ++ sep :: rest)
      by (f_equal; cbn [lit String.list_ascii_of_string app];
          rewrite <- ?app_assoc; reflexivity).
    etransitivity.
    { apply (Hentry ("="%char :: dq :: (c :: text) ++ [dq])
               (set_cap 3 (c :: text) (set_cap 1 (attr_name_text w segs) [])));
        [reflexivity|].
      apply finditer_attr_head; try assumption; try reflexivity.
      intros pr. cbn [app]. rewrite <- app_assoc.
      apply (quoted_value_match_rest 3 dq dq); [tauto | exact Htext]. }
    unfold attr_value. cbn -[emitted_key attr_name_text attr_entries].
    rewrite <- ?app_assoc. reflexivity.
  - replace (attr_name_text w segs ++ lit "='" ++ (c :: text) ++ lit "'" ++ sep :: rest)
      with (attr_name_text w segs ++ ("="%char :: sq :: (c :: text) ++ [sq]) ++ sep :: rest)
      by (f_equal; cbn [lit String.list_ascii_of_string app];
          rewrite <- ?app_assoc; reflexivity).
    etransitivity.
    { apply (Hentry ("="%char :: sq :: (c :: text) ++ [sq])
               (set_cap 4 (c :: text) (set_cap 1 (attr_name_text w segs) [])));
        [reflexivity|].
      apply finditer_attr_head; try assumption; try reflexivity.
      intros pr. cbn [app]. rewrite <- app_assoc.
      apply (quoted_value_match_rest 4 sq sq); [tauto | exact Htext]. }
    unfold attr_value. cbn -[emitted_key attr_name_text attr_entries].
    rewrite <- ?app_assoc. reflexivity.
  - replace (attr_name_text w segs ++ lit "={" ++ (c :: text) ++ lit "}" ++ sep :: rest)
      with (attr_name_text w segs ++ ("="%char :: "{"%char :: (c :: text) ++ ["}"%char]) ++ sep :: rest)
      by (f_equal; cbn [lit String.list_ascii_of_string app];
          rewrite <- ?app_assoc; reflexivity).
    etransitivity.
    { apply (Hentry ("="%char :: "{"%char :: (c :: text) ++ ["}"%char])
               (set_cap 2 (c :: text) (set_cap 1 (attr_name_text w segs) [])));
        [reflexivity|].
      apply finditer_attr_head; try assumption; try reflexivity.
      intros pr. cbn [app]. rewrite <- app_assoc.
      apply (quoted_value_match_rest 2 "{" "}"); [tauto | exact Htext]. }
    unfold attr_value. cbn -[emitted_key attr_name_text attr_entries].
    rewrite <- ?app_assoc. reflexivity.
Qed.

Lemma attr_entries_prepend_witness :
  attr_entries (lit "hidden id='x' data-k={v} class")
  = Ok [lit "hidden: true"; lit "id: 'x'"; lit "'data-k': v"; lit "className: true"].
Proof.
  exact (proj1 (attr_entries_prepend (lit "hidden") [] (lit "x") " "
                  (lit "id='x' data-k={v} class") eq_refl eq_refl eq_refl eq_refl)).
Defined.

(** X11.  No deduplication: an attribute name written twice is emitted
    twice, in order, under the same key. *)
Theorem repeated_attribute_emitted_twice (w : str) (segs : list str) :
  is_words w = true -> forallb is_words segs = true ->
  let name := attr_name_text w segs in
  parse_attributes (name ++ lit " " ++ name)
  = Ok (lit "{ " ++ emitted_key name ++ lit ": true, "
        ++ emitted_key name ++ lit ": true }").
Proof.
  intros Hw Hs name. subst name.
  rewrite parse_attributes_loop.
  rewrite attr_name_text_strip by exact Hw. cbn [negb].
  assert (H2 : re_finditer attr_pattern (attr_name_text w segs)
               = [Match (attr_name_text w segs) [None; Some (attr_name_text w segs)]]).
  { pose proof (finditer_one_attr w segs [] [None; Some (attr_name_text w segs)]) as F.
    rewrite app_nil_r in F. apply F; try reflexivity; try assumption.
    intros pr. eexists. split; [reflexivity|]. split; reflexivity. }
  assert (H1 : re_finditer attr_pattern
                 (attr_name_text w segs ++ [] ++ " "%char :: attr_name_text w segs)
               = Match (attr_name_text w segs ++ []) [None; Some (attr_name_text w segs)]
                 :: re_finditer attr_pattern (attr_name_text w segs)).
  { apply finditer_attr_head; try reflexivity; try assumption.
    intros pr. eexists. split; [reflexivity|]. split; reflexivity. }
  cbn [app] in H1. rewrite H2 in H1.
  unfold attr_entries. cbn [lit String.list_ascii_of_string app]. rewrite H1.
  cbn [map_res]. unfold attr_entry.
  rewrite !(attr_name_of (attr_name_text w segs) _
              [None; Some (attr_name_text w segs)] eq_refl).
  cbn [bind join]. unfold attr_value. cbn [group m_caps get_cap nth truthy].
  cbn [lit String.list_ascii_of_string app].
  repeat (rewrite <- app_assoc; cbn [app]). reflexivity.
Qed.

Lemma repeated_attribute_emitted_twice_witness :
  parse_attributes (lit "class class") = Ok (lit "{ className: true, className: true }").
Proof.
  exact (repeated_attribute_emitted_twice (lit "class") [] eq_refl eq_refl).
Defined.

(** X12.  What the pipeline does to an attribute between braces, for
    every expression without braces: the protection pass has replaced the
    expression before the attributes are read, so the attribute comes out
    with the value [true] and the expression comes back as a key of its
    own. *)
Theorem pipeline_brace_attribute (expr : str) :
  brace_free expr = true ->
  convert_jsx_to_createElement (lit "return <Input value={" ++ expr ++ lit "} />;")
  = Ok (lit "return React.createElement('Input', { value: true, {" ++ expr
        ++ lit "}: true });").
Proof. exact (pipeline_masks_any_expression expr). Qed.

Lemma pipeline_brace_attribute_witness :
  convert_jsx_to_createElement (lit "return <Input value={user.name + 1} />;")
  = Ok (lit "return React.createElement('Input', { value: true, {user.name + 1}: true });").
Proof. apply (pipeline_brace_attribute (lit "user.name + 1")). reflexivity. Defined.

(* ------------------------------------------------------------------ *)
(** ** Further properties: an inline return through the whole pipeline *)

Section InlineReturn.

Lemma space_facts c :
  is_space c = true -> not_brace c = true /\ is_char "r" c = false.
Proof.
  destruct c as [[] [] [] [] [] [] [] []]; vm_compute; intros H;
    first [discriminate H | split; reflexivity].
Qed.

Lemma word_facts c :
  is_word c = true ->
  not_brace c = true /\ not_char ";" c = true /\ is_char nl c = false.
Proof.
  destruct c as [[] [] [] [] [] [] [] []]; vm_compute; intros H;
    first [discriminate H | repeat split].
Qed.

Lemma forallb_impl {A : Type} (p q : A -> bool) l :
  (forall x, p x = true -> q x = true) -> forallb p l = true -> forallb q l = true.
Proof.
  intros Hpq. induction l as [|a l IH]; intros H; [reflexivity|].
  cbn [forallb] in *. apply andb_prop in H. destruct H as [Ha Hl].
  rewrite (Hpq a Ha), (IH Hl). reflexivity.
Qed.

(** A greedy run stopped at once, before a rest of the pattern that fails,
    fails. *)
Lemma star_stop_none p tail caps k prev :
  stops p tail = true -> k (MState prev tail caps) = None ->
  rmatch (Star true (Chr p)) (MState prev tail caps) k = None.
Proof.
  intros Hstop Hk. rewrite rmatch_star. cbv zeta. rewrite rmatch_chr.
  cbn [ms_rest ms_caps]. rewrite Hk.
  destruct tail as [|c tail']; [reflexivity|].
  cbn [stops] in Hstop. apply negb_true_iff in Hstop. rewrite Hstop. reflexivity.
Qed.

(** A greedy run that no continuation accepts, at any point, fails. *)
Lemma star_class_none p tail caps k :
  stops p tail = true ->
  (forall w2 pr, forallb p w2 = true -> k (MState pr (w2 ++ tail) caps) = None) ->
  forall w prev, forallb p w = true ->
    rmatch (Star true (Chr p)) (MState prev (w ++ tail) caps) k = None.
Proof.
  intros Hstop Hk. induction w as [|c w IH]; intros prev Hw.
  - apply star_stop_none; [exact Hstop | apply (Hk [] prev eq_refl)].
  - rewrite rmatch_star. cbv zeta. rewrite rmatch_chr. cbn [ms_rest ms_caps app].
    pose proof Hw as Hw'. cbn [forallb] in Hw. apply andb_prop in Hw.
    destruct Hw as [Hc Hw]. rewrite Hc. cbn [ms_rest].
    replace (length (w ++ tail) <? length (c :: w ++ tail)) with true
      by (symmetry; apply Nat.ltb_lt; simpl; lia).
    rewrite (IH (Some c) Hw). apply (Hk (c :: w) prev Hw').
Qed.

(** A greedy run that goes one character too far for the rest of the
    pattern gives that character back. *)
Lemma star_class_back p Q tail caps k c :
  stops p tail = true -> p c = true ->
  (forall pr, k (MState pr tail caps) = None) ->
  (forall pr, succeeds Q (k (MState pr (c :: tail) caps))) ->
  forall w prev, forallb p w = true ->
    succeeds Q (rmatch (Star true (Chr p)) (MState prev (w ++ c :: tail) caps) k).
Proof.
  intros Hstop Hc Hnone Hsome. induction w as [|a w IH]; intros prev Hw;
    rewrite rmatch_star; cbv zeta; rewrite rmatch_chr; cbn [ms_rest ms_caps app].
  - rewrite Hc. cbn [ms_rest].
    replace (length tail <? length (c :: tail)) with true
      by (symmetry; apply Nat.ltb_lt; simpl; lia).
    rewrite (star_stop_none p tail caps k (Some c) Hstop (Hnone (Some c))).
    apply Hsome.
  - cbn [forallb] in Hw. apply andb_prop in Hw. destruct Hw as [Ha Hw].
    rewrite Ha. cbn [ms_rest]. apply succeeds_first.
    replace (length (w ++ c :: tail) <? length (a :: w ++ c :: tail)) with true
      by (symmetry; apply Nat.ltb_lt; simpl; lia).
    apply IH. exact Hw.
Qed.

Lemma return_block_re_start :
  return_block_re = Seq Bol (Seq (Group 1 (Star true (Chr is_space))) return_block_tail).
Proof. reflexivity. Qed.

Lemma return_inline_re_start :
  return_inline_re = Seq Bol (Seq (Group 1 (Star true (Chr is_space))) return_inline_tail).
Proof. reflexivity. Qed.

Lemma rmatch_bol st k :
  rmatch Bol st k
  = match ms_prev st with
    | None => k st
    | Some c => if is_char nl c then k st else None
    end.
Proof. reflexivity. Qed.

Lemma rmatch_group n a st k :
  rmatch (Group n a) st k
  = rmatch a st (fun st' =>
      k (MState (ms_prev st') (ms_rest st') (set_cap n (consumed st st') (ms_caps st')))).
Proof. reflexivity. Qed.

(** A pattern that starts with [^] matches nowhere inside a line. *)
Lemma match_at_inside_line r c s :
  is_char nl c = false -> match_at (Seq Bol r) (Some c) s = None.
Proof.
  intros H. unfold match_at. rewrite rmatch_seq, rmatch_bol. cbn [ms_prev].
  rewrite H. reflexivity.
Qed.

Lemma pieces_inside_line r s : forall c,
  is_char nl c = false -> has_char nl s = false ->
  pieces (Seq Bol r) (Some c) s 0 = map Keep s.
Proof.
  induction s as [|a s IH]; intros c Hc Hs; cbn [pieces];
    rewrite (match_at_inside_line r c _ Hc); [reflexivity|].
  cbn [has_char existsb] in Hs. apply orb_false_elim in Hs. destruct Hs as [Ha Hs].
  cbn [map]. f_equal. apply IH; assumption.
Qed.

(** The block pattern does not match a statement without a parenthesis,
    wherever it starts in the whitespace before it. *)
Lemma block_fails_before_statement tag ws prev :
  forallb is_space ws = true ->
  match_at return_block_re prev (ws ++ inline_statement tag) = None.
Proof.
  intros Hws. unfold match_at.
  assert (H : rmatch return_block_re (MState prev (ws ++ inline_statement tag) []) Some
              = None).
  { rewrite return_block_re_start, rmatch_seq, rmatch_bol. cbn [ms_prev].
    assert (Hk : rmatch (Seq (Group 1 (Star true (Chr is_space))) return_block_tail)
                   (MState prev (ws ++ inline_statement tag) []) Some = None).
    { rewrite rmatch_seq, rmatch_group.
      apply star_class_none; [reflexivity | | exact Hws].
      intros w2 pr Hw2. cbn [ms_prev ms_rest ms_caps].
      destruct w2 as [|c w2].
      - reflexivity.
      - cbn [forallb] in Hw2. apply andb_prop in Hw2. destruct Hw2 as [Hc _].
        destruct (space_facts c Hc) as [_ Hr].
        unfold return_block_tail. cbn [Cat Lit lit String.list_ascii_of_string map app].
        rewrite !rmatch_seq, rmatch_chr. cbn [ms_rest]. rewrite Hr. reflexivity. }
    destruct prev as [c|]; [destruct (is_char nl c)|]; first [exact Hk | reflexivity]. }
  rewrite H. reflexivity.
Qed.

Lemma words_no_newline tag : forallb is_word tag = true -> has_char nl tag = false.
Proof.
  induction tag as [|c tag IH]; intros H; [reflexivity|].
  cbn [forallb] in H. apply andb_prop in H. destruct H as [Hc Ht].
  cbn [has_char existsb]. fold (has_char nl tag). rewrite (IH Ht), orb_false_r.
  destruct (word_facts c Hc) as (_ & _ & Hnl). exact Hnl.
Qed.

(** The block pass finds nothing in an inline statement and the whitespace
    before it. *)
Lemma pieces_block_inline tag ws :
  forallb is_space ws = true -> forallb is_word tag = true ->
  forall prev,
    pieces return_block_re prev (ws ++ inline_statement tag) 0
    = map Keep (ws ++ inline_statement tag).
Proof.
  intros Hws Htag. induction ws as [|c ws IH]; intros prev.
  - pose proof (block_fails_before_statement tag [] prev eq_refl) as Hm.
    assert (Hst : inline_statement tag = "r"%char :: (lit "eturn <" ++ tag ++ lit "/>;"))
      by reflexivity.
    assert (Hnl : has_char nl (lit "eturn <" ++ tag ++ lit "/>;") = false).
    { unfold has_char. rewrite !existsb_app.
      fold (has_char nl tag). rewrite (words_no_newline tag Htag). reflexivity. }
    cbn [app] in *. rewrite Hst in *.
    remember (lit "eturn <" ++ tag ++ lit "/>;") as line eqn:Hline. clear Hline.
    cbn [pieces]. rewrite Hm. cbn [map]. f_equal.
    rewrite return_block_re_start. apply pieces_inside_line; [reflexivity | exact Hnl].
  - pose proof (block_fails_before_statement tag (c :: ws) prev Hws) as Hm.
    cbn [forallb] in Hws. apply andb_prop in Hws. destruct Hws as [_ Hws].
    cbn [app] in *. cbn [pieces]. rewrite Hm. cbn [map]. f_equal. apply IH. exact Hws.
Qed.

(** A text that starts and ends with characters that are not whitespace is
    its own trimming. *)
Lemma strip_fixed_ends c s d :
  is_space c = false -> is_space d = false -> strip (c :: s ++ [d]) = c :: s ++ [d].
Proof.
  intros Hc Hd. unfold strip. rewrite lstrip_fixed by exact Hc. unfold rstrip.
  change (c :: s ++ [d]) with ((c :: s) ++ [d]).
  rewrite rev_app_distr. cbn [rev app]. rewrite lstrip_fixed by exact Hd.
  cbn [rev]. rewrite rev_app_distr, rev_involutive. reflexivity.
Qed.

Lemma rmatch_sos st k :
  rmatch Sos st k = match ms_prev st with None => k st | Some _ => None end.
Proof. reflexivity. Qed.

(** The self-closing pattern on a tag without attributes. *)
Lemma self_closing_bare_match tag :
  is_words tag = true ->
  re_match self_closing_re ("<"%char :: tag ++ lit "/>")
  = Some (Match ("<"%char :: tag ++ lit "/>") [None; Some tag; Some []]).
Proof.
  intros Htag. unfold is_words in Htag. apply andb_prop in Htag.
  destruct Htag as [Hne Hw].
  assert (Hs : succeeds (fun res => ms_rest res = []
                                    /\ ms_caps res = [None; Some tag; Some []])
                 (rmatch self_closing_re (MState None ("<"%char :: tag ++ lit "/>") [])
                    Some)).
  { unfold self_closing_re. cbn [Cat]. rewrite rmatch_seq, rmatch_sos. cbn [ms_prev].
    rewrite rmatch_seq. unfold ch at 1. rewrite rmatch_chr. cbn [ms_rest ms_caps].
    change (is_char "<" "<") with true. cbv iota.
    rewrite rmatch_seq, rmatch_group.
    apply plus_class_max; [reflexivity | | exact Hne | exact Hw].
    intros pr. unfold consumed. cbn [ms_rest ms_prev ms_caps].
    rewrite firstn_app_exact.
    eexists. split; [reflexivity|]. split; reflexivity. }
  destruct Hs as (res & Hres & Hrest & Hcaps).
  unfold re_match, match_at. rewrite Hres, Hrest, Hcaps.
  change (length (@nil ascii)) with 0. rewrite Nat.sub_0_r, firstn_all. reflexivity.
Qed.

(** The element converter on a self-closing tag without attributes. *)
Lemma convert_bare_self_closing tag indent :
  is_words tag = true ->
  convert_jsx_element ("<"%char :: tag ++ lit "/>") indent
  = Ok (lit "React.createElement('" ++ tag ++ lit "', null)").
Proof.
  intros Htag. unfold convert_jsx_element.
  assert (Hstrip : strip ("<"%char :: tag ++ lit "/>") = "<"%char :: tag ++ lit "/>").
  { change (lit "/>") with (["/"%char] ++ [">"%char]). rewrite app_assoc.
    apply strip_fixed_ends; reflexivity. }
  rewrite Hstrip, (self_closing_bare_match tag Htag). reflexivity.
Qed.

Ltac eat_char :=
  rewrite ?rmatch_seq; rewrite rmatch_chr; cbn [ms_rest ms_caps];
  match goal with
  | |- context [if is_char ?a ?b then _ else _] => change (is_char a b) with true
  end; cbv iota.

(** The inline pattern, after the indentation, on an inline statement. *)
Lemma inline_tail_match tag caps pr :
  is_words tag = true ->
  succeeds (fun res => ms_rest res = []
                       /\ ms_caps res = set_cap 2 ("<"%char :: tag ++ lit "/>") caps)
    (rmatch return_inline_tail (MState pr (inline_statement tag) caps) Some).
Proof.
  intros Htag. unfold is_words in Htag. apply andb_prop in Htag.
  destruct Htag as [Hne Hw]. destruct tag as [|t tag]; [discriminate Hne|].
  cbn [forallb] in Hw. apply andb_prop in Hw. destruct Hw as [Ht Hw].
  unfold return_inline_tail, inline_statement, Lit, Plus, space, ch, nch.
  cbn [lit String.list_ascii_of_string map Cat app].
  do 6 eat_char.
  rewrite !rmatch_seq, rmatch_chr. cbn [ms_rest ms_caps].
  change (is_space " ") with true. cbv iota.
  rewrite rmatch_star. cbv zeta. rewrite rmatch_chr. cbn [ms_rest ms_caps].
  change (is_space "<") with false. cbv iota.
  rewrite rmatch_seq, rmatch_group. eat_char.
  rewrite !rmatch_seq, rmatch_chr. cbn [ms_rest ms_caps].
  destruct (word_facts t Ht) as (_ & Hsemi & _). rewrite Hsemi.
  assert (Hassoc : tag ++ ["/"%char; ">"%char; ";"%char]
                   = (tag ++ ["/"%char]) ++ ">"%char :: [";"%char])
    by (rewrite <- app_assoc; reflexivity).
  rewrite Hassoc.
  apply star_class_back.
  - reflexivity.
  - reflexivity.
  - intros pr'. reflexivity.
  - intros pr'. rewrite rmatch_chr. cbn [ms_rest ms_caps ms_prev].
    change (is_char ">" ">") with true. cbv iota.
    rewrite rmatch_chr. cbn [ms_rest ms_caps ms_prev].
    change (is_char ";" ";") with true. cbv iota.
    unfold consumed. cbn [ms_rest].
    assert (Hsplit : "<"%char :: t :: (tag ++ ["/"%char]) ++ [">"%char; ";"%char]
                     = ("<"%char :: t :: tag ++ ["/"%char; ">"%char]) ++ [";"%char])
      by (cbn [app]; rewrite <- !app_assoc; reflexivity).
    rewrite Hsplit, firstn_app_exact.
    eexists. split; [reflexivity|]. split; reflexivity.
  - rewrite forallb_app, (forallb_impl is_word (not_char ";") tag); [reflexivity | | exact Hw].
    intros x Hx. apply (word_facts x Hx).
Qed.

(** The inline pattern matches the whole of an inline statement with its
    indentation. *)
Lemma inline_match indent tag :
  forallb is_space indent = true -> is_words tag = true ->
  match_at return_inline_re None (indent ++ inline_statement tag)
  = Some (Match (indent ++ inline_statement tag)
            [None; Some indent; Some ("<"%char :: tag ++ lit "/>")]).
Proof.
  intros Hind Htag.
  assert (Hs : succeeds (fun res => ms_rest res = []
                 /\ ms_caps res = [None; Some indent; Some ("<"%char :: tag ++ lit "/>")])
                 (rmatch return_inline_re
                    (MState None (indent ++ inline_statement tag) []) Some)).
  { rewrite return_inline_re_start, rmatch_seq, rmatch_bol. cbn [ms_prev].
    rewrite rmatch_seq, rmatch_group.
    apply star_class_max; [reflexivity | | exact Hind].
    intros pr. unfold consumed. cbn [ms_rest ms_prev ms_caps].
    rewrite firstn_app_exact.
    apply (inline_tail_match tag (set_cap 1 indent []) pr Htag). }
  destruct Hs as (res & Hres & Hrest & Hcaps).
  unfold match_at. rewrite Hres, Hrest, Hcaps.
  change (length (@nil ascii)) with 0. rewrite Nat.sub_0_r, firstn_all. reflexivity.
Qed.

(** The inline pass replaces the statement and nothing else. *)
Lemma pieces_inline indent tag :
  forallb is_space indent = true -> is_words tag = true ->
  pieces return_inline_re None (indent ++ inline_statement tag) 0
  = [Hit (Match (indent ++ inline_statement tag)
            [None; Some indent; Some ("<"%char :: tag ++ lit "/>")])].
Proof.
  intros Hind Htag. pose proof (inline_match indent tag Hind Htag) as Hm.
  remember (indent ++ inline_statement tag) as s eqn:Es.
  destruct s as [|c s].
  - destruct indent; discriminate Es.
  - cbn [pieces]. rewrite Hm. cbn [m_text length]. f_equal.
    rewrite <- (app_nil_r s) at 1. rewrite pieces_skip. cbn [pieces].
    destruct (last_char (Some c) s) as [d|]; [unfold match_at|reflexivity].
    rewrite return_inline_re_start, rmatch_seq, rmatch_bol. cbn [ms_prev].
    destruct (is_char nl d); reflexivity.
Qed.

End InlineReturn.

Lemma orig_only_keeps l : orig (map Keep l) = l.
Proof. rewrite <- (app_nil_r (map Keep l)), orig_keeps. apply app_nil_r. Qed.

(** X13.  The whole pipeline on an inline return of a self-closing element
    without attributes: for every indentation (any run of whitespace) and
    every tag name (a run of word characters), the statement is rewritten
    in place to the call with the tag and [null], with the same
    indentation before it. *)
Theorem inline_self_closing_converted (indent tag : str) :
  forallb is_space indent = true -> is_words tag = true ->
  convert_jsx_to_createElement (indent ++ lit "return <" ++ tag ++ lit "/>;")
  = Ok (indent ++ lit "return React.createElement('" ++ tag ++ lit "', null);").
Proof.
  intros Hind Htag.
  change (indent ++ lit "return <" ++ tag ++ lit "/>;")
    with (indent ++ inline_statement tag).
  assert (Hw : forallb is_word tag = true)
    by (unfold is_words in Htag; apply andb_prop in Htag; tauto).
  assert (Hbf : forallb not_brace (indent ++ inline_statement tag) = true).
  { unfold inline_statement. rewrite !forallb_app.
    rewrite (forallb_impl is_space not_brace indent (fun x Hx => proj1 (space_facts x Hx)) Hind).
    rewrite (forallb_impl is_word not_brace tag (fun x Hx => proj1 (word_facts x Hx)) Hw).
    reflexivity. }
  unfold convert_jsx_to_createElement. rewrite protect_spec.
  rewrite (pieces_no_brace _ None Hbf).
  unfold texts. rewrite hits_only_keeps, prot_only_keeps. cbn [map bind].
  unfold re_sub at 1. rewrite (pieces_block_inline tag indent Hind Hw None).
  rewrite sub_pieces_no_hit by apply hits_only_keeps.
  rewrite orig_only_keeps. cbn [bind].
  unfold re_sub. rewrite (pieces_inline indent tag Hind Htag).
  cbn [sub_pieces]. unfold convert_inline_return.
  cbn [group m_caps get_cap nth strip_of add_of bind].
  assert (Hstrip : strip ("<"%char :: tag ++ lit "/>") = "<"%char :: tag ++ lit "/>").
  { change (lit "/>") with (["/"%char] ++ [">"%char]). rewrite app_assoc.
    apply strip_fixed_ends; reflexivity. }
  rewrite Hstrip, (convert_bare_self_closing tag _ Htag).
  cbn [bind fmt restore]. rewrite app_nil_r.
  f_equal. cbn [lit String.list_ascii_of_string app].
  repeat (rewrite <- app_assoc; cbn [app]). reflexivity.
Qed.

Lemma inline_self_closing_converted_witness :
  convert_jsx_to_createElement ([nl] ++ lit "    return <Spinner/>;")
  = Ok ([nl] ++ lit "    return React.createElement('Spinner', null);").
Proof.
  exact (inline_self_closing_converted ([nl] ++ lit "    ") (lit "Spinner") eq_refl eq_refl).
Defined.

(** X14.  An expression between braces as the child of an element, through
    the whole pipeline, for every expression without braces: it is
    protected, quoted with the other children, and restored inside the
    quotes, so it comes out as text between single quotes, braces
    included.  (The element is converted with the indentation of the
    statement plus two spaces, hence the four and two spaces.) *)
Theorem pipeline_brace_child (expr : str) :
  brace_free expr = true ->
  convert_jsx_to_createElement (lit "return <p>{" ++ expr ++ lit "}</p>;")
  = Ok (lit "return React.createElement(" ++ [nl] ++ lit "    'p'," ++ [nl]
        ++ lit "    null," ++ [nl] ++ lit "    '{" ++ expr ++ lit "}'" ++ [nl]
        ++ lit "  );").
Proof.
  intros H. unfold convert_jsx_to_createElement.
  change (lit "return <p>{" ++ expr ++ lit "}</p>;")
    with (lit "return <p>" ++ "{"%char :: expr ++ "}"%char :: lit "</p>;").
  rewrite protect_one_span by first [reflexivity | exact H].
  cbn [bind].
  assert (E1 : re_sub return_block_re convert_return_jsx tt
                 (lit "return <p>" ++ placeholder 0 ++ lit "</p>;")
               = Ok (tt, lit "return <p>__PROTECTED_0__</p>;"))
    by (vm_compute; reflexivity).
  rewrite E1. cbn [bind].
  assert (E2 : re_sub return_inline_re convert_inline_return tt
                 (lit "return <p>__PROTECTED_0__</p>;")
               = Ok (tt, lit "return React.createElement(" ++ [nl] ++ lit "    'p'," ++ [nl]
                         ++ lit "    null," ++ [nl] ++ lit "    '__PROTECTED_0__'" ++ [nl]
                         ++ lit "  );"))
    by (vm_compute; reflexivity).
  rewrite E2. cbn [bind]. f_equal.
  cbn [restore]. unfold replace, placeholder.
  cbn [lit String.list_ascii_of_string app dec replace_from starts_with length Nat.sub
       Ascii.eqb Bool.eqb andb nl].
  rewrite <- ?app_assoc. reflexivity.
Qed.

Lemma pipeline_brace_child_witness :
  convert_jsx_to_createElement (lit "return <p>{count + 1}</p>;")
  = Ok (lit "return React.createElement(" ++ [nl] ++ lit "    'p'," ++ [nl]
        ++ lit "    null," ++ [nl] ++ lit "    '{count + 1}'" ++ [nl] ++ lit "  );").
Proof. apply (pipeline_brace_child (lit "count + 1")). reflexivity. Defined.

(* ------------------------------------------------------------------ *)
(** ** Further properties: buffers without a return statement *)

Section NoReturn.

Lemma contains_intro w a b : contains w (a ++ w ++ b) = true.
Proof.
  induction a as [|c a IH]; cbn [app].
  - destruct (w ++ b) eqn:E; cbn [contains].
    + destruct w; [reflexivity | discriminate E].
    + rewrite <- E, starts_with_app. reflexivity.
  - rewrite contains_step, IH. apply orb_true_r.
Qed.

Lemma contains_app_mono w a s : contains w s = true -> contains w (a ++ s) = true.
Proof.
  intros H. induction a as [|c a IH]; [exact H|].
  cbn [app]. rewrite contains_step, IH. apply orb_true_r.
Qed.

(** Text that starts a protected buffer and has no underscore starts the
    original buffer too. *)
Lemma starts_with_prot_orig w : forall ps k,
  has_char "_" w = false ->
  starts_with w (prot k ps) = true -> starts_with w (orig ps) = true.
Proof.
  induction w as [|a w IH]; intros ps k Hw H; [reflexivity|].
  cbn [has_char existsb] in Hw. apply orb_false_elim in Hw. destruct Hw as [Ha Hw].
  destruct ps as [|[c|m] ps].
  - discriminate H.
  - cbn [prot orig starts_with] in *. apply andb_prop in H. destruct H as [-> H].
    apply (IH ps k Hw H).
  - exfalso. cbn [prot] in H. unfold placeholder in H.
    cbn [lit String.list_ascii_of_string app starts_with] in H.
    apply andb_prop in H. destruct H as [H _].
    rewrite Ascii.eqb_sym in H. congruence.
Qed.

Lemma contains_skip h w a s :
  forallb (not_char h) a = true ->
  contains (h :: w) (a ++ s) = contains (h :: w) s.
Proof.
  induction a as [|c a IH]; intros H; [reflexivity|].
  cbn [forallb] in H. apply andb_prop in H. destruct H as [Hc Ha].
  cbn [app]. rewrite contains_step, (IH Ha).
  cbn [starts_with]. unfold not_char in Hc. apply negb_true_iff in Hc. rewrite Hc.
  reflexivity.
Qed.

(** A character that is no digit and none of the letters of the
    placeholder occurs in no placeholder. *)
Lemma placeholder_avoids h :
  is_digit h = false -> has_char h (lit "_PROTECD") = false ->
  forall k, forallb (not_char h) (placeholder k) = true.
Proof.
  intros Hd Hp k. unfold placeholder. rewrite !forallb_app.
  assert (Hdig : forallb (not_char h) (dec k) = true).
  { apply (forallb_impl is_digit (not_char h)); [|apply dec_digits].
    intros c Hc. unfold not_char. destruct (Ascii.eqb h c) eqn:E; [|reflexivity].
    apply Ascii.eqb_eq in E. subst c. congruence. }
  rewrite Hdig.
  cbn [has_char lit String.list_ascii_of_string existsb] in Hp.
  repeat (apply orb_false_elim in Hp; destruct Hp as [? Hp]).
  cbn [lit String.list_ascii_of_string forallb]. unfold not_char.
  repeat match goal with E : Ascii.eqb h _ = false |- _ => rewrite E; clear E end.
  reflexivity.
Qed.

(** A word without underscore whose first character occurs in no
    placeholder, found in a protected buffer, is in the original buffer. *)
Lemma contains_prot_orig h w ps :
  has_char "_" (h :: w) = false ->
  (forall k, forallb (not_char h) (placeholder k) = true) ->
  forall k, contains (h :: w) (prot k ps) = true -> contains (h :: w) (orig ps) = true.
Proof.
  intros Hu Hh. induction ps as [|[c|m] ps IH]; intros k H.
  - exact H.
  - cbn [prot orig] in *. rewrite contains_step in *.
    apply orb_prop in H. destruct H as [H|H].
    + apply (starts_with_prot_orig (h :: w) (Keep c :: ps) k Hu) in H.
      cbn [orig] in H. rewrite H. reflexivity.
    + rewrite (IH k H). apply orb_true_r.
  - cbn [prot orig] in *.
    rewrite (contains_skip _ _ _ _ (Hh k)) in H.
    apply contains_app_mono. apply (IH (S k)). exact H.
Qed.

(** The same for the whole protection pass. *)
Lemma contains_protected h w content :
  has_char "_" (h :: w) = false ->
  is_digit h = false -> has_char h (lit "_PROTECD") = false ->
  contains (h :: w) content = false ->
  contains (h :: w) (prot 0 (pieces protect_re None content 0)) = false.
Proof.
  intros Hu Hd Hp Hc.
  destruct (contains _ (prot 0 _)) eqn:E; [|reflexivity].
  apply (contains_prot_orig h w _ Hu (placeholder_avoids h Hd Hp)) in E.
  rewrite (orig_pieces protect_re content None 0) in E. cbn [skipn] in E. congruence.
Qed.

(** What a pattern has consumed is a prefix of the text it started on. *)
Lemma star_loop_reach body g k :
  (forall st k res, body st k = Some res ->
     exists st' a, k st' = Some res /\ ms_rest st = a ++ ms_rest st') ->
  forall n st res, star_loop body g k n st = Some res ->
    exists st' a, k st' = Some res /\ ms_rest st = a ++ ms_rest st'.
Proof.
  intros Hb. induction n as [|n IH]; intros st res H; simpl in H.
  - exists st, []. auto.
  - assert (Hagain : forall r,
      body st (fun st' => if length (ms_rest st') <? length (ms_rest st)
                          then star_loop body g k n st' else None) = Some r ->
      exists st' a, k st' = Some r /\ ms_rest st = a ++ ms_rest st').
    { intros r Hr. apply Hb in Hr. destruct Hr as (st1 & a1 & H1 & E1).
      destruct (length (ms_rest st1) <? length (ms_rest st)); [|discriminate].
      apply IH in H1. destruct H1 as (st2 & a2 & H2 & E2).
      exists st2, (a1 ++ a2). split; [exact H2|].
      rewrite E1, E2, app_assoc. reflexivity. }
    destruct g.
    + destruct (body st _) as [r|] eqn:E.
      * inversion H; subst. apply Hagain. reflexivity.
      * exists st, []. auto.
    + destruct (k st) as [r|] eqn:E.
      * inversion H; subst. exists st, []. auto.
      * apply Hagain. exact H.
Qed.

Lemma rmatch_reach r :
  forall st k res, rmatch r st k = Some res ->
    exists st' a, k st' = Some res /\ ms_rest st = a ++ ms_rest st'.
Proof.
  induction r as [|p|a IHa b IHb|a IHa b IHb|g a IHa|n a IHa|n| | |];
    intros st k res H; cbn [rmatch] in H.
  - exists st, []. auto.
  - destruct (ms_rest st) as [|c s'] eqn:Es; [discriminate|].
    destruct (p c); [|discriminate].
    eexists _, [c]. split; [exact H | reflexivity].
  - apply IHa in H. destruct H as (st1 & a1 & H1 & E1).
    apply IHb in H1. destruct H1 as (st2 & a2 & H2 & E2).
    exists st2, (a1 ++ a2). split; [exact H2|].
    rewrite E1, E2, app_assoc. reflexivity.
  - destruct (rmatch a st k) as [x|] eqn:E.
    + inversion H; subst. apply IHa in E. exact E.
    + apply IHb in H. exact H.
  - apply star_loop_reach in H; [exact H | exact IHa].
  - apply IHa in H. destruct H as (st1 & a1 & H1 & E1).
    eexists _, a1. split; [exact H1 | exact E1].
  - destruct (get_cap n (ms_caps st)) as [w|]; [|discriminate].
    destruct (starts_with w (ms_rest st)); [|discriminate].
    eexists _, (firstn (length w) (ms_rest st)). split; [exact H|].
    cbn [ms_rest]. symmetry. apply firstn_skipn.
  - exists st, []. split; [|reflexivity].
    destruct (ms_prev st) as [c|]; [destruct (is_char "010" c); [exact H | discriminate] | exact H].
  - exists st, []. split; [|reflexivity].
    destruct (ms_prev st); [discriminate | exact H].
  - exists st, []. split; [|reflexivity].
    destruct (ms_rest st) as [|c [|c' s']]; try discriminate; [exact H|].
    destruct (is_char "010" c); [exact H | discriminate].
Qed.

Ltac inv_char H :=
  rewrite ?rmatch_seq in H; rewrite rmatch_chr in H; cbn [ms_rest ms_caps] in H;
  match type of H with
  | match ?l with _ => _ end = _ =>
      let c := fresh "c" in
      destruct l as [|c l]; [discriminate H|];
      let E := fresh "E" in
      destruct (is_char _ c) eqn:E; [|discriminate H];
      apply Ascii.eqb_eq in E; subst c
  end.

(** A match of a return pattern holds the word [return] after
    whitespace. *)
Lemma return_match_inv tail prev s m :
  match_at (Seq Bol (Seq (Group 1 (Star true (Chr is_space))) (Seq (Lit "return") tail)))
    prev s = Some m ->
  exists ws rest, s = ws ++ lit "return" ++ rest.
Proof.
  unfold match_at.
  destruct (rmatch _ _ Some) as [res|] eqn:E; [|discriminate]. intros _.
  rewrite rmatch_seq, rmatch_bol in E. cbn [ms_prev] in E.
  assert (Hk : rmatch (Seq (Group 1 (Star true (Chr is_space))) (Seq (Lit "return") tail))
                 (MState prev s []) Some = Some res).
  { destruct prev as [c|]; [destruct (is_char nl c); [exact E | discriminate E] | exact E]. }
  clear E. rewrite rmatch_seq, rmatch_group in Hk.
  apply star_class_inv in Hk. destruct Hk as (ws & rest & pr & -> & _ & Hk).
  cbn [ms_prev ms_rest ms_caps] in Hk.
  unfold Lit in Hk. cbn [lit String.list_ascii_of_string map Cat] in Hk.
  do 6 inv_char Hk.
  exists ws, rest. reflexivity.
Qed.

Lemma return_block_re_word :
  return_block_re
  = Seq Bol (Seq (Group 1 (Star true (Chr is_space)))
       (Seq (Lit "return")
          (Cat [Plus space; ch "("; Star true space; Opt (Chr (is_char nl));
                Star true space;
                Group 2 (Cat [ch "<"; Star false any; ch ">"; Star false any;
                              Lit "</"; Plus (nch ">"); ch ">"]);
                Star true space; Lit ");"]))).
Proof. reflexivity. Qed.

Lemma return_inline_re_word :
  return_inline_re
  = Seq Bol (Seq (Group 1 (Star true (Chr is_space)))
       (Seq (Lit "return")
          (Cat [Plus space; Group 2 (Cat [ch "<"; Plus (nch ";"); ch ">"]); ch ";"]))).
Proof. reflexivity. Qed.

(** Neither return pattern matches in a text without the word [return]. *)
Lemma no_return_no_match text :
  contains (lit "return") text = false ->
  re_search return_block_re text = None /\ re_search return_inline_re text = None.
Proof.
  intros H.
  assert (G : forall tail,
            re_search (Seq Bol (Seq (Group 1 (Star true (Chr is_space)))
                                  (Seq (Lit "return") tail))) text = None).
  { intros tail. unfold re_search, re_finditer.
    destruct (hits _) as [|m l] eqn:E; [reflexivity|]. exfalso.
    assert (Hm : In m (hits (pieces
                   (Seq Bol (Seq (Group 1 (Star true (Chr is_space)))
                              (Seq (Lit "return") tail))) None text 0)))
      by (rewrite E; left; reflexivity).
    apply hits_pieces_at in Hm. destruct Hm as (a & prev' & s' & -> & Hm).
    apply return_match_inv in Hm. destruct Hm as (ws & rest & ->).
    rewrite app_assoc, contains_intro in H. discriminate H. }
  split.
  - rewrite return_block_re_word. apply G.
  - rewrite return_inline_re_word. apply G.
Qed.

Ltac reach H E :=
  rewrite ?rmatch_group in H; rewrite ?rmatch_seq in H;
  apply rmatch_reach in H;
  let st := fresh "st" in let a := fresh "a" in let E' := fresh "E" in
  destruct H as (st & a & H & E');
  cbn [ms_rest] in E'; rewrite E' in E; rewrite ?app_assoc in E; clear E';
  cbn [ms_rest ms_prev ms_caps] in H.

(** The block pattern matches only a text that holds a closing tag. *)
Lemma block_match_closer prev s m :
  match_at return_block_re prev s = Some m -> contains (lit "</") s = true.
Proof.
  unfold match_at.
  destruct (rmatch _ _ Some) as [res|] eqn:H; [|discriminate]. intros _.
  assert (E : s = [] ++ ms_rest (MState prev s [])) by reflexivity.
  revert H E. generalize (MState prev s []). intros st0 H E.
  unfold return_block_re in H. cbn [Cat] in H.
  do 8 reach H E.
  rewrite rmatch_seq, rmatch_group in H. do 4 reach H E.
  match type of H with rmatch _ ?st _ = _ => destruct st as [pr l cs] end.
  cbn [ms_rest ms_prev ms_caps] in *.
  unfold Lit in H. cbn [lit String.list_ascii_of_string map Cat] in H.
  do 2 inv_char H.
  rewrite E. apply (contains_intro (lit "</")).
Qed.

(** The inline pattern matches only a text that holds [>;]. *)
Lemma inline_match_closer prev s m :
  match_at return_inline_re prev s = Some m -> contains (lit ">;") s = true.
Proof.
  unfold match_at.
  destruct (rmatch _ _ Some) as [res|] eqn:H; [|discriminate]. intros _.
  assert (E : s = [] ++ ms_rest (MState prev s [])) by reflexivity.
  revert H E. generalize (MState prev s []). intros st0 H E.
  unfold return_inline_re in H. cbn [Cat] in H.
  do 4 reach H E.
  rewrite rmatch_seq, rmatch_group in H. do 2 reach H E.
  match type of H with rmatch _ ?st _ = _ => destruct st as [pr l cs] end.
  cbn [ms_rest ms_prev ms_caps] in *.
  unfold ch in H. inv_char H. cbn [ms_rest ms_prev ms_caps] in H. inv_char H.
  rewrite E. apply (contains_intro (lit ">;")).
Qed.

Lemma search_none r text :
  (forall a prev s m, text = a ++ s -> match_at r prev s = Some m -> False) ->
  re_search r text = None.
Proof.
  intros H. unfold re_search, re_finditer.
  destruct (hits _) as [|m l] eqn:E; [reflexivity|]. exfalso.
  assert (Hm : In m (hits (pieces r None text 0))) by (rewrite E; left; reflexivity).
  apply hits_pieces_at in Hm. destruct Hm as (a & prev' & s' & Ht & Hm).
  apply (H a prev' s' m Ht Hm).
Qed.

End NoReturn.

(** X15.  A buffer that contains neither the word [return] nor the text
    PROTECTED_ goes through the pipeline unchanged, whatever markup and
    braces it holds. *)
Theorem pipeline_identity_without_return (content : str) :
  contains (lit "return") content = false ->
  contains (lit "PROTECTED_") content = false ->
  convert_jsx_to_createElement content = Ok content.
Proof.
  intros Hr Hc.
  pose proof (contains_protected "r" (lit "eturn") content eq_refl eq_refl eq_refl Hr)
    as Hprot.
  destruct (no_return_no_match _ Hprot) as [Hb Hi].
  apply (identity_when_protected content _ _ (protect_spec content) Hb Hi Hc).
Qed.

Lemma pipeline_identity_without_return_witness :
  convert_jsx_to_createElement (lit "const App = () => <div class='x'>{items}</div>;")
  = Ok (lit "const App = () => <div class='x'>{items}</div>;").
Proof. apply pipeline_identity_without_return; reflexivity. Defined.

(** X16.  A buffer that contains neither a closing tag opener [</] nor the
    text [>;] (nor PROTECTED_) goes through the pipeline unchanged: the
    block pattern needs a closing tag and the inline pattern needs the
    element to end just before the semicolon.  So a self-closing element
    returned between parentheses is not converted. *)
Theorem pipeline_identity_without_closers (content : str) :
  contains (lit "</") content = false ->
  contains (lit ">;") content = false ->
  contains (lit "PROTECTED_") content = false ->
  convert_jsx_to_createElement content = Ok content.
Proof.
  intros Hb Hi Hc.
  pose proof (contains_protected "<" (lit "/") content eq_refl eq_refl eq_refl Hb) as Pb.
  pose proof (contains_protected ">" (lit ";") content eq_refl eq_refl eq_refl Hi) as Pi.
  apply (identity_when_protected content _ _ (protect_spec content)); [| |exact Hc].
  - apply search_none. intros a prev s m Ht Hm.
    apply block_match_closer in Hm. apply (contains_app_mono _ a) in Hm.
    rewrite <- Ht in Hm. change (lit "</") with ("<"%char :: lit "/") in Hm. congruence.
  - apply search_none. intros a prev s m Ht Hm.
    apply inline_match_closer in Hm. apply (contains_app_mono _ a) in Hm.
    rewrite <- Ht in Hm. change (lit ">;") with (">"%char :: lit ";") in Hm. congruence.
Qed.

Lemma pipeline_identity_without_closers_witness :
  convert_jsx_to_createElement (lit "  return (<br/>);") = Ok (lit "  return (<br/>);").
Proof. apply pipeline_identity_without_closers; reflexivity. Defined.

(* ------------------------------------------------------------------ *)
(** ** Further properties: the block return *)

Section BlockReturn.

Lemma has_char_app a x y : has_char a (x ++ y) = (has_char a x || has_char a y)%bool.
Proof. apply existsb_app. Qed.

Lemma has_char_class p a s :
  p a = false -> forallb p s = true -> has_char a s = false.
Proof.
  intros Ha. induction s as [|c s IH]; intros H; [reflexivity|].
  cbn [forallb] in H. apply andb_prop in H. destruct H as [Hc Hs].
  cbn [has_char existsb]. fold (has_char a s). rewrite (IH Hs), orb_false_r.
  destruct (Ascii.eqb a c) eqn:E; [|reflexivity].
  apply Ascii.eqb_eq in E. subst c. congruence.
Qed.

Lemma contains_no_head h w s : has_char h s = false -> contains (h :: w) s = false.
Proof.
  induction s as [|c s IH]; intros H; [reflexivity|].
  cbn [has_char existsb] in H. apply orb_false_elim in H. destruct H as [Hc Hs].
  rewrite contains_step. cbn [starts_with]. rewrite Hc. apply (IH Hs).
Qed.

(** [replace] of a text whose first character occurs nowhere else. *)
Lemma replace_single h old new x s :
  has_char h x = false -> has_char h s = false ->
  replace (h :: old) new (x ++ (h :: old) ++ s) = x ++ new ++ s.
Proof.
  intros Hx Hs. apply replace_once.
  - discriminate.
  - intros x1 c x2 E. cbn [starts_with].
    rewrite E, has_char_app in Hx. apply orb_false_elim in Hx. destruct Hx as [_ Hx].
    cbn [has_char existsb] in Hx. apply orb_false_elim in Hx. destruct Hx as [Hc _].
    rewrite Hc. reflexivity.
  - apply contains_no_head. exact Hs.
Qed.

(** A pattern that starts with [^ ( \s* )] and whose tail matches the whole
    of a statement, on the statement with its indentation: the scan finds
    one match, the whole text. *)
Lemma pieces_indented tail indent stmt caps :
  forallb is_space indent = true ->
  stmt <> [] -> stops is_space stmt = true ->
  (forall pr, succeeds (fun res => ms_rest res = [] /\ ms_caps res = caps)
                (rmatch tail (MState pr stmt (set_cap 1 indent [])) Some)) ->
  (forall pr cs, rmatch tail (MState pr [] cs) Some = None) ->
  pieces (Seq Bol (Seq (Group 1 (Star true (Chr is_space))) tail)) None (indent ++ stmt) 0
  = [Hit (Match (indent ++ stmt) caps)].
Proof.
  intros Hind Hne Hstop Htail Hend.
  assert (Hm : match_at (Seq Bol (Seq (Group 1 (Star true (Chr is_space))) tail)) None
                 (indent ++ stmt)
               = Some (Match (indent ++ stmt) caps)).
  { assert (Hs : succeeds (fun res => ms_rest res = [] /\ ms_caps res = caps)
                   (rmatch (Seq Bol (Seq (Group 1 (Star true (Chr is_space))) tail))
                      (MState None (indent ++ stmt) []) Some)).
    { rewrite rmatch_seq, rmatch_bol. cbn [ms_prev].
      rewrite rmatch_seq, rmatch_group.
      apply star_class_max; [exact Hstop | | exact Hind].
      intros pr. unfold consumed. cbn [ms_rest ms_prev ms_caps].
      rewrite firstn_app_exact. apply Htail. }
    destruct Hs as (res & Hres & Hrest & Hcaps).
    unfold match_at. rewrite Hres, Hrest, Hcaps.
    change (length (@nil ascii)) with 0. rewrite Nat.sub_0_r, firstn_all. reflexivity. }
  remember (indent ++ stmt) as s eqn:Es.
  destruct s as [|c s].
  - destruct indent; [cbn [app] in Es; congruence | discriminate Es].
  - cbn [pieces]. rewrite Hm. cbn [m_text length]. f_equal.
    rewrite <- (app_nil_r s) at 1. rewrite pieces_skip. cbn [pieces].
    destruct (last_char (Some c) s) as [d|]; unfold match_at;
      rewrite rmatch_seq, rmatch_bol; cbn [ms_prev].
    + destruct (is_char nl d); [|reflexivity].
      rewrite rmatch_seq, rmatch_group, rmatch_star. cbv zeta.
      rewrite rmatch_chr. cbn [ms_rest ms_prev ms_caps]. rewrite Hend. reflexivity.
    + rewrite rmatch_seq, rmatch_group, rmatch_star. cbv zeta.
      rewrite rmatch_chr. cbn [ms_rest ms_prev ms_caps]. rewrite Hend. reflexivity.
Qed.

(** The block pass on a parenthesised element on one line. *)
Lemma pieces_block_paren indent :
  forallb is_space indent = true ->
  pieces return_block_re None (indent ++ lit "return (<p>__PROTECTED_0__</p>);") 0
  = [Hit (Match (indent ++ lit "return (<p>__PROTECTED_0__</p>);")
            [None; Some indent; Some (lit "<p>__PROTECTED_0__</p>")])].
Proof.
  intros Hind. rewrite return_block_re_start.
  apply pieces_indented; [exact Hind | discriminate | reflexivity | |].
  - intros pr. eexists. split; [vm_compute; reflexivity|]. split; reflexivity.
  - intros pr cs. reflexivity.
Qed.

(** The element converter on the protected element, at any indentation. *)
Lemma convert_protected_child indent :
  convert_jsx_element (lit "<p>__PROTECTED_0__</p>") indent
  = Ok (lit "React.createElement(" ++ [nl]
        ++ indent ++ lit "  'p'," ++ [nl]
        ++ indent ++ lit "  null," ++ [nl]
        ++ indent ++ lit "  '__PROTECTED_0__'" ++ [nl]
        ++ indent ++ lit ")").
Proof.
  unfold convert_jsx_element.
  assert (E0 : strip (lit "<p>__PROTECTED_0__</p>") = lit "<p>__PROTECTED_0__</p>")
    by (vm_compute; reflexivity).
  assert (E1 : re_match self_closing_re (lit "<p>__PROTECTED_0__</p>") = None)
    by (vm_compute; reflexivity).
  assert (E2 : re_match element_re (lit "<p>__PROTECTED_0__</p>")
               = Some (Match (lit "<p>__PROTECTED_0__</p>")
                         [None; Some (lit "p"); Some []; Some (lit "__PROTECTED_0__")]))
    by (vm_compute; reflexivity).
  rewrite E0, E1, E2.
  vm_compute. reflexivity.
Qed.

End BlockReturn.

(** X17.  The block pass through the whole pipeline: a return of an
    element between parentheses on one line, whose child is an expression
    between braces, for every indentation (any run of whitespace) and every
    expression without braces.  The parentheses are dropped, the statement
    keeps its indentation, the arguments of the call are indented by four
    more spaces and its closing parenthesis by two, and the expression
    comes out as text between single quotes. *)
Theorem block_return_converted (indent expr : str) :
  forallb is_space indent = true -> brace_free expr = true ->
  convert_jsx_to_createElement (indent ++ lit "return (<p>{" ++ expr ++ lit "}</p>);")
  = Ok (indent ++ lit "return React.createElement(" ++ [nl]
        ++ indent ++ lit "    'p'," ++ [nl]
        ++ indent ++ lit "    null," ++ [nl]
        ++ indent ++ lit "    '{" ++ expr ++ lit "}'" ++ [nl]
        ++ indent ++ lit "  );").
Proof.
  intros Hind Hexpr.
  assert (Hin : (indent ++ lit "return (<p>{" ++ expr ++ lit "}</p>);")
                = (indent ++ lit "return (<p>") ++ "{"%char :: expr ++ "}"%char :: lit "</p>);")
    by (rewrite <- app_assoc; reflexivity).
  unfold convert_jsx_to_createElement. rewrite Hin.
  rewrite protect_one_span; [| | exact Hexpr | reflexivity].
  2:{ rewrite forallb_app.
      rewrite (forallb_impl is_space not_brace indent
                 (fun x Hx => proj1 (space_facts x Hx)) Hind). reflexivity. }
  cbn [bind].
  assert (E1 : (indent ++ lit "return (<p>") ++ placeholder 0 ++ lit "</p>);"
               = indent ++ lit "return (<p>__PROTECTED_0__</p>);")
    by (rewrite <- app_assoc; reflexivity).
  rewrite E1. unfold re_sub at 1. rewrite (pieces_block_paren indent Hind).
  cbn [sub_pieces]. unfold convert_return_jsx.
  cbn [group m_caps get_cap nth strip_of add_of bind].
  change (strip (lit "<p>__PROTECTED_0__</p>")) with (lit "<p>__PROTECTED_0__</p>").
  rewrite convert_protected_child. cbn [bind fmt].
  set (before := indent ++ lit "return React.createElement(" ++ [nl]
                 ++ indent ++ lit "    'p'," ++ [nl]
                 ++ indent ++ lit "    null," ++ [nl]
                 ++ indent ++ lit "    '").
  set (after := lit "'" ++ [nl] ++ indent ++ lit "  );").
  assert (Hgt : has_char ">" indent = false)
    by (apply (has_char_class is_space); [reflexivity | exact Hind]).
  assert (Hus : has_char "_" indent = false)
    by (apply (has_char_class is_space); [reflexivity | exact Hind]).
  assert (Ec : (indent ++ lit "return "
                ++ (lit "React.createElement(" ++ [nl]
                    ++ (indent ++ lit "  ") ++ lit "  'p'," ++ [nl]
                    ++ (indent ++ lit "  ") ++ lit "  null," ++ [nl]
                    ++ (indent ++ lit "  ") ++ lit "  '__PROTECTED_0__'" ++ [nl]
                    ++ (indent ++ lit "  ") ++ lit ")") ++ lit ";") ++ []
               = before ++ ("_"%char :: lit "_PROTECTED_0__") ++ after).
  { unfold before, after. rewrite app_nil_r, <- ?app_assoc. reflexivity. }
  rewrite Ec.
  assert (Hgb : has_char ">" before = false /\ has_char ">" after = false)
    by (unfold before, after; rewrite !has_char_app, !Hgt; split; reflexivity).
  assert (Hub : has_char "_" before = false /\ has_char "_" after = false)
    by (unfold before, after; rewrite !has_char_app, !Hus; split; reflexivity).
  rewrite re_sub_no_match.
  2:{ apply search_none. intros a prev s m Ht Hm.
      apply inline_match_closer in Hm. apply (contains_app_mono _ a) in Hm.
      rewrite <- Ht in Hm.
      rewrite (contains_no_head ">" (lit ";")) in Hm; [discriminate Hm|].
      rewrite !has_char_app, (proj1 Hgb), (proj2 Hgb). reflexivity. }
  cbn [bind restore]. f_equal.
  change (placeholder 0) with ("_"%char :: lit "_PROTECTED_0__").
  rewrite (replace_single _ _ _ _ _ (proj1 Hub) (proj2 Hub)).
  unfold before, after. rewrite <- ?app_assoc. cbn [app]. rewrite <- ?app_assoc.
  reflexivity.
Qed.

Lemma block_return_converted_witness :
  convert_jsx_to_createElement (lit "    return (<p>{props.title}</p>);")
  = Ok (lit "    return React.createElement(" ++ [nl]
        ++ lit "        'p'," ++ [nl]
        ++ lit "        null," ++ [nl]
        ++ lit "        '{props.title}'" ++ [nl]
        ++ lit "      );").
Proof.
  exact (block_return_converted (lit "    ") (lit "props.title") eq_refl eq_refl).
Defined.


(* ------------------------------------------------------------------ *)
(** ** Further properties: what the element patterns match *)

Section ElementPatterns.

(** A run of a class, greedy or not, read backwards. *)
Lemma star_chr_inv g p k caps : forall s prev res,
  rmatch (Star g (Chr p)) (MState prev s caps) k = Some res ->
  exists w rest' pr,
    s = w ++ rest' /\ forallb p w = true /\ k (MState pr rest' caps) = Some res.
Proof.
  induction s as [|c s IH]; intros prev res H; rewrite rmatch_star in H; cbv zeta in H;
    rewrite rmatch_chr in H; cbn [ms_rest ms_caps] in H.
  - exists [], [], prev. destruct g; [auto|].
    destruct (k _) eqn:E; [auto | discriminate H].
  - assert (Hrec : forall r,
              (if p c
               then if length s <? length (c :: s)
                    then rmatch (Star g (Chr p)) (MState (Some c) s caps) k else None
               else None) = Some r ->
              exists w rest' pr,
                c :: s = w ++ rest' /\ forallb p w = true
                /\ k (MState pr rest' caps) = Some r).
    { intros r Hr. destruct (p c) eqn:Ec; [|discriminate Hr].
      destruct (length s <? length (c :: s)); [|discriminate Hr].
      destruct (IH _ _ Hr) as (w & rest' & pr & -> & Hw & Hk).
      exists (c :: w), rest', pr. cbn [forallb app]. rewrite Ec. auto. }
    cbn [ms_rest] in H. destruct g.
    + destruct (if p c then _ else None) as [r|] eqn:E.
      * injection H as <-. apply Hrec. reflexivity.
      * exists [], (c :: s), prev. auto.
    + destruct (k _) as [r|] eqn:E.
      * injection H as <-. exists [], (c :: s), prev. auto.
      * apply Hrec. exact H.
Qed.

Lemma rmatch_backref n st k :
  rmatch (Backref n) st k
  = match get_cap n (ms_caps st) with
    | Some w =>
        if starts_with w (ms_rest st)
        then k (MState (last_char (ms_prev st) w) (skipn (length w) (ms_rest st))
                  (ms_caps st))
        else None
    | None => None
    end.
Proof. reflexivity. Qed.

Lemma rmatch_eos st k :
  rmatch Eos st k
  = match ms_rest st with
    | [] => k st
    | [c] => if is_char nl c then k st else None
    | _ => None
    end.
Proof. reflexivity. Qed.

Lemma skipn_prefix {A : Type} (a b : list A) : skipn (length a) (a ++ b) = b.
Proof. induction a as [|x a IH]; [reflexivity | exact IH]. Qed.

(** The end of both element patterns: whitespace up to the end of the
    text. *)
Lemma trailing_space_inv prev s caps res :
  rmatch (Seq (Star true (Chr is_space)) Eos) (MState prev s caps) Some = Some res ->
  forallb is_space s = true /\ ms_caps res = caps.
Proof.
  intros H. rewrite rmatch_seq in H. apply star_chr_inv in H.
  destruct H as (ws & rest & pr & -> & Hws & H).
  rewrite rmatch_eos in H. cbn [ms_rest] in H.
  destruct rest as [|d [|d' r]]; [| |discriminate H].
  - injection H as <-. rewrite app_nil_r. auto.
  - destruct (is_char nl d) eqn:En; [|discriminate H].
    injection H as <-. apply Ascii.eqb_eq in En. subst d.
    rewrite forallb_app, Hws. auto.
Qed.

Ltac take_char H :=
  rewrite ?rmatch_seq in H; rewrite rmatch_chr in H; cbn [ms_rest ms_caps ms_prev] in H;
  match type of H with
  | match ?l with _ => _ end = _ =>
      let c := fresh "c" in
      destruct l as [|c l]; [discriminate H|];
      let E := fresh "E" in
      destruct (is_char _ c) eqn:E; [|discriminate H];
      apply Ascii.eqb_eq in E; subst c
  end.

Ltac take_group H w rest Hw :=
  rewrite rmatch_seq, rmatch_group in H; apply star_chr_inv in H;
  let pr := fresh "pr" in
  destruct H as (w & rest & pr & -> & Hw & H);
  unfold consumed in H; cbn [ms_rest ms_prev ms_caps] in H;
  rewrite firstn_app_exact in H.

(** The start of both element patterns: the opening angle bracket and the
    tag name, captured as group 1. *)
Lemma tag_start_inv tail s res :
  rmatch (Cat [Sos; ch "<"; Group 1 (Plus word); tail]) (MState None s []) Some = Some res ->
  exists tag rest pr,
    is_words tag = true /\ s = "<"%char :: tag ++ rest
    /\ rmatch tail (MState pr rest [None; Some tag]) Some = Some res.
Proof.
  intros H. cbn [Cat] in H. unfold ch, Plus, word in H.
  rewrite rmatch_seq, rmatch_sos in H. cbn [ms_prev] in H.
  take_char H.
  rewrite rmatch_seq, rmatch_group, rmatch_seq, rmatch_chr in H.
  cbn [ms_rest ms_caps ms_prev] in H.
  destruct s as [|c s]; [discriminate H|].
  destruct (is_word c) eqn:Ec; [|discriminate H].
  apply star_chr_inv in H. destruct H as (w & rest & pr & -> & Hw & H).
  unfold consumed in H. cbn [ms_rest ms_prev ms_caps] in H.
  change (c :: w ++ rest) with ((c :: w) ++ rest) in H.
  rewrite firstn_app_exact in H.
  exists (c :: w), rest, pr. split; [|split; [reflexivity | exact H]].
  unfold is_words. cbn [nonempty forallb]. rewrite Ec, Hw. reflexivity.
Qed.

(** A match of the pattern of an element with a closing tag. *)
Lemma element_inv s res :
  rmatch element_re (MState None s []) Some = Some res ->
  exists tag attrs children ws,
    is_words tag = true /\ forallb (not_char ">") attrs = true
    /\ forallb is_space ws = true
    /\ s = "<"%char :: tag ++ attrs ++ ">"%char :: children ++ lit "</" ++ tag
            ++ ">"%char :: ws
    /\ ms_caps res = [None; Some tag; Some attrs; Some children].
Proof.
  intros H.
  change element_re
    with (Cat [Sos; ch "<"; Group 1 (Plus word);
               Cat [Group 2 (Star false (nch ">")); ch ">"; Group 3 (Star true any);
                    Lit "</"; Backref 1; ch ">"; Star true space; Eos]]) in H.
  apply tag_start_inv in H. destruct H as (tag & rest & pr & Htag & -> & H).
  cbn [Cat] in H. unfold nch, any, ch, space in H.
  take_group H attrs rest2 Ha. cbn [set_cap] in H.
  take_char H.
  take_group H children rest3 Hc. cbn [set_cap] in H.
  unfold Lit in H. cbn [lit String.list_ascii_of_string map Cat] in H.
  do 2 take_char H.
  rewrite rmatch_seq, rmatch_backref in H.
  cbn [ms_rest ms_caps ms_prev get_cap nth] in H.
  destruct (starts_with tag rest3) eqn:Es; [|discriminate H].
  apply starts_with_inv in Es. destruct Es as [t ->].
  rewrite skipn_prefix in H.
  take_char H.
  apply trailing_space_inv in H. destruct H as [Hws Hcaps].
  exists tag, attrs, children, t. repeat split; assumption.
Qed.

(** A match of the pattern of a self-closing element. *)
Lemma self_closing_inv s res :
  rmatch self_closing_re (MState None s []) Some = Some res ->
  exists tag attrs ws,
    is_words tag = true /\ forallb (not_char ">") attrs = true
    /\ forallb is_space ws = true
    /\ s = "<"%char :: tag ++ attrs ++ lit "/>" ++ ws
    /\ ms_caps res = [None; Some tag; Some attrs].
Proof.
  intros H.
  change self_closing_re
    with (Cat [Sos; ch "<"; Group 1 (Plus word);
               Cat [Group 2 (Star false (nch ">")); Lit "/>"; Star true space; Eos]]) in H.
  apply tag_start_inv in H. destruct H as (tag & rest & pr & Htag & -> & H).
  cbn [Cat] in H. unfold nch, space in H.
  take_group H attrs rest2 Ha. cbn [set_cap] in H.
  unfold Lit in H. cbn [lit String.list_ascii_of_string map Cat] in H.
  do 2 take_char H.
  apply trailing_space_inv in H. destruct H as [Hws Hcaps].
  exists tag, attrs, rest2. repeat split; assumption.
Qed.

End ElementPatterns.

(** X18.  The closing tag of a matched element carries the captured tag
    name.  Whenever the pattern of an element with children matches, the text is
    an opening angle bracket, a tag name (a run of word characters), an
    attribute text without a closing angle bracket, the bracket, the
    children, the closing tag with the same name, and whitespace only; the
    three groups are the name, the attribute text and the children. *)
Theorem element_match_closing_tag (s : str) (m : rmatch_obj) :
  re_match element_re s = Some m ->
  exists tag attrs children ws,
    is_words tag = true /\ forallb (not_char ">") attrs = true
    /\ forallb is_space ws = true
    /\ s = "<"%char :: tag ++ attrs ++ ">"%char :: children ++ lit "</" ++ tag
            ++ ">"%char :: ws
    /\ group m 1 = Some tag /\ group m 2 = Some attrs /\ group m 3 = Some children.
Proof.
  unfold re_match, match_at.
  destruct (rmatch element_re (MState None s []) Some) as [res|] eqn:H; [|discriminate].
  intros Hm. injection Hm as <-.
  apply element_inv in H.
  destruct H as (tag & attrs & children & ws & Htag & Ha & Hws & Hs & Hcaps).
  exists tag, attrs, children, ws. cbn [group m_caps]. rewrite Hcaps.
  repeat split; assumption.
Qed.

Lemma element_match_closing_tag_witness :
  exists tag attrs children ws,
    is_words tag = true /\ forallb (not_char ">") attrs = true
    /\ forallb is_space ws = true
    /\ lit "<ab>x</a>"
        = "<"%char :: tag ++ attrs ++ ">"%char :: children ++ lit "</" ++ tag
          ++ ">"%char :: ws
    /\ group (Match (lit "<ab>x</a>") [None; Some (lit "a"); Some (lit "b"); Some (lit "x")]) 1
        = Some tag
    /\ group (Match (lit "<ab>x</a>") [None; Some (lit "a"); Some (lit "b"); Some (lit "x")]) 2
        = Some attrs
    /\ group (Match (lit "<ab>x</a>") [None; Some (lit "a"); Some (lit "b"); Some (lit "x")]) 3
        = Some children.
Proof.
  apply (element_match_closing_tag (lit "<ab>x</a>")). vm_compute. reflexivity.
Defined.

(** X19.  Whenever the pattern of a self-closing element matches, the text
    is an opening angle bracket, a tag name (a run of word characters), an
    attribute text without a closing angle bracket, a slash and the closing
    bracket, and whitespace only; the two groups are the name and the
    attribute text. *)
Theorem self_closing_match_shape (s : str) (m : rmatch_obj) :
  re_match self_closing_re s = Some m ->
  exists tag attrs ws,
    is_words tag = true /\ forallb (not_char ">") attrs = true
    /\ forallb is_space ws = true
    /\ s = "<"%char :: tag ++ attrs ++ lit "/>" ++ ws
    /\ group m 1 = Some tag /\ group m 2 = Some attrs.
Proof.
  unfold re_match, match_at.
  destruct (rmatch self_closing_re (MState None s []) Some) as [res|] eqn:H;
    [|discriminate].
  intros Hm. injection Hm as <-.
  apply self_closing_inv in H.
  destruct H as (tag & attrs & ws & Htag & Ha & Hws & Hs & Hcaps).
  exists tag, attrs, ws. cbn [group m_caps]. rewrite Hcaps.
  repeat split; assumption.
Qed.

Lemma self_closing_match_shape_witness :
  exists tag attrs ws,
    is_words tag = true /\ forallb (not_char ">") attrs = true
    /\ forallb is_space ws = true
    /\ lit "<img src='a/b.png' />" = "<"%char :: tag ++ attrs ++ lit "/>" ++ ws
    /\ group (Match (lit "<img src='a/b.png' />")
                [None; Some (lit "img"); Some (lit " src='a/b.png' ")]) 1 = Some tag
    /\ group (Match (lit "<img src='a/b.png' />")
                [None; Some (lit "img"); Some (lit " src='a/b.png' ")]) 2 = Some attrs.
Proof.
  apply (self_closing_match_shape (lit "<img src='a/b.png' />")). vm_compute. reflexivity.
Defined.

(* ------------------------------------------------------------------ *)
(** ** Attribute lists *)

Section AttributeLists.

(** The value part of the attribute pattern on a written value. *)
Lemma value_match name v rest :
  value_closed v = true -> stops (is_char "=") rest = true ->
  forall pr,
    succeeds (fun res => ms_rest res = rest /\ ms_caps res = value_caps name v)
      (rmatch (Opt attr_value_re)
         (MState pr (value_text v ++ rest) (set_cap 1 name [])) Some).
Proof.
  intros Hv Hrest pr. destruct v as [|t|t|t]; cbn [value_text value_closed] in *.
  - cbn [app]. unfold Opt, attr_value_re, ch. cbn [rmatch ms_rest].
    destruct rest as [|c rest].
    + eexists. split; [reflexivity|]. split; reflexivity.
    + cbn [stops] in Hrest. apply negb_true_iff in Hrest. rewrite Hrest.
      eexists. split; [reflexivity|]. split; reflexivity.
  - cbn [app]. rewrite <- app_assoc.
    apply (quoted_value_match_rest 2 "{" "}"); [tauto | exact Hv].
  - cbn [app]. rewrite <- app_assoc.
    apply (quoted_value_match_rest 3 dq dq); [tauto | exact Hv].
  - cbn [app]. rewrite <- app_assoc.
    apply (quoted_value_match_rest 4 sq sq); [tauto | exact Hv].
Qed.

(** The entry of the match of a written attribute. *)
Lemma attr_entry_written a text :
  attr_entry (Match text (value_caps (at_name a) (at_value a))) = Ok (emitted_entry a).
Proof.
  unfold attr_entry, emitted_entry.
  rewrite (attr_name_of (at_name a)); [|destruct (at_value a); reflexivity].
  cbn [bind]. do 3 f_equal.
  unfold attr_value. destruct (at_value a) as [|t|t|t]; [reflexivity|..];
    destruct t; reflexivity.
Qed.

Lemma value_text_stops p v rest :
  p "="%char = false -> stops p rest = true -> stops p (value_text v ++ rest) = true.
Proof.
  intros Hp Hrest. destruct v; cbn [value_text app stops]; [exact Hrest|..];
    rewrite Hp; reflexivity.
Qed.

Lemma well_formed_parts a :
  well_formed a = true ->
  is_words (at_word a) = true /\ forallb is_words (at_segs a) = true
  /\ value_closed (at_value a) = true.
Proof.
  unfold well_formed. intros H. apply andb_prop in H. destruct H as [H Hv].
  apply andb_prop in H. tauto.
Qed.

(** An attribute followed by whitespace and more text: its entry, then the
    entries of the rest. *)
Lemma attr_head_entry a sep rest :
  well_formed a = true -> is_space sep = true ->
  attr_entries (attr_text a ++ sep :: rest)
  = (entries <- attr_entries rest ;; Ok (emitted_entry a :: entries)).
Proof.
  intros Ha Hsep. destruct (well_formed_parts a Ha) as (Hw & Hs & Hv).
  destruct (space_is_separator sep Hsep) as (Hnw & Hnh & Hneq).
  assert (Hstop : forall p, p "="%char = false -> p sep = false ->
                    stops p (value_text (at_value a) ++ sep :: rest) = true).
  { intros p Hp Hps. apply value_text_stops; [exact Hp|]. cbn [stops]. rewrite Hps.
    reflexivity. }
  unfold attr_text, at_name. rewrite <- app_assoc.
  rewrite (attr_entries_head _ _ _
             (finditer_attr_head (at_word a) (at_segs a) (value_text (at_value a)) sep rest
                (value_caps (at_name a) (at_value a)) Hsep
                (Hstop is_word eq_refl Hnw) (Hstop (is_char "-") eq_refl Hnh) Hw Hs
                (value_match (at_name a) (at_value a) (sep :: rest) Hv
                   ltac:(cbn [stops]; rewrite Hneq; reflexivity)))).
  rewrite attr_entry_written. reflexivity.
Qed.

(** An attribute at the end of the text. *)
Lemma attr_last_entry a :
  well_formed a = true -> attr_entries (attr_text a) = Ok [emitted_entry a].
Proof.
  intros Ha. destruct (well_formed_parts a Ha) as (Hw & Hs & Hv).
  unfold attr_entries, attr_text, at_name.
  rewrite (finditer_one_attr (at_word a) (at_segs a) (value_text (at_value a))
             (value_caps (at_name a) (at_value a))).
  - cbn [map_res]. rewrite attr_entry_written. reflexivity.
  - rewrite <- (app_nil_r (value_text _)). apply value_text_stops; reflexivity.
  - rewrite <- (app_nil_r (value_text _)). apply value_text_stops; reflexivity.
  - exact Hw.
  - exact Hs.
  - intros pr. rewrite <- (app_nil_r (value_text _)).
    apply (value_match (at_name a) (at_value a) [] Hv eq_refl).
Qed.

(** Whitespace before the attributes is passed over. *)
Lemma attr_entries_skip ws rest :
  forallb is_space ws = true -> attr_entries (ws ++ rest) = attr_entries rest.
Proof.
  induction ws as [|c ws IH]; intros H; [reflexivity|].
  cbn [forallb] in H. apply andb_prop in H. destruct H as [Hc Hws].
  rewrite <- (IH Hws). unfold attr_entries, re_finditer. cbn [app pieces].
  destruct (space_is_separator c Hc) as (Hnw & _ & _).
  rewrite match_attr_no_word by exact Hnw. cbn [hits].
  rewrite (pieces_attr_prev _ None). reflexivity.
Qed.

(** The loop of the translator on an attribute list: the entries of the
    attributes, in order. *)
Lemma attr_list_entries l :
  well_spaced l = true ->
  attr_entries (attr_list_text l) = Ok (map (fun p => emitted_entry (fst p)) l).
Proof.
  induction l as [|[a gap] l IH]; intros H; [reflexivity|].
  cbn [well_spaced] in H.
  apply andb_prop in H. destruct H as [H Hl].
  apply andb_prop in H. destruct H as [H Hlast].
  apply andb_prop in H. destruct H as [Ha Hgap].
  cbn [attr_list_text map fst]. destruct gap as [|sep gap].
  - destruct l; [|discriminate Hlast]. cbn [attr_list_text app map].
    rewrite app_nil_r. apply attr_last_entry. exact Ha.
  - cbn [forallb] in Hgap. apply andb_prop in Hgap. destruct Hgap as [Hsep Hgap].
    cbn [app]. rewrite (attr_head_entry a sep _ Ha Hsep).
    rewrite (attr_entries_skip gap _ Hgap), (IH Hl). reflexivity.
Qed.

(** The translator on an attribute list that is not empty, after any
    leading whitespace. *)
Lemma parse_attribute_list lead l :
  forallb is_space lead = true -> well_spaced l = true -> l <> [] ->
  parse_attributes (lead ++ attr_list_text l)
  = Ok (lit "{ " ++ join (lit ", ") (map (fun p => emitted_entry (fst p)) l) ++ lit " }").
Proof.
  intros Hlead Hl Hne. rewrite parse_attributes_loop.
  rewrite (attr_entries_skip lead _ Hlead), (attr_list_entries l Hl).
  destruct l as [|[a gap] l]; [congruence|].
  assert (Hstrip : nonempty (strip (lead ++ attr_list_text ((a, gap) :: l))) = true).
  { cbn [well_spaced] in Hl. apply andb_prop in Hl. destruct Hl as [Hl _].
    apply andb_prop in Hl. destruct Hl as [Hl _].
    apply andb_prop in Hl. destruct Hl as [Ha _].
    destruct (well_formed_parts a Ha) as (Hw & _ & _).
    unfold is_words in Hw. apply andb_prop in Hw. destruct Hw as [Hwne Hww].
    destruct (at_word a) as [|c w] eqn:Ew; [discriminate Hwne|].
    cbn [forallb] in Hww. apply andb_prop in Hww. destruct Hww as [Hc _].
    apply (strip_nonempty _ c); [|apply word_not_space; exact Hc].
    apply in_or_app. right. cbn [attr_list_text]. unfold attr_text, at_name, attr_name_text.
    rewrite Ew. left. reflexivity. }
  rewrite Hstrip. reflexivity.
Qed.

Lemma well_formed_inside before a gap after :
  well_spaced (before ++ (a, gap) :: after) = true ->
  is_words (at_word a) = true /\ forallb is_words (at_segs a) = true
  /\ value_closed (at_value a) = true.
Proof.
  induction before as [|[b g] before IH]; intros H; cbn [app well_spaced] in H.
  - apply andb_prop in H. destruct H as [H _].
    apply andb_prop in H. destruct H as [H _].
    apply andb_prop in H. destruct H as [H _].
    apply well_formed_parts. exact H.
  - apply andb_prop in H. destruct H as [_ H]. apply IH. exact H.
Qed.

(** Another attribute in the place of one keeps the list well spaced. *)
Lemma well_spaced_replace before a a' gap after :
  well_spaced (before ++ (a, gap) :: after) = true -> well_formed a' = true ->
  well_spaced (before ++ (a', gap) :: after) = true.
Proof.
  intros H Ha'. induction before as [|[b g] before IH]; cbn [app well_spaced] in *.
  - apply andb_prop in H. destruct H as [H Hl].
    apply andb_prop in H. destruct H as [H Hlast].
    apply andb_prop in H. destruct H as [_ Hgap].
    rewrite Ha', Hgap, Hlast, Hl. reflexivity.
  - apply andb_prop in H. destruct H as [H Hl].
    apply andb_prop in H. destruct H as [H Hlast].
    rewrite H, (IH Hl). cbn [andb]. rewrite andb_true_r.
    destruct before; cbn [app] in *; exact Hlast.
Qed.

End AttributeLists.

(** C10: an attribute whose value is empty, written with double quotes,
    with single quotes or with braces, is emitted as [name: true], exactly
    as the attribute without a value.  First for every occurrence in any
    attribute list: the entry of a match whose groups 2, 3 and 4 are absent
    or empty is its key followed by [: true].  Then for the translator as a
    whole on one attribute, for every attribute name (a run of word
    characters followed by hyphenated runs).  Then for the translator on
    every attribute list (attributes separated by whitespace, after any
    leading whitespace) and an attribute with an empty value anywhere in
    it: the mapping holds the entries of the attributes before it, the
    entry [name: true], and the entries of the attributes after it, and it
    is the mapping of the list in which the attribute is written without a
    value. *)
Theorem empty_value_emits_true :
  (forall m name,
     group m 1 = Some name ->
     (forall n, n = 2 \/ n = 3 \/ n = 4 -> group m n = None \/ group m n = Some []) ->
     attr_entry m = Ok (emitted_key name ++ lit ": true"))
  /\ (forall w segs,
       is_words w = true -> forallb is_words segs = true ->
       let name := attr_name_text w segs in
       let bare := Ok (lit "{ " ++ emitted_key name ++ lit ": true }") in
       parse_attributes name = bare
       /\ parse_attributes (name ++ lit "=" ++ [dq; dq]) = bare
       /\ parse_attributes (name ++ lit "=''") = bare
       /\ parse_attributes (name ++ lit "={}") = bare)
  /\ forall lead before a gap after,
       forallb is_space lead = true ->
       well_spaced (before ++ (a, gap) :: after) = true ->
       empty_value (at_value a) = true ->
       let bare := Attribute (at_word a) (at_segs a) NoValue in
       parse_attributes (lead ++ attr_list_text (before ++ (a, gap) :: after))
       = Ok (lit "{ "
             ++ join (lit ", ")
                  (map (fun p => emitted_entry (fst p)) before
                   ++ (emitted_key (at_name a) ++ lit ": true")
                   :: map (fun p => emitted_entry (fst p)) after)
             ++ lit " }")
       /\ parse_attributes (lead ++ attr_list_text (before ++ (a, gap) :: after))
          = parse_attributes (lead ++ attr_list_text (before ++ (bare, gap) :: after)).
Proof.
  split.
  { intros [text caps] name H1 Hg. unfold attr_entry, attr_value.
    assert (Ht : forall n, n = 2 \/ n = 3 \/ n = 4 ->
                 truthy (group (Match text caps) n) = false).
    { intros n Hn. destruct (Hg n Hn) as [-> | ->]; reflexivity. }
    rewrite (Ht 2), (Ht 3), (Ht 4) by tauto.
    cbn [group m_caps] in H1. rewrite (attr_name_of name text caps H1).
    reflexivity. }
  split.
  2:{ intros lead before a gap after Hlead Hl He bare.
      assert (Hentry : forall a', empty_value (at_value a') = true ->
                emitted_entry a' = emitted_key (at_name a') ++ lit ": true").
      { intros a' H. unfold emitted_entry.
        destruct (at_value a') as [|t|t|t]; [reflexivity|..];
          destruct t; first [reflexivity | discriminate H]. }
      assert (Hne : forall x, before ++ (x, gap) :: after <> [])
        by (intros x; destruct before; discriminate).
      assert (Hbare : well_spaced (before ++ (bare, gap) :: after) = true).
      { apply (well_spaced_replace before a bare gap after Hl).
        destruct (well_formed_inside before a gap after Hl) as (Hw & Hs & _).
        unfold well_formed, bare. cbn [at_word at_segs at_value value_closed].
        rewrite Hw, Hs. reflexivity. }
      rewrite (parse_attribute_list lead _ Hlead Hl (Hne a)).
      rewrite (parse_attribute_list lead _ Hlead Hbare (Hne bare)).
      rewrite !map_app. cbn [map fst].
      rewrite (Hentry a He), (Hentry bare eq_refl). split; reflexivity. }
  intros w segs Hw Hs name bare. subst name bare.
  split; [|split; [|split]].
  - rewrite <- (app_nil_r (attr_name_text w segs)) at 1.
    rewrite (parse_one_attr w segs [] [None; Some (attr_name_text w segs)]);
      try reflexivity; try assumption.
    intros pr. eexists. split; [reflexivity|]. split; reflexivity.
  - rewrite (parse_one_attr w segs (lit "=" ++ [dq; dq])
               [None; Some (attr_name_text w segs); None; Some []]);
      try reflexivity; try assumption.
    intros pr. exists (MState (Some dq) [] [None; Some (attr_name_text w segs); None; Some []]).
    split; [reflexivity|]. split; reflexivity.
  - rewrite (parse_one_attr w segs (lit "=''")
               [None; Some (attr_name_text w segs); None; None; Some []]);
      try reflexivity; try assumption.
    intros pr. exists (MState (Some sq) [] [None; Some (attr_name_text w segs); None; None; Some []]).
    split; [reflexivity|]. split; reflexivity.
  - rewrite (parse_one_attr w segs (lit "={}")
               [None; Some (attr_name_text w segs); Some []]);
      try reflexivity; try assumption.
    intros pr. exists (MState (Some "}"%char) [] [None; Some (attr_name_text w segs); Some []]).
    split; [reflexivity|]. split; reflexivity.
Qed.

Lemma empty_value_emits_true_witness :
  attr_entry (Match (lit "x=''") [None; Some (lit "x"); None; None; Some []])
  = Ok (lit "x: true")
  /\ (parse_attributes (lit "data-x") = Ok (lit "{ 'data-x': true }")
      /\ parse_attributes (lit "data-x=" ++ [dq; dq]) = Ok (lit "{ 'data-x': true }")
      /\ parse_attributes (lit "data-x=''") = Ok (lit "{ 'data-x': true }")
      /\ parse_attributes (lit "data-x={}") = Ok (lit "{ 'data-x': true }"))
  /\ parse_attributes (lit " a='x' b=''  data-c={v}")
     = Ok (lit "{ a: 'x', b: true, 'data-c': v }")
  /\ parse_attributes (lit " a='x' b=''  data-c={v}")
     = parse_attributes (lit " a='x' b  data-c={v}").
Proof.
  split; [|split].
  - apply (proj1 empty_value_emits_true
             (Match (lit "x=''") [None; Some (lit "x"); None; None; Some []]) (lit "x")).
    + reflexivity.
    + intros n [-> | [-> | ->]]; [left | left | right]; reflexivity.
  - exact (proj1 (proj2 empty_value_emits_true) (lit "data") [lit "x"] eq_refl eq_refl).
  - exact (proj2 (proj2 empty_value_emits_true) (lit " ")
             [(Attribute (lit "a") [] (SingleQuoted (lit "x")), lit " ")]
             (Attribute (lit "b") [] (SingleQuoted [])) (lit "  ")
             [(Attribute (lit "data") [lit "c"] (Braced (lit "v")), [])]
             eq_refl eq_refl eq_refl).
Defined.

(* ------------------------------------------------------------------ *)
(** ** Return statements whose body does not look like markup *)

Section ReturnBody.



































End ReturnBody.



